(** * kasper: the partition processor and the Elasticsearch key-value store

    A shallow embedding of [partitionProcessor] (package kasper) and of
    [ElasticsearchKeyValueStore] (package kv), with the properties the
    specification states about them.

    Conventions of the embedding.
    - Go's [int], [int32] and [int64] are [Z]; where the source computes
      with them the two's-complement wrap-around is written out.
    - A Go map is a [gmap]; reading a missing key yields the zero value
      (the nil slice for a queue, the nil interface for a handle).
    - A pointer that the source compares by identity is a [ptr]: an
      address together with the value it points to.  [==] on pointers
      compares addresses only.
    - The groups and in-flight messages of one queue are allocated once,
      by [createInFlightMessageGroup], and reachable from that queue
      only; they are embedded by value, and a write through such a
      pointer is a functional update of the slot that holds it.
    - [log.Fatal] and run-time panics end the run; functions that can hit
      one return a [result]. *)


From Stdlib Require Import ZArith String Ascii List Bool Lia Sorted.
From stdpp Require Import base option list gmap strings.

Local Open Scope Z_scope.

(* ===================================================================== *)
(** ** Machine integers, results, pointers *)
(* ===================================================================== *)

Module Int.

(** Two's-complement reduction of [z] to [w] bits. *)
Definition wrap (w : Z) (z : Z) : Z :=
  (z + 2 ^ (w - 1)) mod 2 ^ w - 2 ^ (w - 1).

Definition int32 (z : Z) : Z := wrap 32 z.

Definition int64 (z : Z) : Z := wrap 64 z.

Definition max_int64 : Z := 2 ^ 63 - 1.

(** [a + b] on [int64]. *)
Definition add64 (a b : Z) : Z := int64 (a + b).

End Int.

(** How a call ends: normally, in [log.Fatal], or in a run-time panic. *)
Inductive result (A : Type) : Type :=
| Ok (a : A)
| Fatal (msg : string)
| Panic (msg : string).

Arguments Ok {A} a.
Arguments Fatal {A} msg.
Arguments Panic {A} msg.

#[global] Instance result_ret : MRet result := fun _ a => Ok a.

#[global] Instance result_bind : MBind result := fun _ _ k r =>
  match r with
  | Ok a => k a
  | Fatal msg => Fatal msg
  | Panic msg => Panic msg
  end.

#[global] Instance result_fmap : FMap result := fun _ _ f r =>
  match r with
  | Ok a => Ok (f a)
  | Fatal msg => Fatal msg
  | Panic msg => Panic msg
  end.

Definition addr : Type := positive.

(** A non-nil pointer: where it points, and what is there. *)
Record ptr (A : Type) : Type := Ptr { address : addr; pointee : A }.

Arguments Ptr {A} address pointee.
Arguments address {A} p.
Arguments pointee {A} p.

(** [p == q] on pointers. *)
Definition ptr_eqb {A : Type} (p q : ptr A) : bool :=
  Pos.eqb (address p) (address q).

(** Go's [[]byte], and a value held in an [interface{}]. *)
Definition bytes : Type := string.

Inductive any : Type :=
| AnyNil
| AnyValue (repr : string).

(* ===================================================================== *)
(** ** Messages *)
(* ===================================================================== *)

(** [sarama.ConsumerMessage]. *)
Record ConsumerMessage : Type := {
  cm_Key : bytes;
  cm_Value : bytes;
  cm_Topic : string;
  cm_Partition : Z;
  cm_Offset : Z;
  cm_Timestamp : Z
}.

Record IncomingMessage : Type := {
  Topic : string;
  Partition : Z;
  Offset : Z;
  Key : any;
  Value : any;
  Timestamp : Z
}.

(** [sarama.ProducerMessage]; [Metadata] is [Some p] when the interface
    holds a [*IncomingMessage], [None] when it holds none: the nil
    interface, or a value of another type. *)
Record ProducerMessage : Type := {
  pm_Topic : string;
  pm_Key : bytes;
  pm_Value : bytes;
  pm_Partition : Z;
  Metadata : option (ptr IncomingMessage)
}.

Definition with_Metadata (md : option (ptr IncomingMessage)) (m : ProducerMessage)
  : ProducerMessage :=
  {| pm_Topic := pm_Topic m; pm_Key := pm_Key m; pm_Value := pm_Value m;
     pm_Partition := pm_Partition m; Metadata := md |}.

(* ===================================================================== *)
(** ** In-flight groups *)
(* ===================================================================== *)

Record inFlightMessage : Type := {
  msg : ptr ProducerMessage;
  ack : bool
}.

Record inFlightMessageGroup : Type := {
  incomingMessage : ptr IncomingMessage;
  inFlightMessages : list inFlightMessage;
  committed : bool
}.

(** Modelled from the spec: the method [allAcksAreTrue] of
    [inFlightMessageGroup], which is declared in another file of the package.
    "A group is complete when every contained InFlightMessage has
    ack = true; a group with zero produced records is complete
    immediately." *)
Definition allAcksAreTrue (group : inFlightMessageGroup) : bool :=
  forallb ack (inFlightMessages group).

Definition with_ack (b : bool) (m : inFlightMessage) : inFlightMessage :=
  {| msg := msg m; ack := b |}.

Definition with_inFlightMessages (ms : list inFlightMessage)
    (g : inFlightMessageGroup) : inFlightMessageGroup :=
  {| incomingMessage := incomingMessage g; inFlightMessages := ms;
     committed := committed g |}.

(* ===================================================================== *)
(** ** Configuration and collaborators *)
(* ===================================================================== *)

Record Serde : Type := {
  Serialize : any -> bytes;
  Deserialize : bytes -> any
}.

Record TopicSerde : Type := {
  KeySerde : Serde;
  ValueSerde : Serde
}.

Record Config : Type := {
  MaxInFlightMessageGroups : Z
}.

(** Modelled from the spec: the commit discipline of the topic processor
    configuration, whose declaration is in another file of the package.
    "Commit discipline, exactly one of: markOffsetsManually,
    markOffsetsAutomatically." *)
Inductive CommitDiscipline : Type :=
| ManualCommit
| AutomaticCommit.

Record TopicProcessorConfig : Type := {
  TopicSerdes : gmap string TopicSerde;
  commitDiscipline : CommitDiscipline;
  Config_ : Config
}.

(** Modelled from the spec: the methods [markOffsetsManually] and
    [markOffsetsAutomatically] of the configuration; "exactly one is
    active". *)
Definition markOffsetsManually (config : TopicProcessorConfig) : bool :=
  match commitDiscipline config with
  | ManualCommit => true
  | AutomaticCommit => false
  end.

Definition markOffsetsAutomatically (config : TopicProcessorConfig) : bool :=
  match commitDiscipline config with
  | ManualCommit => false
  | AutomaticCommit => true
  end.

(** [sarama.OffsetNewest]. *)
Definition OffsetNewest : Z := -1.

(** A [sarama.PartitionOffsetManager]: what [NextOffset] answers, and the
    calls of [MarkOffset] it has received, oldest first. *)
Record PartitionOffsetManager : Type := {
  NextOffset : Z * string;
  marked : list (Z * string)
}.

Definition pom_MarkOffset (offset : Z) (metadata : string)
    (pom : PartitionOffsetManager) : PartitionOffsetManager :=
  {| NextOffset := NextOffset pom;
     marked := marked pom ++ [(offset, metadata)] |}.

(** A [sarama.PartitionConsumer], by the arguments it was opened with. *)
Record PartitionConsumer : Type := {
  pc_topic : string;
  pc_partition : Z;
  pc_offset : Z
}.

(** [sarama.Consumer]: [ConsumePartition] answers with an error or lets
    the partition consumer be opened. *)
Record Consumer : Type := {
  ConsumePartition_err : string -> Z -> Z -> option string
}.

Definition ConsumePartition (c : Consumer) (topic : string) (partition offset : Z)
  : PartitionConsumer + string :=
  match ConsumePartition_err c topic partition offset with
  | Some e => inr e
  | None => inl {| pc_topic := topic; pc_partition := partition; pc_offset := offset |}
  end.

(** [sarama.Client] and [sarama.OffsetManager], by their answers. *)
Record Client : Type := {
  NewConsumerFromClient : Consumer + string;
  GetOffset : string -> Z -> Z -> Z + string
}.

Record OffsetManager : Type := {
  ManagePartition : string -> Z -> PartitionOffsetManager + string
}.

Inductive UserAction : Type :=
| Send (producerMessage : ptr ProducerMessage)
| Commit.

(** What the user's [Process] does with the sender and the coordinator it
    is handed: a sequence of [Send] and [Commit] calls. *)
Definition MessageProcessor : Type := IncomingMessage -> list UserAction.

Record TopicProcessor : Type := {
  config : TopicProcessorConfig;
  client : Client;
  offsetManager : OffsetManager;
  tp_inputTopics : list string
}.

(* ===================================================================== *)
(** ** The partition processor *)
(* ===================================================================== *)

(** The [coordinator] field is a back-reference to the processor itself
    and is represented by the processor; [nextAddress] is the allocator's
    next free address. *)
Record partitionProcessor : Type := {
  topicProcessor : TopicProcessor;
  consumer : Consumer;
  partitionConsumers : list (option PartitionConsumer);
  offsetManagers : gmap string PartitionOffsetManager;
  messageProcessor : MessageProcessor;
  inputTopics : list string;
  partition : Z;
  inFlightMessageGroups : gmap string (list inFlightMessageGroup);
  commitNextInFlightMessageGroup : bool;
  nextAddress : addr
}.

Definition with_inFlightMessageGroups
    (m : gmap string (list inFlightMessageGroup)) (pp : partitionProcessor)
  : partitionProcessor :=
  {| topicProcessor := topicProcessor pp; consumer := consumer pp;
     partitionConsumers := partitionConsumers pp;
     offsetManagers := offsetManagers pp;
     messageProcessor := messageProcessor pp; inputTopics := inputTopics pp;
     partition := partition pp; inFlightMessageGroups := m;
     commitNextInFlightMessageGroup := commitNextInFlightMessageGroup pp;
     nextAddress := nextAddress pp |}.

Definition with_offsetManagers
    (m : gmap string PartitionOffsetManager) (pp : partitionProcessor)
  : partitionProcessor :=
  {| topicProcessor := topicProcessor pp; consumer := consumer pp;
     partitionConsumers := partitionConsumers pp;
     offsetManagers := m;
     messageProcessor := messageProcessor pp; inputTopics := inputTopics pp;
     partition := partition pp;
     inFlightMessageGroups := inFlightMessageGroups pp;
     commitNextInFlightMessageGroup := commitNextInFlightMessageGroup pp;
     nextAddress := nextAddress pp |}.

Definition with_commitNextInFlightMessageGroup
    (b : bool) (pp : partitionProcessor) : partitionProcessor :=
  {| topicProcessor := topicProcessor pp; consumer := consumer pp;
     partitionConsumers := partitionConsumers pp;
     offsetManagers := offsetManagers pp;
     messageProcessor := messageProcessor pp; inputTopics := inputTopics pp;
     partition := partition pp;
     inFlightMessageGroups := inFlightMessageGroups pp;
     commitNextInFlightMessageGroup := b;
     nextAddress := nextAddress pp |}.

Definition with_nextAddress (a : addr) (pp : partitionProcessor)
  : partitionProcessor :=
  {| topicProcessor := topicProcessor pp; consumer := consumer pp;
     partitionConsumers := partitionConsumers pp;
     offsetManagers := offsetManagers pp;
     messageProcessor := messageProcessor pp; inputTopics := inputTopics pp;
     partition := partition pp;
     inFlightMessageGroups := inFlightMessageGroups pp;
     commitNextInFlightMessageGroup := commitNextInFlightMessageGroup pp;
     nextAddress := a |}.

(** [pp.inFlightMessageGroups[topic]]: the nil slice when the key is
    missing. *)
Definition queue (pp : partitionProcessor) (topic : string)
  : list inFlightMessageGroup :=
  default [] (inFlightMessageGroups pp !! topic).

(** [pp.inFlightMessageGroups[topic] = q]. *)
Definition set_queue (topic : string) (q : list inFlightMessageGroup)
    (pp : partitionProcessor) : partitionProcessor :=
  with_inFlightMessageGroups (<[topic := q]> (inFlightMessageGroups pp)) pp.

(** [pp.offsetManagers[topic].MarkOffset(offset, metadata)]; the call
    panics on the nil interface a missing key yields. *)
Definition MarkOffset (topic : string) (offset : Z) (metadata : string)
    (pp : partitionProcessor) : result partitionProcessor :=
  match offsetManagers pp !! topic with
  | None => Panic "runtime error: invalid memory address or nil pointer dereference"
  | Some pom =>
      Ok (with_offsetManagers
            (<[topic := pom_MarkOffset offset metadata pom]> (offsetManagers pp)) pp)
  end.

(* ===================================================================== *)
(** ** onProcessCompleted: the interior prune *)
(* ===================================================================== *)

(** The loop of [pruneInFlightMessageGroupsForTopic]; [q] is the value of
    [pp.inFlightMessageGroups[topic]] at the loop test. *)
Fixpoint pruneLoop (topic : string) (q : list inFlightMessageGroup)
    (pp : partitionProcessor) : partitionProcessor :=
  match q with
  | headGroup :: ((nextGroup :: _) as rest) =>
      if negb (allAcksAreTrue headGroup) || negb (allAcksAreTrue nextGroup)
      then pp
      else pruneLoop topic rest (set_queue topic rest pp)
  | _ => pp
  end.

Definition pruneInFlightMessageGroupsForTopic
    (pp : partitionProcessor) (topic : string) : partitionProcessor :=
  pruneLoop topic (queue pp topic) pp.

Definition pruneInFlightMessageGroups (pp : partitionProcessor)
  : partitionProcessor :=
  fold_left pruneInFlightMessageGroupsForTopic
            (tp_inputTopics (topicProcessor pp)) pp.

Definition onProcessCompleted (pp : partitionProcessor) : partitionProcessor :=
  pruneInFlightMessageGroups pp.

(* ===================================================================== *)
(** ** isReadyForMessage *)
(* ===================================================================== *)

Definition isReadyForMessage (pp : partitionProcessor) (msg : ConsumerMessage)
  : bool :=
  let maxGroups := MaxInFlightMessageGroups (Config_ (config (topicProcessor pp))) in
  Z.of_nat (length (queue pp (cm_Topic msg))) <=? maxGroups.

(* ===================================================================== *)
(** ** markOffsetsIfPossible: the offset-advancing prune *)
(* ===================================================================== *)

(** The loop of [markOffsetsForTopicIfPossible]; [q] is the value of
    [pp.inFlightMessageGroups[topic]] at the loop test, [offset] the
    local of that name.  It returns the processor and [offset] at
    loop exit. *)
Fixpoint markLoop (topic : string) (q : list inFlightMessageGroup)
    (offset : Z) (pp : partitionProcessor) : result (partitionProcessor * Z) :=
  match q with
  | [] => Ok (pp, offset)
  | group :: rest =>
      if negb (allAcksAreTrue group) then Ok (pp, offset)
      else
        let offset := Offset (pointee (incomingMessage group)) in
        pp ← (if committed group && markOffsetsManually (config (topicProcessor pp))
              then MarkOffset topic (Int.add64 offset 1) "" pp
              else Ok pp);
        markLoop topic rest offset (set_queue topic rest pp)
  end.

Definition markOffsetsForTopicIfPossible
    (pp : partitionProcessor) (topic : string) : result partitionProcessor :=
  '(pp, offset) ← markLoop topic (queue pp topic) (-1) pp;
  if negb (offset =? -1) && markOffsetsAutomatically (config (topicProcessor pp))
  then MarkOffset topic (Int.add64 offset 1) "" pp
  else Ok pp.

(** [for _, topic := range topics { pp.markOffsetsForTopicIfPossible(topic) }] *)
Fixpoint markOffsetsForTopics (topics : list string) (pp : partitionProcessor)
  : result partitionProcessor :=
  match topics with
  | [] => Ok pp
  | topic :: topics =>
      pp ← markOffsetsForTopicIfPossible pp topic;
      markOffsetsForTopics topics pp
  end.

Definition markOffsetsIfPossible (pp : partitionProcessor)
  : result partitionProcessor :=
  markOffsetsForTopics (tp_inputTopics (topicProcessor pp)) pp.

(* ===================================================================== *)
(** ** process *)
(* ===================================================================== *)

(** Modelled from the spec: the Sender, declared in another file of
    the package.  "send(producerMessage): append to an internal list; set the
    message's metadata field to the originating IncomingMessage."
    "createInFlightMessageGroup(committed): freezes the submissions into
    an InFlightMessageGroup whose incomingMessage is the Sender's origin,
    inFlightMessages has one entry per submission with ack = false, and
    committed is taken from the argument." *)
Record sender : Type := {
  sender_incomingMessage : ptr IncomingMessage;
  producerMessages : list (ptr ProducerMessage)
}.

Definition newSender (incomingMessage : ptr IncomingMessage) : sender :=
  {| sender_incomingMessage := incomingMessage; producerMessages := [] |}.

Definition sender_Send (m : ptr ProducerMessage) (s : sender) : sender :=
  {| sender_incomingMessage := sender_incomingMessage s;
     producerMessages :=
       producerMessages s ++
       [Ptr (address m) (with_Metadata (Some (sender_incomingMessage s)) (pointee m))] |}.

Definition createInFlightMessageGroup (s : sender) (committed : bool)
  : inFlightMessageGroup :=
  {| incomingMessage := sender_incomingMessage s;
     inFlightMessages := map (fun m => {| msg := m; ack := false |}) (producerMessages s);
     committed := committed |}.

(** Modelled from the spec: the Coordinator, declared in another file
    of the package.  "Its sole operation, commit(), sets
    commitNextInFlightMessageGroup = true on the processor." *)
Definition coordinator_Commit (pp : partitionProcessor) : partitionProcessor :=
  with_commitNextInFlightMessageGroup true pp.

Definition runUserAction (st : partitionProcessor * sender) (a : UserAction)
  : partitionProcessor * sender :=
  match a with
  | Send m => (st.1, sender_Send m st.2)
  | Commit => (coordinator_Commit st.1, st.2)
  end.

(** [pp.messageProcessor.Process(incomingMessage, sender, pp.coordinator)] *)
Definition Process (mp : MessageProcessor) (incomingMessage : IncomingMessage)
    (s : sender) (pp : partitionProcessor) : partitionProcessor * sender :=
  fold_left runUserAction (mp incomingMessage) (pp, s).

Definition process (pp : partitionProcessor) (consumerMessage : ConsumerMessage)
  : result (partitionProcessor * list (ptr ProducerMessage)) :=
  match TopicSerdes (config (topicProcessor pp)) !! cm_Topic consumerMessage with
  | None =>
      Fatal (String.append "Could not find Serde for topic '"
               (String.append (cm_Topic consumerMessage) "'"))
  | Some topicSerde =>
      let incomingMessage :=
        {| Topic := cm_Topic consumerMessage;
           Partition := cm_Partition consumerMessage;
           Offset := cm_Offset consumerMessage;
           Key := Deserialize (KeySerde topicSerde) (cm_Key consumerMessage);
           Value := Deserialize (ValueSerde topicSerde) (cm_Value consumerMessage);
           Timestamp := cm_Timestamp consumerMessage |} in
      let incomingMessagePtr := Ptr (nextAddress pp) incomingMessage in
      let pp := with_nextAddress (Pos.succ (nextAddress pp)) pp in
      let sender := newSender incomingMessagePtr in
      let pp := with_commitNextInFlightMessageGroup false pp in
      let '(pp, sender) := Process (messageProcessor pp) incomingMessage sender pp in
      let inFlightMessageGroup :=
        createInFlightMessageGroup sender (commitNextInFlightMessageGroup pp) in
      let pp :=
        set_queue (cm_Topic consumerMessage)
                  (queue pp (cm_Topic consumerMessage) ++ [inFlightMessageGroup]) pp in
      Ok (pp, producerMessages sender)
  end.

(* ===================================================================== *)
(** ** onProducerAck *)
(* ===================================================================== *)

(** The inner loop: the first in-flight message whose [msg] is
    [sentMessage] gets [ack = true]; [None] when there is none
    ([foundMsg] stays false). *)
Fixpoint ackInFlightMessage (sentMessage : ptr ProducerMessage)
    (ms : list inFlightMessage) : option (list inFlightMessage) :=
  match ms with
  | [] => None
  | inFlightMessage :: rest =>
      if ptr_eqb (msg inFlightMessage) sentMessage
      then Some (with_ack true inFlightMessage :: rest)
      else cons inFlightMessage <$> ackInFlightMessage sentMessage rest
  end.

(** The outer loop over [pp.inFlightMessageGroups[incomingMessage.Topic]]. *)
Fixpoint ackGroup (incoming : ptr IncomingMessage) (sentMessage : ptr ProducerMessage)
    (groups : list inFlightMessageGroup) : result (list inFlightMessageGroup) :=
  match groups with
  | [] => Fatal "Could not find group in inFlightMessageGroups"
  | group :: rest =>
      if ptr_eqb (incomingMessage group) incoming
      then
        match ackInFlightMessage sentMessage (inFlightMessages group) with
        | Some ms => Ok (with_inFlightMessages ms group :: rest)
        | None => Fatal "Could not find producer message in inFlightMessageGroups"
        end
      else cons group <$> ackGroup incoming sentMessage rest
  end.

(** The type assertion that opens [onProducerAck] panics on a metadata
    that holds no [*IncomingMessage]; the text is the one of the nil
    interface (for a value of another type Go names that type in place
    of nil). *)
Definition onProducerAck (pp : partitionProcessor) (sentMessage : ptr ProducerMessage)
  : result partitionProcessor :=
  match Metadata (pointee sentMessage) with
  | None => Panic "interface conversion: interface {} is nil, not *kasper.IncomingMessage"
  | Some incoming =>
      let topic := Topic (pointee incoming) in
      groups ← ackGroup incoming sentMessage (queue pp topic);
      Ok (set_queue topic groups pp)
  end.

(* ===================================================================== *)
(** ** newPartitionProcessor *)
(* ===================================================================== *)

(** [if err != nil { log.Fatal(err) }] *)
Definition orFatal {A : Type} (r : A + string) : result A :=
  match r with
  | inl a => Ok a
  | inr err => Fatal err
  end.

(** The loop over [tp.inputTopics], from index [i] on.  A slot of
    [partitionConsumers] is [None] until it is assigned (the nil
    interface [make] fills the slice with). *)
Fixpoint openTopics (tp : TopicProcessor) (consumer : Consumer) (partition : Z)
    (i : nat) (topics : list string)
    (partitionConsumers : list (option PartitionConsumer))
    (partitionOffsetManagers : gmap string PartitionOffsetManager)
  : result (list (option PartitionConsumer) * gmap string PartitionOffsetManager) :=
  match topics with
  | [] => Ok (partitionConsumers, partitionOffsetManagers)
  | topic :: topics =>
      pom ← orFatal (ManagePartition (offsetManager tp) topic (Int.int32 partition));
      newestOffset ← orFatal (GetOffset (client tp) topic (Int.int32 partition) OffsetNewest);
      let nextOffset := (NextOffset pom).1 in
      let nextOffset := if nextOffset >? newestOffset then OffsetNewest else nextOffset in
      c ← orFatal (ConsumePartition consumer topic (Int.int32 partition) nextOffset);
      openTopics tp consumer partition (S i) topics
                 (<[i := Some c]> partitionConsumers)
                 (<[topic := pom]> partitionOffsetManagers)
  end.

Definition newPartitionProcessor (tp : TopicProcessor) (mp : MessageProcessor)
    (partition : Z) : result partitionProcessor :=
  consumer ← orFatal (NewConsumerFromClient (client tp));
  '(partitionConsumers, partitionOffsetManagers) ←
    openTopics tp consumer partition 0 (tp_inputTopics tp)
               (replicate (length (tp_inputTopics tp)) None) ∅;
  Ok {| topicProcessor := tp;
        consumer := consumer;
        partitionConsumers := partitionConsumers;
        offsetManagers := partitionOffsetManagers;
        messageProcessor := mp;
        inputTopics := tp_inputTopics tp;
        partition := partition;
        inFlightMessageGroups := ∅;
        commitNextInFlightMessageGroup := false;
        nextAddress := 1%positive |}.

(* ===================================================================== *)
(** ** Notions the properties are stated with *)
(* ===================================================================== *)

(** A processor that differs from [pp] in its in-flight queues at most. *)
Definition sameButQueues (pp pp' : partitionProcessor) : Prop :=
  pp' = with_inFlightMessageGroups (inFlightMessageGroups pp') pp.

(** What the loop of [pruneInFlightMessageGroupsForTopic] leaves of a
    queue. *)
Fixpoint pruned (q : list inFlightMessageGroup) : list inFlightMessageGroup :=
  match q with
  | headGroup :: ((nextGroup :: _) as rest) =>
      if negb (allAcksAreTrue headGroup) || negb (allAcksAreTrue nextGroup)
      then q
      else pruned rest
  | _ => q
  end.

(** The completed groups at the head of a queue, and what follows them. *)
Fixpoint completedPrefix (q : list inFlightMessageGroup) : list inFlightMessageGroup :=
  match q with
  | [] => []
  | group :: rest =>
      if allAcksAreTrue group then group :: completedPrefix rest else []
  end.

Fixpoint afterCompletedPrefix (q : list inFlightMessageGroup)
  : list inFlightMessageGroup :=
  match q with
  | [] => []
  | group :: rest =>
      if allAcksAreTrue group then afterCompletedPrefix rest else q
  end.

(** The log offset of the input record a group belongs to. *)
Definition offsetOf (group : inFlightMessageGroup) : Z :=
  Offset (pointee (incomingMessage group)).

(** The calls of [MarkOffset] the manager of [topic] has received. *)
Definition marksOf (pp : partitionProcessor) (topic : string) : list (Z * string) :=
  match offsetManagers pp !! topic with
  | Some pom => marked pom
  | None => []
  end.

(** The call [MarkOffset(offset+1, "")] for a group. *)
Definition markFor (group : inFlightMessageGroup) : Z * string :=
  (Int.add64 (offsetOf group) 1, "").

(** The calls one pass of [markOffsetsForTopicIfPossible] makes on a
    queue [q]. *)
Definition topicMarks (config : TopicProcessorConfig)
    (q : list inFlightMessageGroup) : list (Z * string) :=
  match commitDiscipline config with
  | ManualCommit => map markFor (List.filter committed (completedPrefix q))
  | AutomaticCommit =>
      match last (completedPrefix q) with
      | Some group => if offsetOf group =? -1 then [] else [markFor group]
      | None => []
      end
  end.

(** Every input topic has its offset manager, as the constructor
    arranges. *)
Definition managed (pp : partitionProcessor) : Prop :=
  forall t : string,
    t ∈ tp_inputTopics (topicProcessor pp) -> is_Some (offsetManagers pp !! t).

(** The offsets of the queued groups are offsets of log records. *)
Definition logOffsets (q : list inFlightMessageGroup) : Prop :=
  forall g : inFlightMessageGroup, g ∈ q -> 0 <= offsetOf g < Int.max_int64.

(** [pp'] comes from [pp] by writes to the queue of [topic] and by the
    calls [new] of [MarkOffset] on the manager of [topic]; nothing of
    another topic is touched. *)
Definition marksOnly (topic : string) (new : list (Z * string))
    (pp pp' : partitionProcessor) : Prop :=
  topicProcessor pp' = topicProcessor pp /\
  marksOf pp' topic = marksOf pp topic ++ new /\
  (forall t, topic ≠ t -> queue pp' t = queue pp t /\ marksOf pp' t = marksOf pp t) /\
  (forall t, is_Some (offsetManagers pp !! t) -> is_Some (offsetManagers pp' !! t)).

(** The calls the loop of [markOffsetsForTopicIfPossible] makes. *)
Definition loopMarks (config : TopicProcessorConfig)
    (q : list inFlightMessageGroup) : list (Z * string) :=
  if markOffsetsManually config
  then map markFor (List.filter committed (completedPrefix q))
  else [].

(** The input record [process] builds from a consumer message. *)
Definition incomingOf (topicSerde : TopicSerde) (consumerMessage : ConsumerMessage)
  : IncomingMessage :=
  {| Topic := cm_Topic consumerMessage;
     Partition := cm_Partition consumerMessage;
     Offset := cm_Offset consumerMessage;
     Key := Deserialize (KeySerde topicSerde) (cm_Key consumerMessage);
     Value := Deserialize (ValueSerde topicSerde) (cm_Value consumerMessage);
     Timestamp := cm_Timestamp consumerMessage |}.

(** The producer messages a run of user code submits, in submission
    order, each with its metadata pointing at [origin]. *)
Fixpoint submissions (origin : ptr IncomingMessage) (actions : list UserAction)
  : list (ptr ProducerMessage) :=
  match actions with
  | [] => []
  | Send m :: actions =>
      Ptr (address m) (with_Metadata (Some origin) (pointee m))
      :: submissions origin actions
  | Commit :: actions => submissions origin actions
  end.

(** Whether a run of user code calls [Commit]. *)
Fixpoint commitRequested (actions : list UserAction) : bool :=
  match actions with
  | [] => false
  | Send _ :: actions => commitRequested actions
  | Commit :: _ => true
  end.

(** [x] is at index [i] of [l], satisfies [P], and nothing before it
    does: the element a [for ... range] loop with [if P { ...; break }]
    stops at. *)
Definition firstAt {A : Type} (P : A -> bool) (l : list A) (i : nat) (x : A) : Prop :=
  l !! i = Some x /\ P x = true /\
  forall (j : nat) (y : A), (j < i)%nat -> l !! j = Some y -> P y = false.

(** The broker lets the partition of [topic] be opened: the offset
    manager and the offset query answer, and so does [ConsumePartition]
    at the offset the constructor asks for. *)
Definition brokerOpens (tp : TopicProcessor) (consumer : Consumer)
    (partition : Z) (topic : string) : Prop :=
  exists (pom : PartitionOffsetManager) (newestOffset : Z),
    ManagePartition (offsetManager tp) topic (Int.int32 partition) = inl pom /\
    GetOffset (client tp) topic (Int.int32 partition) OffsetNewest = inl newestOffset /\
    ConsumePartition_err consumer topic (Int.int32 partition)
      (if (NextOffset pom).1 >? newestOffset then OffsetNewest else (NextOffset pom).1)
    = None.

(** The address of the input record a group belongs to. *)
Definition originAddress (group : inFlightMessageGroup) : addr :=
  address (incomingMessage group).

(** The input records of the queued groups were allocated before
    [nextAddress]. *)
Definition freshOrigins (pp : partitionProcessor) : Prop :=
  forall (t : string) (g : inFlightMessageGroup),
    g ∈ queue pp t -> (originAddress g < nextAddress pp)%positive.

(** No two groups of one queue belong to the same input record. *)
Definition distinctOrigins (pp : partitionProcessor) : Prop :=
  forall t : string, NoDup (originAddress <$> queue pp t).

(** The acknowledgements of [sent], one after the other. *)
Fixpoint onProducerAcks (pp : partitionProcessor) (sent : list (ptr ProducerMessage))
  : result partitionProcessor :=
  match sent with
  | [] => Ok pp
  | sentMessage :: sent =>
      pp ← onProducerAck pp sentMessage;
      onProducerAcks pp sent
  end.

(** One call of an operation of the processor that returns. *)
Inductive step : partitionProcessor -> partitionProcessor -> Prop :=
| step_process (pp pp' : partitionProcessor) (m : ConsumerMessage)
    (out : list (ptr ProducerMessage)) :
    process pp m = Ok (pp', out) -> step pp pp'
| step_onProcessCompleted (pp : partitionProcessor) :
    step pp (onProcessCompleted pp)
| step_onProducerAck (pp pp' : partitionProcessor) (sentMessage : ptr ProducerMessage) :
    onProducerAck pp sentMessage = Ok pp' -> step pp pp'
| step_markOffsetsIfPossible (pp pp' : partitionProcessor) :
    markOffsetsIfPossible pp = Ok pp' -> step pp pp'.

(** The processors that come from the constructor by such calls. *)
Inductive reachable (tp : TopicProcessor) (mp : MessageProcessor) (partition : Z)
  : partitionProcessor -> Prop :=
| reachable_new (pp : partitionProcessor) :
    newPartitionProcessor tp mp partition = Ok pp -> reachable tp mp partition pp
| reachable_step (pp pp' : partitionProcessor) :
    reachable tp mp partition pp -> step pp pp' -> reachable tp mp partition pp'.

(** What an acknowledgement leaves of each group of the queue: its
    input record, its [committed] flag and its messages, and every
    [ack] that was set. *)
Definition sameGroupButAcks (g g' : inFlightMessageGroup) : Prop :=
  incomingMessage g' = incomingMessage g /\
  committed g' = committed g /\
  msg <$> inFlightMessages g' = msg <$> inFlightMessages g /\
  (allAcksAreTrue g = true -> allAcksAreTrue g' = true).

(** The group of [origin] at the end of its queue, with the messages
    [acked] acknowledged and the messages [waiting] not. *)
Definition groupOf (origin : ptr IncomingMessage) (isCommitted : bool)
    (acked waiting : list (ptr ProducerMessage)) : inFlightMessageGroup :=
  {| incomingMessage := origin;
     inFlightMessages :=
       map (fun m => {| msg := m; ack := true |}) acked ++
       map (fun m => {| msg := m; ack := false |}) waiting;
     committed := isCommitted |}.

(* ===================================================================== *)
(** ** A small processor to run the definitions on *)
(* ===================================================================== *)

Module Sample.

Definition serde : Serde :=
  {| Serialize := fun v => match v with AnyNil => "" | AnyValue s => s end;
     Deserialize := AnyValue |}.

Definition topicSerde : TopicSerde := {| KeySerde := serde; ValueSerde := serde |}.

Definition theConfig (d : CommitDiscipline) (maxGroups : Z) : TopicProcessorConfig :=
  {| TopicSerdes := {[ "t" := topicSerde ]};
     commitDiscipline := d;
     Config_ := {| MaxInFlightMessageGroups := maxGroups |} |}.

Definition pom (nextOffset : Z) : PartitionOffsetManager :=
  {| NextOffset := (nextOffset, ""); marked := [] |}.

Definition theConsumer : Consumer :=
  {| ConsumePartition_err := fun _ _ _ => None |}.

(** A broker whose log ends at offset 42 and whose persisted next
    offset is [nextOffset]. *)
Definition tp (d : CommitDiscipline) (maxGroups nextOffset : Z) : TopicProcessor :=
  {| config := theConfig d maxGroups;
     client := {| NewConsumerFromClient := inl theConsumer;
                  GetOffset := fun _ _ _ => inl 42 |};
     offsetManager := {| ManagePartition := fun _ _ => inl (pom nextOffset) |};
     tp_inputTopics := ["t"] |}.

Definition incoming (a : addr) (offset : Z) : ptr IncomingMessage :=
  Ptr a {| Topic := "t"; Partition := 0; Offset := offset;
           Key := AnyNil; Value := AnyNil; Timestamp := 0 |}.

Definition produced (a : addr) (origin : ptr IncomingMessage) : ptr ProducerMessage :=
  Ptr a {| pm_Topic := "u"; pm_Key := ""; pm_Value := ""; pm_Partition := 0;
           Metadata := Some origin |}.

(** The group of the input record at [offset], with one produced
    record. *)
Definition group (a : addr) (offset : Z) (acked isCommitted : bool)
  : inFlightMessageGroup :=
  {| incomingMessage := incoming a offset;
     inFlightMessages := [ {| msg := produced (a + 100)%positive (incoming a offset);
                              ack := acked |} ];
     committed := isCommitted |}.

Definition echo : MessageProcessor :=
  fun m => [ Send (Ptr 1000%positive {| pm_Topic := "u"; pm_Key := ""; pm_Value := "";
                                pm_Partition := Partition m; Metadata := None |});
             Commit ].

Definition pp (d : CommitDiscipline) (maxGroups : Z)
    (q : list inFlightMessageGroup) : partitionProcessor :=
  {| topicProcessor := tp d maxGroups 10;
     consumer := theConsumer;
     partitionConsumers :=
       [Some {| pc_topic := "t"; pc_partition := 0; pc_offset := 10 |}];
     offsetManagers := {[ "t" := pom 10 ]};
     messageProcessor := echo;
     inputTopics := ["t"];
     partition := 0;
     inFlightMessageGroups := {[ "t" := q ]};
     commitNextInFlightMessageGroup := true;
     nextAddress := 50%positive |}.

(** Offsets 10 and 11 acknowledged, 12 still in flight. *)
Definition q3 : list inFlightMessageGroup :=
  [group 1%positive 10 true false; group 2%positive 11 true true;
   group 3%positive 12 false false].

End Sample.

(* ===================================================================== *)
(** ** The Elasticsearch key-value store *)
(* ===================================================================== *)

Module kv.

(** A Go [error], by the text its [Error] method returns. *)
Definition error : Type := string.

(** [strings.Split(s, sep)] for a separator of one byte: the pieces of
    [s] between the occurrences of [sep], one more than there are
    occurrences. *)
Fixpoint Split (s : string) (sep : ascii) : list string :=
  match s with
  | EmptyString => [EmptyString]
  | String c rest =>
      if Ascii.eqb c sep then EmptyString :: Split rest sep
      else match Split rest sep with
           | part :: parts => String c part :: parts
           | [] => [String c EmptyString]
           end
  end.

(** The JSON bodies of the index settings and of the mapping, written
    without their quotation marks. *)
Definition indexSettings : string := "{ index.translog.durability: sync }".

Definition indexMapping : string := "{ _all: { enabled: false }, dynamic_templates: [{ no_index: { mapping: { index: no }, match: * } }] }".

Record indexAndType : Type := {
  indexName : string;
  indexType : string
}.

(** The answers of the Elasticsearch client. *)
Record GetResult : Type := {
  Found : bool;
  Source : option bytes
}.

Record DeleteResponse : Type := {
  deleteFound : bool
}.

Record PutMappingResponse : Type := {
  Acknowledged : bool
}.

(** The calls the store makes on its client: each is a service of the
    client, built with the arguments shown and run with [Do].  What the
    client library puts on the wire for a call is its own business; it
    refuses some calls without a request to the server (a document call
    with an empty id, for one) and answers them with an error. *)
Inductive Request : Type :=
| IndexExistsRequest (index : string)
| CreateIndexRequest (index body : string)
| PutMappingRequest (index type body : string)
| GetRequest (index type id : string)
| IndexRequest (index type id : string) (doc : any)
| DeleteRequest (index type id : string).

(** [util.StructPtrWitness], declared in another file of the package, by
    what its methods answer: [Assert] lets a value pass ([None]) or
    panics with a message, [Nil] is the typed nil pointer, [Allocate]
    a fresh struct. *)
Record StructPtrWitness : Type := {
  Assert : any -> option string;
  Nil : any;
  Allocate : any
}.

Section Store.

(** The state of the Elasticsearch server. *)
Variable Server : Type.

(** [elastic.Client], by what each call answers and does to the
    server (a call the library refuses answers its error and leaves
    the server as it is); [Unmarshal] is [json.Unmarshal] into an
    allocated struct. *)
Record ElasticClient : Type := {
  IndexExists : string -> Server -> (bool * option error) * Server;
  CreateIndex : string -> string -> Server -> option error * Server;
  PutMapping : string -> string -> string -> Server ->
               (option PutMappingResponse * option error) * Server;
  GetDoc : string -> string -> string -> Server ->
           (option GetResult * option error) * Server;
  IndexDoc : string -> string -> string -> any -> Server ->
             option error * Server;
  DeleteDoc : string -> string -> string -> Server ->
              (option DeleteResponse * option error) * Server;
  Unmarshal : bytes -> any -> any * option error
}.

(** The store, the server behind it, and the calls made on the client
    so far, oldest first.  The [context] field is constant and left
    out. *)
Record ElasticsearchKeyValueStore : Type := {
  witness : StructPtrWitness;
  client : ElasticClient;
  existingIndexes : list indexAndType;
  server : Server;
  requests : list Request
}.

(** A method of the store: it ends normally, with a value and the
    store it leaves, or in a panic. *)
Definition M (A : Type) : Type :=
  ElasticsearchKeyValueStore -> result (A * ElasticsearchKeyValueStore).

Definition ret {A : Type} (a : A) : M A := fun s => Ok (a, s).

Definition bind {A B : Type} (m : M A) (k : A -> M B) : M B :=
  fun s => match m s with
           | Ok (a, s') => k a s'
           | Fatal msg => Fatal msg
           | Panic msg => Panic msg
           end.

Definition panic {A : Type} (msg : string) : M A := fun _ => Panic msg.

(** Make the call [r] on the client: the client answers from the
    server's state and the call is on record. *)
Definition send {A : Type} (r : Request)
    (answer : ElasticClient -> Server -> A * Server) : M A :=
  fun s =>
    let '(a, srv) := answer (client s) (server s) in
    Ok (a, {| witness := witness s; client := client s;
              existingIndexes := existingIndexes s;
              server := srv; requests := requests s ++ [r] |}).

Definition appendExistingIndex (entry : indexAndType) : M unit :=
  fun s =>
    Ok (tt, {| witness := witness s; client := client s;
               existingIndexes := existingIndexes s ++ [entry];
               server := server s; requests := requests s |}).

Definition getWitness : M StructPtrWitness := fun s => Ok (witness s, s).

Definition getClient : M ElasticClient := fun s => Ok (client s, s).

Definition getExistingIndexes : M (list indexAndType) :=
  fun s => Ok (existingIndexes s, s).

#[local] Instance M_ret : MRet M := @ret.

#[local] Instance M_bind : MBind M := fun A B k m => bind m k.

Definition putMapping (indexName indexType : string) : M unit :=
  '(resp, err) ← send (PutMappingRequest indexName indexType indexMapping)
                       (fun c => PutMapping c indexName indexType indexMapping);
  match err, resp with
  | Some e, _ =>
      panic (String.append "Failed to put mapping for index: "
               (String.append indexName (String.append "/"
                  (String.append indexType (String.append ": " e)))))
  | None, None => panic "Expected put mapping response; got: <nil>"
  | None, Some resp =>
      if negb (Acknowledged resp)
      then panic "Expected put mapping ack; got: false"
      else ret tt
  end.

Definition checkOrCreateIndex (indexName indexType : string) : M unit :=
  existing ← getExistingIndexes;
  if existsb (fun existing =>
                String.eqb (kv.indexName existing) indexName &&
                String.eqb (kv.indexType existing) indexType) existing
  then ret tt
  else
    '(exists_, err) ← send (IndexExistsRequest indexName)
                            (fun c => IndexExists c indexName);
    match err with
    | Some e => panic (String.append "Failed to check if index exists: " e)
    | None =>
        (if negb exists_ then
           err ← send (CreateIndexRequest indexName indexSettings)
                       (fun c => CreateIndex c indexName indexSettings);
           match err with
           | Some e => panic (String.append "Failed to create index: " e)
           | None => putMapping indexName indexType
           end
         else ret tt) ;;
        appendExistingIndex {| kv.indexName := indexName;
                               kv.indexType := indexType |}
    end.

(** [fmt.Errorf("invalid key: '%s'", key)] *)
Definition invalidKey (key : string) : error :=
  String.append "invalid key: '" (String.append key "'").

(** [fmt.Sprintf("%s", err)] *)
Definition Sprintf_s (err : option error) : string :=
  match err with
  | Some e => e
  | None => "%!s(<nil>)"
  end.

Definition Get (key : string) : M (any * option error) :=
  match Split key "/" with
  | [indexName; indexType; valueID] =>
      checkOrCreateIndex indexName indexType ;;
      '(rawValue, err) ← send (GetRequest indexName indexType valueID)
                               (fun c => GetDoc c indexName indexType valueID);
      w ← getWitness;
      if String.eqb (Sprintf_s err) "elastic: Error 404 (Not Found)"
      then ret (Nil w, None)
      else
        match err with
        | Some e => ret (Nil w, Some e)
        | None =>
            match rawValue with
            | None => panic "runtime error: invalid memory address or nil pointer dereference"
            | Some rawValue =>
                if negb (Found rawValue) then ret (Nil w, None)
                else
                  let structPtr := Allocate w in
                  match Source rawValue with
                  | None =>
                      panic "runtime error: invalid memory address or nil pointer dereference"
                  | Some source =>
                      c ← getClient;
                      let '(structPtr, err) := Unmarshal c source structPtr in
                      match err with
                      | Some e => ret (Nil w, Some e)
                      | None => ret (structPtr, None)
                      end
                  end
            end
        end
  | _ => ret (AnyNil, Some (invalidKey key))
  end.

Definition Put (key : string) (structPtr : any) : M (option error) :=
  w ← getWitness;
  match Assert w structPtr with
  | Some msg => panic msg
  | None =>
      match Split key "/" with
      | [indexName; indexType; valueID] =>
          checkOrCreateIndex indexName indexType ;;
          err ← send (IndexRequest indexName indexType valueID structPtr)
                      (fun c => IndexDoc c indexName indexType valueID structPtr);
          ret err
      | _ => ret (Some (invalidKey key))
      end
  end.

Definition Delete (key : string) : M (option error) :=
  match Split key "/" with
  | [indexName; indexType; valueID] =>
      checkOrCreateIndex indexName indexType ;;
      '(response, err) ← send (DeleteRequest indexName indexType valueID)
                               (fun c => DeleteDoc c indexName indexType valueID);
      match response with
      | Some response =>
          if negb (deleteFound response) then ret None else ret err
      | None => ret err
      end
  | _ => ret (Some (invalidKey key))
  end.

End Store.

Arguments IndexExists {Server} _ _ _.
Arguments CreateIndex {Server} _ _ _ _.
Arguments PutMapping {Server} _ _ _ _ _.
Arguments GetDoc {Server} _ _ _ _ _.
Arguments IndexDoc {Server} _ _ _ _ _ _.
Arguments DeleteDoc {Server} _ _ _ _ _.
Arguments Unmarshal {Server} _ _ _.
Arguments witness {Server} _.
Arguments client {Server} _.
Arguments existingIndexes {Server} _.
Arguments server {Server} _.
Arguments requests {Server} _.
Arguments putMapping {Server} indexName indexType _.
Arguments checkOrCreateIndex {Server} indexName indexType _.
Arguments send {Server A} r answer _.
Arguments Get {Server} key _.
Arguments Put {Server} key structPtr _.
Arguments Delete {Server} key _.

(** A server with no documents: every index exists, every lookup is
    answered with a 404, and every write is accepted and forgotten. *)
Definition emptyClient : ElasticClient unit :=
  {| IndexExists := fun _ srv => ((true, None), srv);
     CreateIndex := fun _ _ srv => (None, srv);
     PutMapping := fun _ _ _ srv => ((Some {| Acknowledged := true |}, None), srv);
     GetDoc := fun _ _ _ srv => ((None, Some "elastic: Error 404 (Not Found)"), srv);
     IndexDoc := fun _ _ _ _ srv => (None, srv);
     DeleteDoc := fun _ _ _ srv => ((Some {| deleteFound := false |}, None), srv);
     Unmarshal := fun source structPtr => (AnyValue source, None) |}.

Definition emptyStore : ElasticsearchKeyValueStore unit :=
  {| witness := {| Assert := fun v => match v with
                                     | AnyNil => Some "Value must be a pointer type"
                                     | AnyValue _ => None
                                     end;
                   Nil := AnyValue "nil";
                   Allocate := AnyValue "" |};
     client := emptyClient;
     existingIndexes := [];
     server := tt;
     requests := [] |}.

End kv.

(* ===================================================================== *)
(** ** Notions the properties of the store are stated with *)
(* ===================================================================== *)

(** How often the byte [sep] occurs in [s]. *)
Fixpoint countByte (sep : ascii) (s : string) : nat :=
  match s with
  | EmptyString => 0
  | String c rest =>
      if Ascii.eqb c sep then S (countByte sep rest) else countByte sep rest
  end.

(** [strings.Join(parts, sep)] for a separator of one byte. *)
Fixpoint Join (parts : list string) (sep : ascii) : string :=
  match parts with
  | [] => EmptyString
  | part :: parts =>
      match parts with
      | [] => part
      | _ :: _ => String.append part (String sep (Join parts sep))
      end
  end.

(** The calls of an index check on a pair the store does not know,
    by the client's answer [exists_] to [IndexExists]: that call alone
    when the index exists, and [CreateIndex] and [PutMapping] after it
    when it does not. *)
Definition indexCheckRequests (indexName indexType : string) (exists_ : bool)
  : list kv.Request :=
  kv.IndexExistsRequest indexName ::
  (if exists_ then []
   else [kv.CreateIndexRequest indexName kv.indexSettings;
         kv.PutMappingRequest indexName indexType kv.indexMapping]).

(** Whether the index check knows the pair already. *)
Definition knownIndex (indexName indexType : string)
    (existing : list kv.indexAndType) : bool :=
  existsb (fun existing =>
             String.eqb (kv.indexName existing) indexName &&
             String.eqb (kv.indexType existing) indexType) existing.

(** The store after a document call: the server as the client left
    it, and the call on record. *)
Definition afterRequest {Server : Type} (s : kv.ElasticsearchKeyValueStore Server)
    (srv : Server) (r : kv.Request) : kv.ElasticsearchKeyValueStore Server :=
  {| kv.witness := kv.witness s; kv.client := kv.client s;
     kv.existingIndexes := kv.existingIndexes s;
     kv.server := srv; kv.requests := kv.requests s ++ [r] |}.

(** A client whose server holds one document, found under every key. *)
Definition oneDocumentClient : kv.ElasticClient unit :=
  {| kv.IndexExists := fun _ srv => ((true, None), srv);
     kv.CreateIndex := fun _ _ srv => (None, srv);
     kv.PutMapping := fun _ _ _ srv => ((Some {| kv.Acknowledged := true |}, None), srv);
     kv.GetDoc := fun _ _ _ srv =>
       ((Some {| kv.Found := true; kv.Source := Some "{total: 7}" |}, None), srv);
     kv.IndexDoc := fun _ _ _ _ srv => (None, srv);
     kv.DeleteDoc := fun _ _ _ srv =>
       ((Some {| kv.deleteFound := false |}, Some "elastic: Error 404 (Not Found)"), srv);
     kv.Unmarshal := fun source structPtr => (AnyValue source, None) |}.

Definition oneDocumentStore : kv.ElasticsearchKeyValueStore unit :=
  {| kv.witness := kv.witness kv.emptyStore;
     kv.client := oneDocumentClient;
     kv.existingIndexes := [];
     kv.server := tt;
     kv.requests := [] |}.

(** The text of [elastic.Error] for a response of status 404 that
    carries no details; [Get] compares the client's error with it. *)
Definition notFoundText : string := "elastic: Error 404 (Not Found)".

(** Whether the client's error is one for a response of status 404:
    [elastic.Error] reads [notFoundText], followed by a colon, the
    reason and the type when the response carries details. *)
Definition isNotFound (e : kv.error) : bool := String.prefix notFoundText e.

(** A client whose server has no index: [IndexExists] answers that the
    index does not exist, and a lookup or a removal is answered with
    the 404 error of a missing index, which carries details. *)
Definition missingIndexClient : kv.ElasticClient unit :=
  {| kv.IndexExists := fun _ srv => ((false, None), srv);
     kv.CreateIndex := fun _ _ srv => (None, srv);
     kv.PutMapping := fun _ _ _ srv => ((Some {| kv.Acknowledged := true |}, None), srv);
     kv.GetDoc := fun _ _ _ srv =>
       ((None,
         Some "elastic: Error 404 (Not Found): no such index [type=index_not_found_exception]"),
        srv);
     kv.IndexDoc := fun _ _ _ _ srv => (None, srv);
     kv.DeleteDoc := fun _ _ _ srv =>
       ((None,
         Some "elastic: Error 404 (Not Found): no such index [type=index_not_found_exception]"),
        srv);
     kv.Unmarshal := fun source structPtr => (AnyValue source, None) |}.

(** A store on that client that knows no pair yet. *)
Definition missingIndexStore : kv.ElasticsearchKeyValueStore unit :=
  {| kv.witness := kv.witness kv.emptyStore;
     kv.client := missingIndexClient;
     kv.existingIndexes := [];
     kv.server := tt;
     kv.requests := [] |}.

(** A store that checked "shop"/"orders" before the server lost the
    index. *)
Definition staleStore : kv.ElasticsearchKeyValueStore unit :=
  {| kv.witness := kv.witness kv.emptyStore;
     kv.client := missingIndexClient;
     kv.existingIndexes :=
       [ {| kv.indexName := "shop"; kv.indexType := "orders" |} ];
     kv.server := tt;
     kv.requests := [kv.IndexExistsRequest "shop"] |}.

(* ===================================================================== *)
(** ** The key-value store: operations on many documents *)
(* ===================================================================== *)

Module kvAll.

(** [Entry]: a key and its value, as [GetAll] builds them and [PutAll]
    reads them. *)
Record Entry : Type := {
  Key : string;
  Value : any
}.

(** One document of a multi-get request, and of a bulk request. *)
Definition getItem : Type := string * string * string.
Definition bulkItem : Type := string * string * string * any.

(** The requests for many documents. *)
Inductive ManyRequest : Type :=
| MultiGetRequest (items : list getItem)
| BulkRequest (items : list bulkItem).

Section Store.

Variable Server : Type.

(** The multi-document services of [elastic.Client], by their answers;
    a multi-get response is its list of documents. *)
Record ManyClient : Type := {
  MultiGet : list getItem -> Server ->
             (option (list (option kv.GetResult)) * option kv.error) * Server;
  Bulk : list bulkItem -> Server -> option kv.error * Server
}.

(** The store with these services, and the multi-document requests sent
    so far, oldest first. *)
Record Store : Type := {
  single : kv.ElasticsearchKeyValueStore Server;
  manyClient : ManyClient;
  manyRequests : list ManyRequest
}.

Definition M (A : Type) : Type := Store -> result (A * Store).

Definition ret {A : Type} (a : A) : M A := fun st => Ok (a, st).

Definition bind {A B : Type} (m : M A) (k : A -> M B) : M B :=
  fun st => match m st with
            | Ok (a, st') => k a st'
            | Fatal msg => Fatal msg
            | Panic msg => Panic msg
            end.

Definition panic {A : Type} (msg : string) : M A := fun _ => Panic msg.

(** A method of the single-document store, run on the store. *)
Definition lift {A : Type} (m : kv.M Server A) : M A :=
  fun st => match m (single st) with
            | Ok (a, s) =>
                Ok (a, {| single := s; manyClient := manyClient st;
                          manyRequests := manyRequests st |})
            | Fatal msg => Fatal msg
            | Panic msg => Panic msg
            end.

(** Send [r]: the client answers from the server's state and the request
    is on record. *)
Definition sendMany {A : Type} (r : ManyRequest)
    (answer : ManyClient -> Server -> A * Server) : M A :=
  fun st =>
    let '(a, srv) := answer (manyClient st) (kv.server (single st)) in
    Ok (a, {| single := {| kv.witness := kv.witness (single st);
                           kv.client := kv.client (single st);
                           kv.existingIndexes := kv.existingIndexes (single st);
                           kv.server := srv;
                           kv.requests := kv.requests (single st) |};
              manyClient := manyClient st;
              manyRequests := manyRequests st ++ [r] |}).

#[local] Instance M_ret : MRet M := @ret.

#[local] Instance M_bind : MBind M := fun A B k m => bind m k.

(** The first loop of [GetAll]: check each key, check its index, add its
    item. *)
Fixpoint addGetItems (keys : list string) (items : list getItem)
  : M (list getItem + kv.error) :=
  match keys with
  | [] => ret (inl items)
  | key :: keys =>
      match kv.Split key "/" with
      | [indexName; indexType; valueID] =>
          lift (kv.checkOrCreateIndex indexName indexType) ;;
          addGetItems keys (items ++ [(indexName, indexType, valueID)])
      | _ => ret (inr (kv.invalidKey key))
      end
  end.

(** The value for one document of the response: the witness's nil value
    when it was not found, the unmarshalled struct otherwise, or the
    error of unmarshalling. *)
Definition decode (w : kv.StructPtrWitness) (c : kv.ElasticClient Server)
    (doc : kv.GetResult) : result (any + kv.error) :=
  if negb (kv.Found doc) then Ok (inl (kv.Nil w))
  else
    match kv.Source doc with
    | None => Panic "runtime error: invalid memory address or nil pointer dereference"
    | Some source =>
        let '(structPtr, err) := kv.Unmarshal c source (kv.Allocate w) in
        match err with
        | Some e => Ok (inr e)
        | None => Ok (inl structPtr)
        end
    end.

(** The second loop of [GetAll], over [response.Docs] from index [i]
    on. *)
Fixpoint fillEntries (w : kv.StructPtrWitness) (c : kv.ElasticClient Server)
    (keys : list string) (i : nat) (docs : list (option kv.GetResult))
    (entries : list (option Entry))
  : result (option (list (option Entry)) * option kv.error) :=
  match docs with
  | [] => Ok (Some entries, None)
  | None :: _ => Panic "runtime error: invalid memory address or nil pointer dereference"
  | Some doc :: docs =>
      structPtr ← decode w c doc;
      match structPtr with
      | inr e => Ok (None, Some e)
      | inl structPtr =>
          match keys !! i with
          | None => Panic "runtime error: index out of range"
          | Some key =>
              fillEntries w c keys (S i) docs
                (<[i := Some {| Key := key; Value := structPtr |}]> entries)
          end
      end
  end.

Definition GetAll (keys : list string)
  : M (option (list (option Entry)) * option kv.error) :=
  items ← addGetItems keys [];
  match items with
  | inr e => ret (None, Some e)
  | inl items =>
      '(response, err) ← sendMany (MultiGetRequest items)
                                  (fun c => MultiGet c items);
      match err with
      | Some e => ret (None, Some e)
      | None =>
          match response with
          | None => panic "runtime error: invalid memory address or nil pointer dereference"
          | Some docs =>
              fun st =>
                r ← fillEntries (kv.witness (single st)) (kv.client (single st))
                                keys 0 docs (replicate (length keys) None);
                Ok (r, st)
          end
      end
  end.

(** The loop of [PutAll]: check each key, assert its value, check its
    index, add its item.  An entry is [None] for a nil pointer. *)
Fixpoint addBulkItems (entries : list (option Entry)) (items : list bulkItem)
  : M (list bulkItem + kv.error) :=
  match entries with
  | [] => ret (inl items)
  | None :: _ => panic "runtime error: invalid memory address or nil pointer dereference"
  | Some entry :: entries =>
      match kv.Split (Key entry) "/" with
      | [indexName; indexType; valueID] =>
          fun st =>
            match kv.Assert (kv.witness (single st)) (Value entry) with
            | Some msg => Panic msg
            | None =>
                (lift (kv.checkOrCreateIndex indexName indexType) ;;
                 addBulkItems entries
                   (items ++ [(indexName, indexType, valueID, Value entry)])) st
            end
      | _ => ret (inr (kv.invalidKey (Key entry)))
      end
  end.

Definition PutAll (entries : list (option Entry)) : M (option kv.error) :=
  if (length entries =? 0)%nat then ret None
  else
    items ← addBulkItems entries [];
    match items with
    | inr e => ret (Some e)
    | inl items =>
        err ← sendMany (BulkRequest items) (fun c => Bulk c items);
        ret err
    end.

End Store.

Arguments MultiGet {Server} _ _ _.
Arguments Bulk {Server} _ _ _.
Arguments single {Server} _.
Arguments manyClient {Server} _.
Arguments manyRequests {Server} _.
Arguments ret {Server A} a _.
Arguments bind {Server A B} m k _.
Arguments panic {Server A} msg _.
Arguments lift {Server A} m _.
Arguments sendMany {Server A} r answer _.
Arguments addGetItems {Server} keys items _.
Arguments decode {Server} w c doc.
Arguments fillEntries {Server} w c keys i docs entries.
Arguments GetAll {Server} keys _.
Arguments addBulkItems {Server} entries items _.
Arguments PutAll {Server} entries _.

(** The store [kv.emptyStore] with a multi-get that answers one found
    document per item and a bulk service that accepts everything. *)
Definition sampleStore : Store unit :=
  {| single := kv.emptyStore;
     manyClient :=
       {| MultiGet := fun items srv =>
            ((Some (map (fun _ => Some {| kv.Found := true;
                                          kv.Source := Some "{total: 7}" |}) items),
              None), srv);
          Bulk := fun _ srv => (None, srv) |};
     manyRequests := [] |}.

(** [sampleStore] after an index check of "shop"/"orders". *)
Definition checkedStore : Store unit :=
  {| single :=
       {| kv.witness := kv.witness kv.emptyStore;
          kv.client := kv.emptyClient;
          kv.existingIndexes :=
            [ {| kv.indexName := "shop"; kv.indexType := "orders" |} ];
          kv.server := tt;
          kv.requests := [kv.IndexExistsRequest "shop"] |};
     manyClient := manyClient sampleStore;
     manyRequests := [] |}.

(** A key of three parts. *)
Definition validKey (key : string) : Prop := length (kv.Split key "/") = 3%nat.

(** The item [GetAll] adds for a key. *)
Definition getItemOf (key : string) (item : getItem) : Prop :=
  kv.Split key "/" = [item.1.1; item.1.2; item.2].

(** The item [PutAll] adds for an entry. *)
Definition bulkItemOf (entry : option Entry) (item : bulkItem) : Prop :=
  exists e : Entry,
    entry = Some e /\
    kv.Split (Key e) "/" = [item.1.1.1; item.1.1.2; item.1.2] /\
    item.2 = Value e.

(** A key of three parts whose index and type the store knows
    already. *)
Definition knownKey {Server : Type} (s : kv.ElasticsearchKeyValueStore Server)
    (key : string) : Prop :=
  exists indexName indexType valueID : string,
    kv.Split key "/" = [indexName; indexType; valueID] /\
    knownIndex indexName indexType (kv.existingIndexes s) = true.

(** [st'] is [st] after index checks: the same witness and clients, the
    same multi-document requests on record, and the known indexes of
    [st] still known. *)
Definition indexChecked {Server : Type} (st st' : Store Server) : Prop :=
  manyClient st' = manyClient st /\
  manyRequests st' = manyRequests st /\
  kv.witness (single st') = kv.witness (single st) /\
  kv.client (single st') = kv.client (single st) /\
  kv.existingIndexes (single st) `prefix_of` kv.existingIndexes (single st').

(** The entry [GetAll] builds for the document [doc] under [key]. *)
Definition entryOf {Server : Type} (st : Store Server) (key : string)
    (doc : option kv.GetResult) (entry : option Entry) : Prop :=
  exists (d : kv.GetResult) (value : any),
    doc = Some d /\
    decode (kv.witness (single st)) (kv.client (single st)) d = Ok (inl value) /\
    entry = Some {| Key := key; Value := value |}.

(** An entry with a key of three parts. *)
Definition validEntry (entry : option Entry) : Prop :=
  exists e : Entry, entry = Some e /\ validKey (Key e).

(** An entry [PutAll] passes without a request: its index and type are
    known and the witness lets its value pass. *)
Definition readyEntry {Server : Type} (st : Store Server)
    (entry : option Entry) : Prop :=
  exists e : Entry,
    entry = Some e /\
    knownKey (single st) (Key e) /\
    kv.Assert (kv.witness (single st)) (Value e) = None.

End kvAll.

(* ===================================================================== *)
(** ** Machine integers *)
(* ===================================================================== *)

Lemma wrap_small (w z : Z) :
  0 < w -> - 2 ^ (w - 1) <= z < 2 ^ (w - 1) -> Int.wrap w z = z.
Proof.
  intros Hw Hz. unfold Int.wrap.
  assert (Hp : 2 ^ w = 2 * 2 ^ (w - 1)).
  { replace w with (Z.succ (w - 1)) at 1 by lia.
    rewrite Z.pow_succ_r by lia. reflexivity. }
  rewrite Z.mod_small by lia. lia.
Qed.

Lemma add64_small (a b : Z) :
  - 2 ^ 63 <= a + b < 2 ^ 63 -> Int.add64 a b = a + b.
Proof.
  intros H. unfold Int.add64, Int.int64. apply wrap_small; [lia | exact H].
Qed.

(* ===================================================================== *)
(** ** Reading and writing the in-flight queues *)
(* ===================================================================== *)

Lemma queue_set_queue_eq (topic : string) (q : list inFlightMessageGroup)
    (pp : partitionProcessor) :
  queue (set_queue topic q pp) topic = q.
Proof. unfold queue, set_queue. simpl. by rewrite lookup_insert_eq. Qed.

Lemma queue_set_queue_ne (topic topic' : string) (q : list inFlightMessageGroup)
    (pp : partitionProcessor) :
  topic ≠ topic' -> queue (set_queue topic q pp) topic' = queue pp topic'.
Proof. intros Hne. unfold queue, set_queue. simpl. by rewrite lookup_insert_ne. Qed.

Lemma sameButQueues_refl (pp : partitionProcessor) : sameButQueues pp pp.
Proof. by destruct pp. Qed.

Lemma sameButQueues_trans (pp1 pp2 pp3 : partitionProcessor) :
  sameButQueues pp1 pp2 -> sameButQueues pp2 pp3 -> sameButQueues pp1 pp3.
Proof.
  unfold sameButQueues. intros H12 H23. rewrite H23 at 1. rewrite H12. reflexivity.
Qed.

Lemma sameButQueues_set_queue (topic : string) (q : list inFlightMessageGroup)
    (pp : partitionProcessor) :
  sameButQueues pp (set_queue topic q pp).
Proof. reflexivity. Qed.

Lemma sameButQueues_topicProcessor (pp pp' : partitionProcessor) :
  sameButQueues pp pp' -> topicProcessor pp' = topicProcessor pp.
Proof. intros ->. reflexivity. Qed.

Lemma sameButQueues_offsetManagers (pp pp' : partitionProcessor) :
  sameButQueues pp pp' -> offsetManagers pp' = offsetManagers pp.
Proof. intros ->. reflexivity. Qed.

(* ===================================================================== *)
(** ** The interior prune *)
(* ===================================================================== *)

(** The loop equation of the source: test [len > 1], read the two head
    groups, break or drop the head and go round again. *)
Lemma pruneInFlightMessageGroupsForTopic_unfold (pp : partitionProcessor)
    (topic : string) :
  pruneInFlightMessageGroupsForTopic pp topic =
  if bool_decide (1 < length (queue pp topic))%nat then
    match queue pp topic !! 0%nat, queue pp topic !! 1%nat with
    | Some headGroup, Some nextGroup =>
        if negb (allAcksAreTrue headGroup) || negb (allAcksAreTrue nextGroup)
        then pp
        else pruneInFlightMessageGroupsForTopic
               (set_queue topic (drop 1 (queue pp topic)) pp) topic
    | _, _ => pp
    end
  else pp.
Proof.
  unfold pruneInFlightMessageGroupsForTopic at 1.
  destruct (queue pp topic) as [|h [|n rest]] eqn:Hq; simpl; try reflexivity.
  destruct (negb (allAcksAreTrue h) || negb (allAcksAreTrue n)); [reflexivity|].
  unfold pruneInFlightMessageGroupsForTopic.
  rewrite queue_set_queue_eq. reflexivity.
Qed.

Lemma pruned_length (q : list inFlightMessageGroup) :
  (length (pruned q) <= length q)%nat.
Proof.
  induction q as [|h rest IH]; [simpl; lia|].
  destruct rest as [|n rest']; [simpl; lia|].
  change (pruned (h :: n :: rest')) with
    (if negb (allAcksAreTrue h) || negb (allAcksAreTrue n)
     then h :: n :: rest' else pruned (n :: rest')).
  destruct (negb (allAcksAreTrue h) || negb (allAcksAreTrue n)); simpl in *; lia.
Qed.

Lemma pruned_stops (q : list inFlightMessageGroup) (g0 g1 : inFlightMessageGroup) :
  pruned q !! 0%nat = Some g0 -> pruned q !! 1%nat = Some g1 ->
  allAcksAreTrue g0 && allAcksAreTrue g1 = false.
Proof.
  induction q as [|h rest IH]; [done|].
  destruct rest as [|n rest']; [done|].
  change (pruned (h :: n :: rest')) with
    (if negb (allAcksAreTrue h) || negb (allAcksAreTrue n)
     then h :: n :: rest' else pruned (n :: rest')).
  destruct (negb (allAcksAreTrue h) || negb (allAcksAreTrue n)) eqn:Hb.
  - simpl. intros [= <-] [= <-].
    destruct (allAcksAreTrue h), (allAcksAreTrue n); done.
  - exact IH.
Qed.

Lemma pruned_idem (q : list inFlightMessageGroup) : pruned (pruned q) = pruned q.
Proof.
  induction q as [|h rest IH]; [done|].
  destruct rest as [|n rest']; [done|].
  change (pruned (h :: n :: rest')) with
    (if negb (allAcksAreTrue h) || negb (allAcksAreTrue n)
     then h :: n :: rest' else pruned (n :: rest')).
  destruct (negb (allAcksAreTrue h) || negb (allAcksAreTrue n)) eqn:Hb; [|exact IH].
  simpl. rewrite Hb. reflexivity.
Qed.

Lemma pruned_nonempty (q : list inFlightMessageGroup) : q ≠ [] -> pruned q ≠ [].
Proof.
  induction q as [|h rest IH]; [done|].
  destruct rest as [|n rest']; [done|]. intros _.
  change (pruned (h :: n :: rest')) with
    (if negb (allAcksAreTrue h) || negb (allAcksAreTrue n)
     then h :: n :: rest' else pruned (n :: rest')).
  destruct (negb (allAcksAreTrue h) || negb (allAcksAreTrue n)); [done|].
  by apply IH.
Qed.

(** The groups the prune removes: a prefix, each of whose members was
    complete and followed by a complete group. *)
Lemma pruned_drop (q : list inFlightMessageGroup) :
  exists k : nat,
    pruned q = drop k q /\
    forall (i : nat) (g : inFlightMessageGroup),
      (i < k)%nat -> q !! i = Some g ->
      allAcksAreTrue g = true /\
      exists g', q !! S i = Some g' /\ allAcksAreTrue g' = true.
Proof.
  induction q as [|h rest IH].
  { exists 0%nat. split; [done|]. intros i g Hi. lia. }
  destruct rest as [|n rest'].
  { exists 0%nat. split; [done|]. intros i g Hi. lia. }
  change (pruned (h :: n :: rest')) with
    (if negb (allAcksAreTrue h) || negb (allAcksAreTrue n)
     then h :: n :: rest' else pruned (n :: rest')).
  destruct (negb (allAcksAreTrue h) || negb (allAcksAreTrue n)) eqn:Hb.
  { exists 0%nat. split; [done|]. intros i g Hi. lia. }
  apply orb_false_elim in Hb as [Hh Hn].
  apply negb_false_iff in Hh, Hn.
  destruct IH as (k & Hk & Hpre).
  exists (S k). split; [exact Hk|].
  intros [|i] g Hi Hg.
  - simpl in Hg. injection Hg as <-. split; [exact Hh|].
    exists n. split; [done|exact Hn].
  - simpl in Hg. apply (Hpre i g); [lia|exact Hg].
Qed.

Lemma pruneLoop_sameButQueues (topic : string) (q : list inFlightMessageGroup)
    (pp : partitionProcessor) :
  sameButQueues pp (pruneLoop topic q pp).
Proof.
  revert pp. induction q as [|h rest IH]; intros pp; [apply sameButQueues_refl|].
  destruct rest as [|n rest']; [apply sameButQueues_refl|].
  change (pruneLoop topic (h :: n :: rest') pp) with
    (if negb (allAcksAreTrue h) || negb (allAcksAreTrue n)
     then pp else pruneLoop topic (n :: rest') (set_queue topic (n :: rest') pp)).
  destruct (negb (allAcksAreTrue h) || negb (allAcksAreTrue n));
    [apply sameButQueues_refl|].
  eapply sameButQueues_trans; [apply sameButQueues_set_queue | apply IH].
Qed.

Lemma pruneLoop_queue_eq (topic : string) (q : list inFlightMessageGroup)
    (pp : partitionProcessor) :
  queue pp topic = q -> queue (pruneLoop topic q pp) topic = pruned q.
Proof.
  revert pp. induction q as [|h rest IH]; intros pp Hq; [exact Hq|].
  destruct rest as [|n rest']; [exact Hq|].
  change (pruneLoop topic (h :: n :: rest') pp) with
    (if negb (allAcksAreTrue h) || negb (allAcksAreTrue n)
     then pp else pruneLoop topic (n :: rest') (set_queue topic (n :: rest') pp)).
  change (pruned (h :: n :: rest')) with
    (if negb (allAcksAreTrue h) || negb (allAcksAreTrue n)
     then h :: n :: rest' else pruned (n :: rest')).
  destruct (negb (allAcksAreTrue h) || negb (allAcksAreTrue n)); [exact Hq|].
  apply IH. apply queue_set_queue_eq.
Qed.

Lemma pruneLoop_queue_ne (topic topic' : string) (q : list inFlightMessageGroup)
    (pp : partitionProcessor) :
  topic ≠ topic' -> queue (pruneLoop topic q pp) topic' = queue pp topic'.
Proof.
  intros Hne. revert pp. induction q as [|h rest IH]; intros pp; [done|].
  destruct rest as [|n rest']; [done|].
  change (pruneLoop topic (h :: n :: rest') pp) with
    (if negb (allAcksAreTrue h) || negb (allAcksAreTrue n)
     then pp else pruneLoop topic (n :: rest') (set_queue topic (n :: rest') pp)).
  destruct (negb (allAcksAreTrue h) || negb (allAcksAreTrue n)); [done|].
  rewrite IH. by apply queue_set_queue_ne.
Qed.

(** On a queue the prune leaves alone, the loop does not write at all. *)
Lemma pruneLoop_fixed (topic : string) (q : list inFlightMessageGroup)
    (pp : partitionProcessor) :
  pruned q = q -> pruneLoop topic q pp = pp.
Proof.
  destruct q as [|h [|n rest']]; [done..|].
  change (pruneLoop topic (h :: n :: rest') pp) with
    (if negb (allAcksAreTrue h) || negb (allAcksAreTrue n)
     then pp else pruneLoop topic (n :: rest') (set_queue topic (n :: rest') pp)).
  change (pruned (h :: n :: rest')) with
    (if negb (allAcksAreTrue h) || negb (allAcksAreTrue n)
     then h :: n :: rest' else pruned (n :: rest')).
  destruct (negb (allAcksAreTrue h) || negb (allAcksAreTrue n)); [done|].
  intros Heq. pose proof (pruned_length (n :: rest')) as Hlen.
  rewrite Heq in Hlen. simpl in Hlen. lia.
Qed.

Lemma prune_topics_sameButQueues (topics : list string) (pp : partitionProcessor) :
  sameButQueues pp (fold_left pruneInFlightMessageGroupsForTopic topics pp).
Proof.
  revert pp. induction topics as [|topic topics IH]; intros pp;
    [apply sameButQueues_refl|].
  simpl. eapply sameButQueues_trans; [|apply IH].
  apply pruneLoop_sameButQueues.
Qed.

Lemma prune_topics_queue (topics : list string) (pp : partitionProcessor)
    (t : string) :
  queue (fold_left pruneInFlightMessageGroupsForTopic topics pp) t =
  if decide (t ∈ topics) then pruned (queue pp t) else queue pp t.
Proof.
  revert pp. induction topics as [|topic topics IH]; intros pp.
  { rewrite decide_False by apply not_elem_of_nil. reflexivity. }
  simpl. rewrite IH. unfold pruneInFlightMessageGroupsForTopic.
  destruct (decide (topic = t)) as [->|Hne].
  - rewrite pruneLoop_queue_eq by reflexivity.
    rewrite (decide_True (P := t ∈ t :: topics)) by apply list_elem_of_here.
    case_decide; [apply pruned_idem | reflexivity].
  - rewrite pruneLoop_queue_ne by exact Hne.
    destruct (decide (t ∈ topics)) as [Hin|Hnin].
    + rewrite decide_True; [done | by apply list_elem_of_further].
    + rewrite decide_False; [done|].
      intros [Heq|Hin]%elem_of_cons; [by subst | done].
Qed.

Lemma prune_topics_fixed (topics : list string) (pp : partitionProcessor) :
  (forall t, t ∈ topics -> pruned (queue pp t) = queue pp t) ->
  fold_left pruneInFlightMessageGroupsForTopic topics pp = pp.
Proof.
  induction topics as [|topic topics IH]; intros Hfix; [done|].
  simpl. unfold pruneInFlightMessageGroupsForTopic at 2.
  rewrite pruneLoop_fixed by (apply Hfix, list_elem_of_here).
  apply IH. intros t Ht. by apply Hfix, list_elem_of_further.
Qed.

(* ===================================================================== *)
(** ** The offset-advancing prune *)
(* ===================================================================== *)

Lemma completedPrefix_app (q : list inFlightMessageGroup) :
  q = completedPrefix q ++ afterCompletedPrefix q.
Proof.
  induction q as [|g rest IH]; [done|]. simpl.
  destruct (allAcksAreTrue g); [|done]. simpl. by rewrite <- IH.
Qed.

Lemma completedPrefix_complete (q : list inFlightMessageGroup)
    (g : inFlightMessageGroup) :
  g ∈ completedPrefix q -> allAcksAreTrue g = true.
Proof.
  induction q as [|h rest IH]; simpl; [by intros ?%elem_of_nil|].
  destruct (allAcksAreTrue h) eqn:Hh; [|by intros ?%elem_of_nil].
  intros [->|Hin]%elem_of_cons; [exact Hh | by apply IH].
Qed.

Lemma afterCompletedPrefix_head (q : list inFlightMessageGroup) :
  afterCompletedPrefix q = [] \/
  exists g rest, afterCompletedPrefix q = g :: rest /\ allAcksAreTrue g = false.
Proof.
  induction q as [|h rest IH]; [by left|]. simpl.
  destruct (allAcksAreTrue h) eqn:Hh; [exact IH|].
  right. by exists h, rest.
Qed.

Lemma completedPrefix_after (q : list inFlightMessageGroup) :
  completedPrefix (afterCompletedPrefix q) = [].
Proof.
  destruct (afterCompletedPrefix_head q) as [->|(g & rest & -> & Hg)]; [done|].
  simpl. by rewrite Hg.
Qed.

Lemma afterCompletedPrefix_idem (q : list inFlightMessageGroup) :
  afterCompletedPrefix (afterCompletedPrefix q) = afterCompletedPrefix q.
Proof.
  destruct (afterCompletedPrefix_head q) as [->|(g & rest & -> & Hg)]; [done|].
  simpl. by rewrite Hg.
Qed.

Lemma topicMarks_after (config : TopicProcessorConfig)
    (q : list inFlightMessageGroup) :
  topicMarks config (afterCompletedPrefix q) = [].
Proof.
  unfold topicMarks. rewrite completedPrefix_after.
  by destruct (commitDiscipline config).
Qed.

(** An incomplete group has an in-flight message still waiting for its
    acknowledgement. *)
Lemma incomplete_has_unacked (g : inFlightMessageGroup) :
  allAcksAreTrue g = false ->
  exists m : inFlightMessage, m ∈ inFlightMessages g /\ ack m = false.
Proof.
  unfold allAcksAreTrue. induction (inFlightMessages g) as [|m ms IH]; [done|].
  simpl. destruct (ack m) eqn:Hm.
  - intros H. destruct (IH H) as (m' & Hin & Hack).
    exists m'. split; [by apply list_elem_of_further | exact Hack].
  - intros _. exists m. split; [apply list_elem_of_here | exact Hm].
Qed.

(** The effect of one [MarkOffset] on a managed topic. *)
Lemma MarkOffset_managed (topic : string) (offset : Z) (metadata : string)
    (pp : partitionProcessor) :
  is_Some (offsetManagers pp !! topic) ->
  exists pp',
    MarkOffset topic offset metadata pp = Ok pp' /\
    inFlightMessageGroups pp' = inFlightMessageGroups pp /\
    topicProcessor pp' = topicProcessor pp /\
    marksOf pp' topic = marksOf pp topic ++ [(offset, metadata)] /\
    (forall t, topic ≠ t -> marksOf pp' t = marksOf pp t) /\
    (forall t, is_Some (offsetManagers pp !! t) -> is_Some (offsetManagers pp' !! t)).
Proof.
  intros [pom Hpom]. unfold MarkOffset. rewrite Hpom.
  eexists. split; [reflexivity|]. unfold marksOf. simpl.
  split; [done|]. split; [done|].
  rewrite lookup_insert_eq, Hpom. split; [done|]. split.
  - intros t Hne. by rewrite lookup_insert_ne.
  - intros t Ht. destruct (decide (topic = t)) as [->|Hne].
    + rewrite lookup_insert_eq. by eexists.
    + by rewrite lookup_insert_ne.
Qed.

(** The loop equation of the source: test [len > 0], read the head
    group, break or record its offset, mark it if told to, drop it and
    go round again. *)
Lemma markLoop_unfold (topic : string) (offset : Z) (pp : partitionProcessor) :
  markLoop topic (queue pp topic) offset pp =
  if bool_decide (0 < length (queue pp topic))%nat then
    match queue pp topic !! 0%nat with
    | Some group =>
        if negb (allAcksAreTrue group) then Ok (pp, offset)
        else
          let offset := Offset (pointee (incomingMessage group)) in
          pp1 ← (if committed group && markOffsetsManually (config (topicProcessor pp))
                 then MarkOffset topic (Int.add64 offset 1) "" pp
                 else Ok pp);
          let pp2 := set_queue topic (drop 1 (queue pp1 topic)) pp1 in
          markLoop topic (queue pp2 topic) offset pp2
    | None => Ok (pp, offset)
    end
  else Ok (pp, offset).
Proof.
  destruct (queue pp topic) as [|g rest] eqn:Hq; [reflexivity|]. simpl.
  destruct (allAcksAreTrue g); [|reflexivity]. simpl.
  destruct (committed g && markOffsetsManually (config (topicProcessor pp))).
  - unfold MarkOffset. destruct (offsetManagers pp !! topic) as [pom|]; [|reflexivity].
    simpl. rewrite queue_set_queue_eq.
    unfold queue at 1 2. simpl. fold (queue pp topic). by rewrite Hq.
  - simpl. by rewrite queue_set_queue_eq, Hq.
Qed.

Lemma marksOnly_refl (topic : string) (pp : partitionProcessor) :
  marksOnly topic [] pp pp.
Proof. unfold marksOnly. rewrite app_nil_r. done. Qed.

Lemma marksOnly_trans (topic : string) (n1 n2 : list (Z * string))
    (pp1 pp2 pp3 : partitionProcessor) :
  marksOnly topic n1 pp1 pp2 -> marksOnly topic n2 pp2 pp3 ->
  marksOnly topic (n1 ++ n2) pp1 pp3.
Proof.
  intros (Htp1 & Hm1 & Ho1 & Hs1) (Htp2 & Hm2 & Ho2 & Hs2).
  split; [congruence|]. split; [by rewrite Hm2, Hm1, app_assoc|]. split.
  - intros t Hne. destruct (Ho1 t Hne), (Ho2 t Hne). split; congruence.
  - intros t Ht. by apply Hs2, Hs1.
Qed.

Lemma marksOnly_set_queue (topic : string) (q : list inFlightMessageGroup)
    (pp : partitionProcessor) :
  marksOnly topic [] pp (set_queue topic q pp).
Proof.
  unfold marksOnly. rewrite app_nil_r. split; [done|]. split; [done|].
  split; [|done]. intros t Hne. split; [by apply queue_set_queue_ne | done].
Qed.

Lemma marksOnly_MarkOffset (topic : string) (offset : Z) (metadata : string)
    (pp : partitionProcessor) :
  is_Some (offsetManagers pp !! topic) ->
  exists pp',
    MarkOffset topic offset metadata pp = Ok pp' /\
    queue pp' topic = queue pp topic /\
    marksOnly topic [(offset, metadata)] pp pp'.
Proof.
  intros Hs.
  destruct (MarkOffset_managed topic offset metadata pp Hs)
    as (pp' & Heq & Hq & Htp & Hm & Ho & Hp).
  exists pp'. split; [exact Heq|]. unfold queue. rewrite Hq. split; [done|].
  split; [exact Htp|]. split; [exact Hm|]. split; [|exact Hp].
  intros t Hne. split; [unfold queue; by rewrite Hq | by apply Ho].
Qed.

Lemma MarkOffset_Ok_managed (topic : string) (offset : Z) (metadata : string)
    (pp pp' : partitionProcessor) :
  MarkOffset topic offset metadata pp = Ok pp' ->
  is_Some (offsetManagers pp !! topic).
Proof.
  unfold MarkOffset. destruct (offsetManagers pp !! topic); [by eexists | done].
Qed.

Lemma MarkOffset_Ok (topic : string) (offset : Z) (metadata : string)
    (pp pp' : partitionProcessor) :
  MarkOffset topic offset metadata pp = Ok pp' ->
  queue pp' topic = queue pp topic /\
  marksOnly topic [(offset, metadata)] pp pp'.
Proof.
  intros Heq.
  destruct (marksOnly_MarkOffset topic offset metadata pp
              (MarkOffset_Ok_managed _ _ _ _ _ Heq)) as (pp1 & Heq1 & Hq & Hfr).
  rewrite Heq in Heq1. injection Heq1 as <-. by split.
Qed.

(** What the loop has done when it is left: [offset] is the offset of
    the last group of the completed prefix (or untouched), the queue has
    lost that prefix, and the calls made are those of [loopMarks]. *)
Lemma markLoop_Ok (topic : string) (q : list inFlightMessageGroup) :
  forall (offset offset' : Z) (pp pp' : partitionProcessor),
    queue pp topic = q ->
    markLoop topic q offset pp = Ok (pp', offset') ->
    offset' = from_option offsetOf offset (last (completedPrefix q)) /\
    queue pp' topic = afterCompletedPrefix q /\
    marksOnly topic (loopMarks (config (topicProcessor pp)) q) pp pp'.
Proof.
  induction q as [|g rest IH]; intros offset offset' pp pp' Hq Hrun.
  { injection Hrun as <- <-. split; [done|]. split; [done|]. unfold loopMarks.
    destruct (markOffsetsManually _); apply marksOnly_refl. }
  simpl in Hrun. destruct (allAcksAreTrue g) eqn:Hg; simpl in Hrun.
  2:{ injection Hrun as <- <-. simpl. rewrite Hg. split; [done|]. split; [done|].
      unfold loopMarks. simpl. rewrite Hg.
      destruct (markOffsetsManually _); apply marksOnly_refl. }
  assert (Hstep : exists pp1,
    (if committed g && markOffsetsManually (config (topicProcessor pp))
     then MarkOffset topic (Int.add64 (Offset (pointee (incomingMessage g))) 1) "" pp
     else Ok pp) = Ok pp1 /\
    marksOnly topic
      (if committed g && markOffsetsManually (config (topicProcessor pp))
       then [markFor g] else []) pp pp1).
  { destruct (committed g && markOffsetsManually (config (topicProcessor pp))).
    - destruct (MarkOffset topic _ "" pp) as [pp1| |] eqn:Hmark; [|done..].
      exists pp1. split; [done|]. by apply MarkOffset_Ok in Hmark as [_ Hfr].
    - exists pp. split; [done | apply marksOnly_refl]. }
  destruct Hstep as (pp1 & Hstep & Hfr1). rewrite Hstep in Hrun. simpl in Hrun.
  destruct (IH _ _ _ _ (queue_set_queue_eq topic rest pp1) Hrun)
    as (Hoff & Hq' & Hfr').
  split.
  { rewrite Hoff. simpl. rewrite Hg, last_cons.
    by destruct (last (completedPrefix rest)). }
  simpl. rewrite Hg. split; [exact Hq'|].
  assert (Htp1 : topicProcessor pp1 = topicProcessor pp) by apply Hfr1.
  simpl in Hfr'. rewrite Htp1 in Hfr'.
  pose proof (marksOnly_trans _ _ _ _ _ _ Hfr1
                (marksOnly_trans _ _ _ _ _ _ (marksOnly_set_queue topic rest pp1) Hfr'))
    as Hfr.
  unfold loopMarks in *. simpl. rewrite Hg.
  destruct (markOffsetsManually (config (topicProcessor pp))); simpl.
  - destruct (committed g); simpl in *; exact Hfr.
  - rewrite andb_false_r in Hfr. exact Hfr.
Qed.

(** With the offset manager of [topic] at hand the loop is left
    normally. *)
Lemma markLoop_returns (topic : string) (q : list inFlightMessageGroup) :
  forall (offset : Z) (pp : partitionProcessor),
    is_Some (offsetManagers pp !! topic) ->
    exists r, markLoop topic q offset pp = Ok r.
Proof.
  induction q as [|g rest IH]; intros offset pp Hs; [by eexists|].
  simpl. destruct (allAcksAreTrue g); simpl; [|by eexists].
  destruct (committed g && markOffsetsManually (config (topicProcessor pp))).
  - destruct (marksOnly_MarkOffset topic
                (Int.add64 (Offset (pointee (incomingMessage g))) 1) "" pp Hs)
      as (pp1 & Heq & _ & Hfr).
    rewrite Heq. simpl. apply IH. simpl. by apply Hfr.
  - simpl. apply IH. exact Hs.
Qed.

Lemma markOffsetsForTopicIfPossible_Ok (pp pp' : partitionProcessor)
    (topic : string) :
  markOffsetsForTopicIfPossible pp topic = Ok pp' ->
  queue pp' topic = afterCompletedPrefix (queue pp topic) /\
  marksOnly topic (topicMarks (config (topicProcessor pp)) (queue pp topic)) pp pp'.
Proof.
  unfold markOffsetsForTopicIfPossible.
  destruct (markLoop topic (queue pp topic) (-1) pp) as [[pp1 offset]| |] eqn:Hloop;
    [|done..].
  destruct (markLoop_Ok topic _ _ _ _ _ eq_refl Hloop) as (-> & Hq1 & Hfr1).
  simpl.
  assert (Htp1 : topicProcessor pp1 = topicProcessor pp) by apply Hfr1.
  rewrite Htp1. unfold topicMarks, loopMarks, markOffsetsManually,
    markOffsetsAutomatically in *.
  destruct (commitDiscipline (config (topicProcessor pp))).
  - rewrite andb_false_r. intros [= <-]. by split.
  - rewrite andb_true_r.
    destruct (last (completedPrefix (queue pp topic))) as [g|] eqn:Hlast; simpl.
    + destruct (offsetOf g =? -1) eqn:Hneg; simpl.
      * intros [= <-]. by split.
      * intros Hmark. apply MarkOffset_Ok in Hmark as [Hq2 Hfr2].
        split; [congruence|]. exact (marksOnly_trans _ _ _ _ _ _ Hfr1 Hfr2).
    + intros [= <-]. by split.
Qed.

Lemma markOffsetsForTopicIfPossible_returns (pp : partitionProcessor)
    (topic : string) :
  is_Some (offsetManagers pp !! topic) ->
  exists pp', markOffsetsForTopicIfPossible pp topic = Ok pp'.
Proof.
  intros Hs. unfold markOffsetsForTopicIfPossible.
  destruct (markLoop_returns topic (queue pp topic) (-1) pp Hs) as [[pp1 offset] Hloop].
  rewrite Hloop. simpl.
  destruct (negb (offset =? -1) && _); [|by eexists].
  destruct (markLoop_Ok topic _ _ _ _ _ eq_refl Hloop) as (_ & _ & Hfr1).
  destruct (marksOnly_MarkOffset topic (Int.add64 offset 1) "" pp1) as (pp2 & Heq & _);
    [by apply Hfr1 | by eexists].
Qed.

(** The whole pass over the input topics: each topic's queue loses its
    completed prefix, and its manager receives the calls of one pass
    (a topic listed twice is scanned twice; the second scan finds nothing
    to do). *)
Lemma markOffsetsForTopics_Ok (topics : list string) :
  forall pp pp' : partitionProcessor,
    markOffsetsForTopics topics pp = Ok pp' ->
    topicProcessor pp' = topicProcessor pp /\
    (forall t, is_Some (offsetManagers pp !! t) -> is_Some (offsetManagers pp' !! t)) /\
    (forall t, t ∈ topics ->
       queue pp' t = afterCompletedPrefix (queue pp t) /\
       marksOf pp' t =
         marksOf pp t ++ topicMarks (config (topicProcessor pp)) (queue pp t)) /\
    (forall t, t ∉ topics ->
       queue pp' t = queue pp t /\ marksOf pp' t = marksOf pp t).
Proof.
  induction topics as [|topic topics IH]; intros pp pp' Hrun.
  { injection Hrun as <-. split; [done|]. split; [done|]. split; [|done].
    intros t Hin. exfalso. by eapply not_elem_of_nil. }
  simpl in Hrun.
  destruct (markOffsetsForTopicIfPossible pp topic) as [pp1| |] eqn:Hone; [|done..].
  simpl in Hrun.
  destruct (markOffsetsForTopicIfPossible_Ok _ _ _ Hone)
    as (Hq1 & Htp1 & Hm1 & Ho1 & Hp1).
  destruct (IH pp1 pp' Hrun) as (Htp & Hp & Hin & Hout).
  split; [congruence|]. split; [intros t Ht; by apply Hp, Hp1|].
  rewrite Htp1 in Hin. split.
  - intros t Ht. destruct (decide (topic = t)) as [->|Hne].
    + destruct (decide (t ∈ topics)) as [Hin'|Hnin].
      * destruct (Hin t Hin') as [Hq' Hm']. rewrite Hq', Hm', Hq1, Hm1.
        rewrite afterCompletedPrefix_idem, topicMarks_after, app_nil_r. done.
      * destruct (Hout t Hnin) as [Hq' Hm']. by rewrite Hq', Hm'.
    + apply elem_of_cons in Ht as [->|Ht]; [done|].
      destruct (Hin t Ht) as [Hq' Hm'], (Ho1 t Hne) as [Hq1' Hm1'].
      by rewrite Hq', Hm', Hq1', Hm1'.
  - intros t [Hne Hnin]%not_elem_of_cons.
    destruct (Hout t Hnin) as [Hq' Hm'].
    destruct (Ho1 t) as [Hq1' Hm1']; [done|]. by rewrite Hq', Hm', Hq1', Hm1'.
Qed.

Lemma markOffsetsForTopics_returns (topics : list string) :
  forall pp : partitionProcessor,
    (forall t, t ∈ topics -> is_Some (offsetManagers pp !! t)) ->
    exists pp', markOffsetsForTopics topics pp = Ok pp'.
Proof.
  induction topics as [|topic topics IH]; intros pp Hs; [by eexists|].
  simpl.
  destruct (markOffsetsForTopicIfPossible_returns pp topic
              (Hs topic (list_elem_of_here _ _))) as [pp1 Hone].
  rewrite Hone. simpl. apply IH. intros t Ht.
  destruct (markOffsetsForTopicIfPossible_Ok _ _ _ Hone) as (_ & _ & _ & _ & Hp1).
  by apply Hp1, Hs, list_elem_of_further.
Qed.

(** A group of the completed prefix sits in the queue behind completed
    groups only. *)
Lemma completedPrefix_position (q : list inFlightMessageGroup)
    (g : inFlightMessageGroup) :
  g ∈ completedPrefix q ->
  exists i : nat,
    q !! i = Some g /\ allAcksAreTrue g = true /\
    forall (j : nat) (g' : inFlightMessageGroup),
      (j < i)%nat -> q !! j = Some g' -> allAcksAreTrue g' = true.
Proof.
  intros Hin. pose proof (completedPrefix_complete q g Hin) as Hg.
  apply list_elem_of_lookup_1 in Hin as [i Hi].
  exists i. pose proof (completedPrefix_app q) as Happ.
  split; [rewrite Happ; by apply lookup_app_l_Some|]. split; [exact Hg|].
  intros j g' Hj Hq. apply (completedPrefix_complete q).
  apply lookup_lt_Some in Hi as Hlt.
  rewrite Happ, lookup_app_l in Hq by lia.
  by eapply list_elem_of_lookup_2.
Qed.

Lemma completedPrefix_subset (q : list inFlightMessageGroup)
    (g : inFlightMessageGroup) :
  g ∈ completedPrefix q -> g ∈ q.
Proof.
  intros (i & Hi & _)%completedPrefix_position. by eapply list_elem_of_lookup_2.
Qed.

Lemma markFor_logOffset (g : inFlightMessageGroup) :
  0 <= offsetOf g < Int.max_int64 -> markFor g = (offsetOf g + 1, "").
Proof.
  intros Hg. unfold markFor. rewrite add64_small; [done|].
  unfold Int.max_int64 in Hg. lia.
Qed.

(** On offsets of log records, the calls of one pass in either mode. *)
Lemma topicMarks_logOffsets (config : TopicProcessorConfig)
    (q : list inFlightMessageGroup) :
  logOffsets q ->
  topicMarks config q =
  match commitDiscipline config with
  | ManualCommit =>
      map (fun g => (offsetOf g + 1, "")) (List.filter committed (completedPrefix q))
  | AutomaticCommit =>
      match last (completedPrefix q) with
      | Some g => [(offsetOf g + 1, "")]
      | None => []
      end
  end.
Proof.
  intros Hlog. unfold topicMarks. destruct (commitDiscipline config).
  - apply map_ext_in. intros g Hin. apply markFor_logOffset, Hlog.
    apply filter_In in Hin as [Hin _].
    by apply completedPrefix_subset, list_elem_of_In.
  - destruct (last (completedPrefix q)) as [g|] eqn:Hlast; [|done].
    assert (Hg : 0 <= offsetOf g < Int.max_int64).
    { apply Hlog, completedPrefix_subset. by eapply last_Some_elem_of. }
    rewrite markFor_logOffset by exact Hg.
    destruct (offsetOf g =? -1) eqn:Hneg; [|done]. apply Z.eqb_eq in Hneg. lia.
Qed.

Lemma Sample_pp_managed (d : CommitDiscipline) (maxGroups : Z)
    (q : list inFlightMessageGroup) : managed (Sample.pp d maxGroups q).
Proof.
  intros t Ht. apply list_elem_of_singleton in Ht as ->. by eexists.
Defined.

(** C1. Whenever a run of [markOffsetsIfPossible] returns, on queues
    whose groups carry offsets of log records, the calls of [MarkOffset]
    it has added for an input topic are: in manual mode, one call per
    group of the completed head of the queue whose [committed] flag is
    true, in queue order; in automatic mode, one call when the completed
    head is not empty (for its last group) and none otherwise.  Every
    offset passed is 1 plus the offset of a complete group of the queue
    all of whose predecessors in the queue are complete.  A topic that
    is not an input topic receives no call.  And the run does return on
    a processor whose input topics have their offset managers. *)
Theorem markOffsetsIfPossible_marks (pp : partitionProcessor) :
  (forall pp' : partitionProcessor,
     markOffsetsIfPossible pp = Ok pp' ->
     (forall t, t ∈ tp_inputTopics (topicProcessor pp) -> logOffsets (queue pp t)) ->
     (forall t, t ∈ tp_inputTopics (topicProcessor pp) ->
        exists new : list (Z * string),
          marksOf pp' t = marksOf pp t ++ new /\
          (markOffsetsManually (config (topicProcessor pp)) = true ->
             new = map (fun g => (offsetOf g + 1, ""))
                       (List.filter committed (completedPrefix (queue pp t)))) /\
          (markOffsetsAutomatically (config (topicProcessor pp)) = true ->
             new = match last (completedPrefix (queue pp t)) with
                   | Some g => [(offsetOf g + 1, "")]
                   | None => []
                   end) /\
          (forall (o : Z) (md : string), (o, md) ∈ new ->
             exists (i : nat) (g : inFlightMessageGroup),
               queue pp t !! i = Some g /\
               allAcksAreTrue g = true /\
               o = offsetOf g + 1 /\
               forall (j : nat) (g' : inFlightMessageGroup),
                 (j < i)%nat -> queue pp t !! j = Some g' ->
                 allAcksAreTrue g' = true)) /\
     (forall t, t ∉ tp_inputTopics (topicProcessor pp) ->
        marksOf pp' t = marksOf pp t)) /\
  (managed pp -> exists pp', markOffsetsIfPossible pp = Ok pp').
Proof.
  unfold markOffsetsIfPossible.
  split; [|apply markOffsetsForTopics_returns].
  intros pp' Hrun Hlog.
  destruct (markOffsetsForTopics_Ok _ _ _ Hrun) as (_ & _ & Hin & Hout).
  split; [|intros t Ht; by apply Hout].
  intros t Ht. destruct (Hin t Ht) as [_ Hm].
  exists (topicMarks (config (topicProcessor pp)) (queue pp t)).
  split; [exact Hm|].
  rewrite (topicMarks_logOffsets _ _ (Hlog t Ht)).
  unfold markOffsetsManually, markOffsetsAutomatically.
  destruct (commitDiscipline (config (topicProcessor pp))).
  - split; [done|]. split; [done|]. intros o md Hmark.
    apply list_elem_of_fmap in Hmark as (g & [= -> ->] & Hg).
    apply list_elem_of_In, filter_In in Hg as [Hg _].
    apply list_elem_of_In, completedPrefix_position in Hg as (i & Hi & Hc & Hpre).
    by exists i, g.
  - split; [done|]. split; [done|]. intros o md Hmark.
    destruct (last (completedPrefix (queue pp t))) as [g|] eqn:Hlast;
      [|exfalso; by eapply not_elem_of_nil].
    apply list_elem_of_singleton in Hmark as [= -> ->].
    apply last_Some_elem_of, completedPrefix_position in Hlast
      as (i & Hi & Hc & Hpre).
    by exists i, g.
Qed.

(** C1 on the sample queue in manual mode: of the completed groups at
    offsets 10 and 11 only the second is committed, and offset 12 is the
    one call. *)
Lemma markOffsetsIfPossible_marks_witness :
  managed (Sample.pp ManualCommit 4 Sample.q3) /\
  exists pp',
    markOffsetsIfPossible (Sample.pp ManualCommit 4 Sample.q3) = Ok pp' /\
    marksOf pp' "t" = [(12, "")].
Proof.
  split; [apply Sample_pp_managed|].
  destruct (markOffsetsIfPossible_marks (Sample.pp ManualCommit 4 Sample.q3))
    as [Hmarks Hreturns].
  destruct (Hreturns (Sample_pp_managed _ _ _)) as [pp' Heq].
  exists pp'. split; [exact Heq|].
  destruct (Hmarks pp' Heq) as [Hin _].
  - intros t Ht g Hg. apply list_elem_of_singleton in Ht as ->.
    vm_compute in Hg.
    repeat (apply elem_of_cons in Hg as [->|Hg]; [vm_compute; split; congruence|]).
    exfalso. by eapply not_elem_of_nil.
  - destruct (Hin "t") as (new & Hm & Hmanual & _); [apply list_elem_of_here|].
    rewrite Hm, (Hmanual eq_refl). reflexivity.
Defined.

(** C4. Whenever [markOffsetsIfPossible] returns, the queue of every
    input topic is empty or starts with an incomplete group, one that
    holds an in-flight message with [ack = false]; and it does return on
    a processor whose input topics have their offset managers. *)
Theorem markOffsetsIfPossible_head_incomplete (pp : partitionProcessor) :
  (forall pp' : partitionProcessor,
     markOffsetsIfPossible pp = Ok pp' ->
     forall t, t ∈ tp_inputTopics (topicProcessor pp) ->
       queue pp' t = [] \/
       exists (g : inFlightMessageGroup) (rest : list inFlightMessageGroup)
              (m : inFlightMessage),
         queue pp' t = g :: rest /\
         allAcksAreTrue g = false /\
         m ∈ inFlightMessages g /\ ack m = false) /\
  (managed pp -> exists pp', markOffsetsIfPossible pp = Ok pp').
Proof.
  unfold markOffsetsIfPossible.
  split; [|apply markOffsetsForTopics_returns].
  intros pp' Hrun t Ht.
  destruct (markOffsetsForTopics_Ok _ _ _ Hrun) as (_ & _ & Hin & _).
  destruct (Hin t Ht) as [Hq _]. rewrite Hq.
  destruct (afterCompletedPrefix_head (queue pp t)) as [Hnil|(g & rest & Hgr & Hg)];
    [by left|].
  right. destruct (incomplete_has_unacked g Hg) as (m & Hm & Hack).
  by exists g, rest, m.
Qed.

(** C4 on the sample queue: the groups at offsets 10 and 11 are gone and
    the group at offset 12, still in flight, heads the queue. *)
Lemma markOffsetsIfPossible_head_incomplete_witness :
  managed (Sample.pp AutomaticCommit 4 Sample.q3) /\
  exists pp',
    markOffsetsIfPossible (Sample.pp AutomaticCommit 4 Sample.q3) = Ok pp' /\
    queue pp' "t" = [Sample.group 3%positive 12 false false] /\
    allAcksAreTrue (Sample.group 3%positive 12 false false) = false.
Proof.
  split; [apply Sample_pp_managed|].
  destruct (markOffsetsIfPossible_head_incomplete
              (Sample.pp AutomaticCommit 4 Sample.q3)) as [Hhead Hreturns].
  destruct (Hreturns (Sample_pp_managed _ _ _)) as [pp' Heq].
  exists pp'. split; [exact Heq|].
  destruct (Hhead pp' Heq "t" (list_elem_of_here _ _))
    as [Hnil|(g & rest & m & Hq & Hg & _)].
  - vm_compute in Heq. injection Heq as <-. discriminate Hnil.
  - vm_compute in Heq. injection Heq as <-. vm_compute in Hq.
    injection Hq as <- <-. split; reflexivity.
Defined.

(* ===================================================================== *)
(** ** Properties of the interior prune *)
(* ===================================================================== *)

(** C5. [onProcessCompleted] removes from the queue of each input topic
    a prefix of [k] groups, each of which was complete and followed by a
    complete group; it stops where the queue has fewer than two groups or
    one of the first two is incomplete; it leaves a non-empty queue
    non-empty; it leaves the queues of other topics alone; and it changes
    nothing of the processor but the queues, so no [MarkOffset] call is
    made. *)
Theorem onProcessCompleted_interior_prune (pp : partitionProcessor) :
  (forall t, t ∈ tp_inputTopics (topicProcessor pp) ->
     exists k : nat,
       queue (onProcessCompleted pp) t = drop k (queue pp t) /\
       (forall (i : nat) (g : inFlightMessageGroup),
          (i < k)%nat -> queue pp t !! i = Some g ->
          allAcksAreTrue g = true /\
          exists g', queue pp t !! S i = Some g' /\ allAcksAreTrue g' = true) /\
       (forall g0 g1 : inFlightMessageGroup,
          queue (onProcessCompleted pp) t !! 0%nat = Some g0 ->
          queue (onProcessCompleted pp) t !! 1%nat = Some g1 ->
          allAcksAreTrue g0 && allAcksAreTrue g1 = false) /\
       (queue pp t ≠ [] -> queue (onProcessCompleted pp) t ≠ [])) /\
  (forall t, t ∉ tp_inputTopics (topicProcessor pp) ->
     queue (onProcessCompleted pp) t = queue pp t) /\
  onProcessCompleted pp =
    with_inFlightMessageGroups (inFlightMessageGroups (onProcessCompleted pp)) pp /\
  (forall t, marksOf (onProcessCompleted pp) t = marksOf pp t).
Proof.
  unfold onProcessCompleted, pruneInFlightMessageGroups.
  pose proof (prune_topics_sameButQueues (tp_inputTopics (topicProcessor pp)) pp)
    as Hsame.
  split; [|split; [|split]].
  - intros t Ht. rewrite prune_topics_queue, decide_True by exact Ht.
    destruct (pruned_drop (queue pp t)) as (k & Hk & Hpre).
    exists k. split; [exact Hk|]. split; [exact Hpre|].
    split; [apply pruned_stops | apply pruned_nonempty].
  - intros t Ht. by rewrite prune_topics_queue, decide_False.
  - exact Hsame.
  - intros t. unfold marksOf.
    by rewrite (sameButQueues_offsetManagers _ _ Hsame).
Qed.

(** C8. Running [onProcessCompleted] a second time, with no
    acknowledgement in between, changes nothing: the processor, and so
    every in-flight queue, is as the first run left it. *)
Theorem onProcessCompleted_idempotent (pp : partitionProcessor) :
  onProcessCompleted (onProcessCompleted pp) = onProcessCompleted pp /\
  forall t, queue (onProcessCompleted (onProcessCompleted pp)) t =
            queue (onProcessCompleted pp) t.
Proof.
  assert (Hidem : onProcessCompleted (onProcessCompleted pp) = onProcessCompleted pp).
  { unfold onProcessCompleted, pruneInFlightMessageGroups.
    pose proof (prune_topics_sameButQueues (tp_inputTopics (topicProcessor pp)) pp)
      as Hsame.
    rewrite (sameButQueues_topicProcessor _ _ Hsame).
    apply prune_topics_fixed. intros t Ht.
    rewrite prune_topics_queue, decide_True by exact Ht. apply pruned_idem. }
  split; [exact Hidem|]. intros t. by rewrite Hidem.
Qed.

(* ===================================================================== *)
(** ** process and the readiness test *)
(* ===================================================================== *)

Lemma fold_runUserAction (actions : list UserAction) (pp : partitionProcessor)
    (s : sender) :
  fold_left runUserAction actions (pp, s) =
  (with_commitNextInFlightMessageGroup
     (commitNextInFlightMessageGroup pp || commitRequested actions) pp,
   {| sender_incomingMessage := sender_incomingMessage s;
      producerMessages :=
        producerMessages s ++ submissions (sender_incomingMessage s) actions |}).
Proof.
  revert pp s. induction actions as [|a actions IH]; intros pp s.
  { simpl. rewrite orb_false_r, app_nil_r. by destruct pp, s. }
  destruct a as [m|]; simpl; rewrite IH; simpl.
  - by rewrite <- app_assoc.
  - by rewrite orb_true_r.
Qed.

Lemma Process_spec (mp : MessageProcessor) (incoming : IncomingMessage)
    (origin : ptr IncomingMessage) (pp : partitionProcessor) :
  Process mp incoming (newSender origin) pp =
  (with_commitNextInFlightMessageGroup
     (commitNextInFlightMessageGroup pp || commitRequested (mp incoming)) pp,
   {| sender_incomingMessage := origin;
      producerMessages := submissions origin (mp incoming) |}).
Proof. unfold Process. by rewrite fold_runUserAction. Qed.

(** C6. For a consumer message of a topic that has its serde, [process]
    returns.  The user processor is entered with
    [commitNextInFlightMessageGroup = false]; the group is built from the
    sender and the flag as the user processor leaves them, so its
    [committed] flag says whether this run of user code called [Commit],
    whatever the flag was before; exactly this group is appended to the
    queue of the message's topic, the queues of other topics are
    unchanged; and the value returned is the list of the producer
    messages submitted to the sender, in submission order. *)
Theorem process_appends_group (pp : partitionProcessor)
    (consumerMessage : ConsumerMessage) (topicSerde : TopicSerde) :
  TopicSerdes (config (topicProcessor pp)) !! cm_Topic consumerMessage
    = Some topicSerde ->
  let incoming := incomingOf topicSerde consumerMessage in
  let origin := Ptr (nextAddress pp) incoming in
  let actions := messageProcessor pp incoming in
  exists (pp' pp0 pp1 : partitionProcessor) (s1 : sender)
         (out : list (ptr ProducerMessage)),
    process pp consumerMessage = Ok (pp', out) /\
    commitNextInFlightMessageGroup pp0 = false /\
    Process (messageProcessor pp) incoming (newSender origin) pp0 = (pp1, s1) /\
    out = producerMessages s1 /\
    out = submissions origin actions /\
    commitNextInFlightMessageGroup pp1 = commitRequested actions /\
    queue pp' (cm_Topic consumerMessage) =
      queue pp (cm_Topic consumerMessage) ++
      [createInFlightMessageGroup s1 (commitNextInFlightMessageGroup pp1)] /\
    createInFlightMessageGroup s1 (commitNextInFlightMessageGroup pp1) =
      {| incomingMessage := origin;
         inFlightMessages := map (fun m => {| msg := m; ack := false |}) out;
         committed := commitRequested actions |} /\
    (forall t, cm_Topic consumerMessage ≠ t -> queue pp' t = queue pp t) /\
    topicProcessor pp' = topicProcessor pp /\
    offsetManagers pp' = offsetManagers pp.
Proof.
  intros Hserde incoming origin actions.
  set (pp0 := with_commitNextInFlightMessageGroup false
                (with_nextAddress (Pos.succ (nextAddress pp)) pp)).
  pose proof (Process_spec (messageProcessor pp) incoming origin pp0) as HP.
  assert (Hrun : process pp consumerMessage =
                 let '(pp1, s1) :=
                   Process (messageProcessor pp) incoming (newSender origin) pp0 in
                 Ok (set_queue (cm_Topic consumerMessage)
                       (queue pp1 (cm_Topic consumerMessage) ++
                        [createInFlightMessageGroup s1
                           (commitNextInFlightMessageGroup pp1)]) pp1,
                     producerMessages s1)).
  { unfold process. rewrite Hserde. reflexivity. }
  rewrite HP in Hrun.
  eexists _, pp0, _, _, _. split; [exact Hrun|].
  split; [reflexivity|]. split; [exact HP|].
  split; [reflexivity|]. split; [reflexivity|]. split; [reflexivity|].
  split; [by rewrite queue_set_queue_eq|]. split; [reflexivity|].
  split; [|done]. intros t Hne. by rewrite queue_set_queue_ne.
Qed.

(** C6 on the sample processor, whose flag is set before the call and
    whose user code submits one record and commits. *)
Lemma process_appends_group_witness :
  TopicSerdes (config (topicProcessor (Sample.pp ManualCommit 4 [])))
    !! "t" = Some Sample.topicSerde /\
  exists pp' out,
    process (Sample.pp ManualCommit 4 [])
            {| cm_Key := "k"; cm_Value := "v"; cm_Topic := "t"; cm_Partition := 0;
               cm_Offset := 10; cm_Timestamp := 0 |} = Ok (pp', out) /\
    length out = 1%nat /\
    (committed <$> queue pp' "t") = [true].
Proof.
  split; [reflexivity|].
  destruct (process_appends_group (Sample.pp ManualCommit 4 [])
              {| cm_Key := "k"; cm_Value := "v"; cm_Topic := "t"; cm_Partition := 0;
                 cm_Offset := 10; cm_Timestamp := 0 |} Sample.topicSerde eq_refl)
    as (pp' & pp0 & pp1 & s1 & out & Heq & _ & _ & _ & Hout & _ & Hq & Hg & _).
  exists pp', out. split; [exact Heq|].
  split; [rewrite Hout; reflexivity|].
  simpl in Hq. rewrite Hq, Hg. reflexivity.
Defined.

(** A [process] that returns has appended one group to the queue of the
    message's topic and left the topic processor alone. *)
Lemma process_Ok_queue (pp pp' : partitionProcessor) (m : ConsumerMessage)
    (out : list (ptr ProducerMessage)) :
  process pp m = Ok (pp', out) ->
  topicProcessor pp' = topicProcessor pp /\
  exists g, queue pp' (cm_Topic m) = queue pp (cm_Topic m) ++ [g].
Proof.
  unfold process.
  destruct (TopicSerdes (config (topicProcessor pp)) !! cm_Topic m)
    as [topicSerde|]; [|done].
  cbv zeta. rewrite Process_spec. intros [= <- _]. split; [done|].
  eexists. by rewrite queue_set_queue_eq.
Qed.

(** C3. [isReadyForMessage] answers true exactly when the queue of the
    message's topic holds at most [MaxInFlightMessageGroups] groups.
    So with a bound of 0 it answers true exactly on the empty queue; a
    false answer is seen only on a queue of more than the bound; and on
    a queue of exactly the bound the answer is still true, and the
    [process] so admitted leaves a queue of bound + 1 groups, on which
    the answer is false. *)
Theorem isReadyForMessage_bound (pp : partitionProcessor) (m : ConsumerMessage) :
  let maxGroups := MaxInFlightMessageGroups (Config_ (config (topicProcessor pp))) in
  let len := fun pp => Z.of_nat (length (queue pp (cm_Topic m))) in
  (isReadyForMessage pp m = true <-> len pp <= maxGroups) /\
  (maxGroups = 0 -> (isReadyForMessage pp m = true <-> queue pp (cm_Topic m) = [])) /\
  (isReadyForMessage pp m = false -> maxGroups + 1 <= len pp) /\
  (len pp = maxGroups ->
     isReadyForMessage pp m = true /\
     forall pp' out, process pp m = Ok (pp', out) ->
       len pp' = maxGroups + 1 /\ isReadyForMessage pp' m = false).
Proof.
  intros maxGroups len. unfold isReadyForMessage. fold maxGroups.
  change (Z.of_nat (length (queue pp (cm_Topic m)))) with (len pp).
  split; [apply Z.leb_le|]. split; [|split].
  - intros ->. rewrite Z.leb_le. unfold len.
    destruct (queue pp (cm_Topic m)); simpl; split; (done || lia).
  - intros H%Z.leb_gt. lia.
  - intros Hlen. split; [apply Z.leb_le; lia|]. intros pp' out Hproc.
    destruct (process_Ok_queue pp pp' m out Hproc) as (Htp & g & Hq).
    assert (Hlen' : len pp' = maxGroups + 1).
    { unfold len in *. rewrite Hq, length_app. simpl. lia. }
    split; [exact Hlen'|]. rewrite Htp. fold maxGroups.
    change (Z.of_nat (length (queue pp' (cm_Topic m)))) with (len pp').
    apply Z.leb_gt. lia.
Qed.

(** C3 with a bound of 1: one queued group, still ready; after the
    [process] so admitted, two queued groups and not ready. *)
Lemma isReadyForMessage_bound_witness :
  let m := {| cm_Key := "k"; cm_Value := "v"; cm_Topic := "t"; cm_Partition := 0;
              cm_Offset := 11; cm_Timestamp := 0 |} in
  let pp := Sample.pp AutomaticCommit 1 [Sample.group 1%positive 10 false false] in
  isReadyForMessage pp m = true /\
  exists pp' out,
    process pp m = Ok (pp', out) /\
    length (queue pp' "t") = 2%nat /\ isReadyForMessage pp' m = false.
Proof.
  intros m pp.
  destruct (isReadyForMessage_bound pp m) as (_ & _ & _ & Hat).
  destruct (Hat eq_refl) as [Hready Hnext]. split; [exact Hready|].
  destruct (process pp m) as [[pp' out]| |] eqn:Hproc; try discriminate.
  exists pp', out. split; [reflexivity|].
  destruct (Hnext pp' out eq_refl) as [Hlen Hnot].
  split; [|exact Hnot]. simpl in Hlen. lia.
Defined.

(* ===================================================================== *)
(** ** onProducerAck *)
(* ===================================================================== *)

Lemma firstAt_here {A : Type} (P : A -> bool) (x : A) (l : list A) :
  P x = true -> firstAt P (x :: l) 0 x.
Proof. intros HP. split; [done|]. split; [done|]. intros j y Hj. lia. Qed.

Lemma firstAt_further {A : Type} (P : A -> bool) (x y : A) (l : list A) (i : nat) :
  P y = false -> firstAt P l i x -> firstAt P (y :: l) (S i) x.
Proof.
  intros HPy (Hi & HP & Hpre). split; [done|]. split; [done|].
  intros [|j] z Hj Hz; simpl in Hz.
  - by injection Hz as <-.
  - apply (Hpre j z); [lia | done].
Qed.

Lemma firstAt_cons_inv {A : Type} (P : A -> bool) (x y : A) (l : list A) (i : nat) :
  firstAt P (y :: l) i x ->
  (i = 0%nat /\ x = y /\ P y = true) \/
  (exists i', i = S i' /\ P y = false /\ firstAt P l i' x).
Proof.
  intros (Hi & HP & Hpre). destruct i as [|i'].
  - left. simpl in Hi. injection Hi as <-. done.
  - right. exists i'. split; [done|]. split; [apply (Hpre 0%nat); [lia|done]|].
    split; [done|]. split; [done|].
    intros j z Hj Hz. apply (Hpre (S j) z); [lia | done].
Qed.

Lemma ackInFlightMessage_Some (sentMessage : ptr ProducerMessage)
    (ms ms' : list inFlightMessage) :
  ackInFlightMessage sentMessage ms = Some ms' <->
  exists (j : nat) (m : inFlightMessage),
    firstAt (fun m => ptr_eqb (msg m) sentMessage) ms j m /\
    ms' = <[j := with_ack true m]> ms.
Proof.
  revert ms'. induction ms as [|a rest IH]; intros ms'; simpl.
  { split; [done|]. by intros (j & m & (Hj & _) & _). }
  destruct (ptr_eqb (msg a) sentMessage) eqn:Ha.
  - split.
    + intros [= <-]. exists 0%nat, a. split; [by apply firstAt_here | done].
    + intros (j & m & Hfirst & ->).
      apply firstAt_cons_inv in Hfirst as [(-> & -> & _)|(j' & _ & Hf & _)];
        [done | congruence].
  - split.
    + destruct (ackInFlightMessage sentMessage rest) as [rest'|] eqn:Hrest; [|done].
      intros [= <-]. destruct (proj1 (IH rest') eq_refl) as (j & m & Hfirst & ->).
      exists (S j), m. split; [by apply firstAt_further | done].
    + intros (j & m & Hfirst & ->).
      apply firstAt_cons_inv in Hfirst as [(_ & _ & Hf)|(j' & -> & _ & Hfirst)];
        [congruence|].
      rewrite (proj2 (IH (<[j' := with_ack true m]> rest))); [done|].
      by exists j', m.
Qed.

Lemma ackGroup_Ok (origin : ptr IncomingMessage) (sentMessage : ptr ProducerMessage)
    (q q' : list inFlightMessageGroup) :
  ackGroup origin sentMessage q = Ok q' <->
  exists (i : nat) (g : inFlightMessageGroup) (j : nat) (m : inFlightMessage),
    firstAt (fun g => ptr_eqb (incomingMessage g) origin) q i g /\
    firstAt (fun m => ptr_eqb (msg m) sentMessage) (inFlightMessages g) j m /\
    q' = <[i := with_inFlightMessages
                  (<[j := with_ack true m]> (inFlightMessages g)) g]> q.
Proof.
  revert q'. induction q as [|a rest IH]; intros q'; simpl.
  { split; [done|]. by intros (i & g & j & m & (Hi & _) & _). }
  destruct (ptr_eqb (incomingMessage a) origin) eqn:Ha.
  - split.
    + destruct (ackInFlightMessage sentMessage (inFlightMessages a)) as [ms|] eqn:Hms;
        [|done].
      intros [= <-]. apply ackInFlightMessage_Some in Hms as (j & m & Hfirst & ->).
      exists 0%nat, a, j, m. split; [by apply firstAt_here | done].
    + intros (i & g & j & m & Hg & Hm & ->).
      apply firstAt_cons_inv in Hg as [(-> & -> & _)|(i' & _ & Hf & _)];
        [|congruence].
      rewrite (proj2 (ackInFlightMessage_Some sentMessage (inFlightMessages a)
                        (<[j := with_ack true m]> (inFlightMessages a))));
        [done | by exists j, m].
  - split.
    + destruct (ackGroup origin sentMessage rest) as [rest'| |] eqn:Hrest; [|done..].
      intros [= <-].
      destruct (proj1 (IH rest') eq_refl) as (i & g & j & m & Hg & Hm & ->).
      exists (S i), g, j, m. split; [by apply firstAt_further | done].
    + intros (i & g & j & m & Hg & Hm & ->).
      apply firstAt_cons_inv in Hg as [(_ & _ & Hf)|(i' & -> & _ & Hg)];
        [congruence|].
      rewrite (proj2 (IH (<[i' := with_inFlightMessages
                                    (<[j := with_ack true m]> (inFlightMessages g)) g]>
                            rest))); [done|].
      by exists i', g, j, m.
Qed.

(** C7. [onProducerAck] returns exactly when the queue of the topic of
    the message's origin holds a group for that origin whose in-flight
    messages include the sent message; and then the processor it leaves
    is the one it found but for one flag: in the first group of that
    queue whose [incomingMessage] is the origin, the [ack] of the first
    in-flight message whose [msg] is the sent message is true.  Every
    other [ack], every [committed] flag, the membership and order of
    every queue and every other field of the processor are as before. *)
Theorem onProducerAck_sets_one_ack (pp pp' : partitionProcessor)
    (sentMessage : ptr ProducerMessage) :
  onProducerAck pp sentMessage = Ok pp' <->
  exists (origin : ptr IncomingMessage)
         (i : nat) (g : inFlightMessageGroup) (j : nat) (m : inFlightMessage),
    Metadata (pointee sentMessage) = Some origin /\
    firstAt (fun g => ptr_eqb (incomingMessage g) origin)
            (queue pp (Topic (pointee origin))) i g /\
    firstAt (fun m => ptr_eqb (msg m) sentMessage) (inFlightMessages g) j m /\
    pp' = set_queue (Topic (pointee origin))
            (<[i := with_inFlightMessages
                      (<[j := with_ack true m]> (inFlightMessages g)) g]>
               (queue pp (Topic (pointee origin))))
            pp.
Proof.
  unfold onProducerAck.
  destruct (Metadata (pointee sentMessage)) as [origin|] eqn:Hmd.
  2:{ split; [done|]. by intros (origin & i & g & j & m & [=] & _). }
  split.
  - destruct (ackGroup origin sentMessage (queue pp (Topic (pointee origin))))
      as [groups| |] eqn:Hack; [|done..].
    simpl. intros [= <-].
    apply ackGroup_Ok in Hack as (i & g & j & m & Hg & Hm & ->).
    by exists origin, i, g, j, m.
  - intros (origin' & i & g & j & m & [= <-] & Hg & Hm & ->).
    erewrite (proj2 (ackGroup_Ok origin sentMessage _ _)); [done|].
    by exists i, g, j, m.
Qed.

(** C7 on the sample queue: the acknowledgement of the record produced
    for offset 12 completes that group and touches nothing else. *)
Lemma onProducerAck_sets_one_ack_witness :
  onProducerAck (Sample.pp ManualCommit 4 Sample.q3)
                (Sample.produced 103%positive (Sample.incoming 3%positive 12))
  = Ok (Sample.pp ManualCommit 4
          [Sample.group 1%positive 10 true false;
           Sample.group 2%positive 11 true true;
           Sample.group 3%positive 12 true false]).
Proof.
  apply (onProducerAck_sets_one_ack (Sample.pp ManualCommit 4 Sample.q3)).
  exists (Sample.incoming 3%positive 12), 2%nat,
         (Sample.group 3%positive 12 false false), 0%nat,
         {| msg := Sample.produced 103%positive (Sample.incoming 3%positive 12);
            ack := false |}.
  split; [reflexivity|]. split; [|split].
  - split; [reflexivity|]. split; [reflexivity|].
    intros [|[|j]] y Hj Hy; try lia; vm_compute in Hy; by injection Hy as <-.
  - split; [reflexivity|]. split; [reflexivity|]. intros j y Hj. lia.
  - vm_compute. reflexivity.
Defined.

(* ===================================================================== *)
(** ** newPartitionProcessor *)
(* ===================================================================== *)

Lemma openTopics_spec (tp : TopicProcessor) (consumer : Consumer) (partition : Z)
    (topics : list string) :
  forall (i : nat) (pcs : list (option PartitionConsumer))
         (poms : gmap string PartitionOffsetManager),
    (forall t, t ∈ topics -> brokerOpens tp consumer partition t) ->
    (i + length topics <= length pcs)%nat ->
    exists pcs' poms',
      openTopics tp consumer partition i topics pcs poms = Ok (pcs', poms') /\
      length pcs' = length pcs /\
      (forall k : nat, (k < i)%nat -> pcs' !! k = pcs !! k) /\
      (forall (k : nat) (topic : string), topics !! k = Some topic ->
         exists (pom : PartitionOffsetManager) (newestOffset : Z),
           ManagePartition (offsetManager tp) topic (Int.int32 partition) = inl pom /\
           GetOffset (client tp) topic (Int.int32 partition) OffsetNewest
             = inl newestOffset /\
           pcs' !! (i + k)%nat =
             Some (Some {| pc_topic := topic;
                           pc_partition := Int.int32 partition;
                           pc_offset := if (NextOffset pom).1 >? newestOffset
                                        then OffsetNewest
                                        else (NextOffset pom).1 |})) /\
      (forall t, t ∈ topics \/ is_Some (poms !! t) -> is_Some (poms' !! t)).
Proof.
  induction topics as [|topic topics IH]; intros i pcs poms Hopens Hlen.
  { exists pcs, poms. split; [done|]. split; [done|]. split; [done|].
    split; [done|]. intros t [Hin|Hs]; [|done]. exfalso. by eapply not_elem_of_nil. }
  destruct (Hopens topic (list_elem_of_here _ _)) as (pom & mo & Hpom & Hmo & Herr).
  simpl in Hlen. simpl. rewrite Hpom, Hmo. simpl.
  unfold ConsumePartition. rewrite Herr. simpl.
  set (c := {| pc_topic := topic; pc_partition := Int.int32 partition;
               pc_offset := if (NextOffset pom).1 >? mo then OffsetNewest
                            else (NextOffset pom).1 |}).
  destruct (IH (S i) (<[i := Some c]> pcs) (<[topic := pom]> poms))
    as (pcs' & poms' & Heq & Hlen' & Hbefore & Hat & Hdom).
  { intros t Ht. by apply Hopens, list_elem_of_further. }
  { rewrite length_insert. lia. }
  exists pcs', poms'. split; [exact Heq|].
  split; [by rewrite Hlen', length_insert|]. split; [|split].
  - intros k Hk. rewrite Hbefore by lia. apply list_lookup_insert_ne. lia.
  - intros [|k] t Ht; simpl in Ht.
    + injection Ht as <-. exists pom, mo. split; [done|]. split; [done|].
      rewrite Nat.add_0_r, Hbefore by lia. apply list_lookup_insert_eq. lia.
    + destruct (Hat k t Ht) as (pom' & mo' & Hpom' & Hmo' & Hpc).
      exists pom', mo'. split; [done|]. split; [done|].
      by replace (i + S k)%nat with (S i + k)%nat by lia.
  - intros t [[->|Hin]%elem_of_cons|Hs]; apply Hdom.
    + right. rewrite lookup_insert_eq. by eexists.
    + by left.
    + right. destruct (decide (topic = t)) as [->|Hne].
      * rewrite lookup_insert_eq. by eexists.
      * by rewrite lookup_insert_ne.
Qed.

(** A constructor loop that is left normally had every call answered. *)
Lemma openTopics_Ok_opens (tp : TopicProcessor) (consumer : Consumer) (partition : Z)
    (topics : list string) :
  forall (i : nat) (pcs : list (option PartitionConsumer))
         (poms : gmap string PartitionOffsetManager) r,
    openTopics tp consumer partition i topics pcs poms = Ok r ->
    forall t, t ∈ topics -> brokerOpens tp consumer partition t.
Proof.
  induction topics as [|topic topics IH]; intros i pcs poms r Hopen t Ht;
    [exfalso; by eapply not_elem_of_nil|].
  simpl in Hopen.
  destruct (ManagePartition (offsetManager tp) topic (Int.int32 partition))
    as [pom|] eqn:Hpom; [|done]. simpl in Hopen.
  destruct (GetOffset (client tp) topic (Int.int32 partition) OffsetNewest)
    as [mo|] eqn:Hmo; [|done]. simpl in Hopen.
  unfold ConsumePartition in Hopen.
  destruct (ConsumePartition_err consumer topic (Int.int32 partition) _)
    as [e|] eqn:Herr; [done|]. simpl in Hopen.
  apply elem_of_cons in Ht as [->|Ht]; [|by eapply IH].
  by exists pom, mo.
Qed.

(** C2. A processor that [newPartitionProcessor] returns has, for the
    [i]-th input topic, a partition consumer that was opened on that
    topic and partition at the persisted next offset [no] if [no] is at
    most the newest offset [mo] of the log, and at [OffsetNewest], the
    request to start at the newest offset, if [no] exceeds [mo].  And
    the constructor does return when the broker answers its calls. *)
Theorem newPartitionProcessor_start_offsets (tp : TopicProcessor)
    (mp : MessageProcessor) (partition : Z) :
  (forall pp : partitionProcessor,
     newPartitionProcessor tp mp partition = Ok pp ->
     length (partitionConsumers pp) = length (tp_inputTopics tp) /\
     forall (i : nat) (topic : string),
       tp_inputTopics tp !! i = Some topic ->
       exists (pom : PartitionOffsetManager) (no mo : Z) (c : PartitionConsumer),
         ManagePartition (offsetManager tp) topic (Int.int32 partition) = inl pom /\
         NextOffset pom = (no, (NextOffset pom).2) /\
         GetOffset (client tp) topic (Int.int32 partition) OffsetNewest = inl mo /\
         partitionConsumers pp !! i = Some (Some c) /\
         pc_topic c = topic /\
         pc_partition c = Int.int32 partition /\
         (no <= mo -> pc_offset c = no) /\
         (no > mo -> pc_offset c = OffsetNewest)) /\
  (forall consumer : Consumer,
     NewConsumerFromClient (client tp) = inl consumer ->
     (forall t, t ∈ tp_inputTopics tp -> brokerOpens tp consumer partition t) ->
     exists pp, newPartitionProcessor tp mp partition = Ok pp).
Proof.
  unfold newPartitionProcessor. split.
  - intros pp.
    destruct (NewConsumerFromClient (client tp)) as [consumer|e]; [|done]. simpl.
    destruct (openTopics tp consumer partition 0 (tp_inputTopics tp) _ ∅)
      as [[pcs0 poms0]| |] eqn:Hopen; [|done..].
    destruct (openTopics_spec tp consumer partition (tp_inputTopics tp) 0
                (replicate (length (tp_inputTopics tp)) None) ∅
                (openTopics_Ok_opens _ _ _ _ _ _ _ _ Hopen))
      as (pcs & poms & Heq & Hlen & _ & Hat & _).
    { rewrite length_replicate. lia. }
    rewrite Hopen in Heq. injection Heq as -> ->. simpl. intros [= <-]. simpl.
    split; [by rewrite Hlen, length_replicate|].
    intros i topic Hi. destruct (Hat i topic Hi) as (pom & mo & Hpom & Hmo & Hpc).
    exists pom, (NextOffset pom).1, mo. eexists.
    split; [exact Hpom|]. split; [by destruct (NextOffset pom)|].
    split; [exact Hmo|]. split; [exact Hpc|]. simpl.
    split; [done|]. split; [done|]. split.
    + intros Hle. destruct ((NextOffset pom).1 >? mo) eqn:Hgt; [|done].
      apply Z.gtb_lt in Hgt. lia.
    + intros Hgt. destruct ((NextOffset pom).1 >? mo) eqn:Hgt'; [done|].
      pose proof (Zgt_cases (NextOffset pom).1 mo) as Hc. rewrite Hgt' in Hc. lia.
  - intros consumer Hconsumer Hopens. rewrite Hconsumer. simpl.
    destruct (openTopics_spec tp consumer partition (tp_inputTopics tp) 0
                (replicate (length (tp_inputTopics tp)) None) ∅ Hopens)
      as (pcs & poms & Heq & _).
    { rewrite length_replicate. lia. }
    rewrite Heq. simpl. by eexists.
Qed.

(** C2 on the restart scenario: the persisted next offset is 1000000,
    the log ends at 42, and the consumer is opened at [OffsetNewest]. *)
Lemma newPartitionProcessor_start_offsets_witness :
  exists pp,
    newPartitionProcessor (Sample.tp AutomaticCommit 4 1000000) Sample.echo 0 = Ok pp /\
    partitionConsumers pp =
      [Some {| pc_topic := "t"; pc_partition := 0; pc_offset := OffsetNewest |}].
Proof.
  destruct (newPartitionProcessor_start_offsets
              (Sample.tp AutomaticCommit 4 1000000) Sample.echo 0)
    as [Hstart Hreturns].
  destruct (Hreturns Sample.theConsumer eq_refl) as [pp Heq].
  { intros t Ht. exists (Sample.pom 1000000), 42. by repeat split. }
  exists pp. split; [exact Heq|].
  destruct (Hstart pp Heq) as [Hlen Hat].
  destruct (Hat 0%nat "t" eq_refl)
    as (pom & no & mo & c & Hpom & Hno & Hmo & Hc & Htopic & Hpart & _ & Hnewest).
  injection Hpom as <-. injection Hmo as <-. injection Hno as <-.
  destruct (partitionConsumers pp) as [|c0 [|c1 rest]]; try discriminate Hlen.
  injection Hc as ->. destruct c as [ct cp co]. simpl in *.
  rewrite Htopic, Hpart, (Hnewest ltac:(lia)). reflexivity.
Defined.

(** The constructor gives every input topic its offset manager. *)
Lemma newPartitionProcessor_managed (tp : TopicProcessor) (mp : MessageProcessor)
    (partition : Z) (pp : partitionProcessor) :
  newPartitionProcessor tp mp partition = Ok pp -> managed pp.
Proof.
  unfold newPartitionProcessor.
  destruct (NewConsumerFromClient (client tp)) as [consumer|err]; [|done]. simpl.
  generalize (replicate (length (tp_inputTopics tp)) (@None PartitionConsumer)).
  generalize (∅ : gmap string PartitionOffsetManager). generalize 0%nat.
  intros i poms pcs.
  destruct (openTopics tp consumer partition i (tp_inputTopics tp) pcs poms)
    as [[pcs' poms']| |] eqn:Hopen; [|done..].
  simpl. intros [= <-]. unfold managed. simpl.
  revert i pcs poms pcs' poms' Hopen.
  induction (tp_inputTopics tp) as [|topic topics IH];
    intros i pcs poms pcs' poms' Hopen t Ht; [exfalso; by eapply not_elem_of_nil|].
  simpl in Hopen.
  destruct (ManagePartition (offsetManager tp) topic (Int.int32 partition))
    as [pom|]; [|done]. simpl in Hopen.
  destruct (GetOffset (client tp) topic (Int.int32 partition) OffsetNewest)
    as [mo|]; [|done]. simpl in Hopen.
  destruct (ConsumePartition consumer topic (Int.int32 partition) _) as [c|];
    [|done]. simpl in Hopen.
  destruct (decide (t ∈ topics)) as [Hin|Hnin]; [by eapply IH|].
  apply elem_of_cons in Ht as [->|Ht]; [|done].
  clear IH. revert i pcs poms Hopen.
  generalize (Some c). intros oc i pcs poms. revert oc i pcs.
  generalize pom. revert poms.
  induction topics as [|topic' topics IH]; intros poms pom0 oc i pcs Hopen.
  { simpl in Hopen. injection Hopen as <- <-. rewrite lookup_insert_eq. by eexists. }
  apply not_elem_of_cons in Hnin as [Hne Hnin]. simpl in Hopen.
  destruct (ManagePartition (offsetManager tp) topic' (Int.int32 partition))
    as [pom'|]; [|done]. simpl in Hopen.
  destruct (GetOffset (client tp) topic' (Int.int32 partition) OffsetNewest)
    as [mo'|]; [|done]. simpl in Hopen.
  destruct (ConsumePartition consumer topic' (Int.int32 partition) _) as [c'|];
    [|done]. simpl in Hopen.
  rewrite insert_insert_ne in Hopen by done.
  by eapply (IH Hnin).
Qed.

(* ===================================================================== *)
(** ** How the operations of the processor compose *)
(* ===================================================================== *)

Lemma markLoop_fixed (topic : string) (q : list inFlightMessageGroup) (offset : Z)
    (pp : partitionProcessor) :
  completedPrefix q = [] -> markLoop topic q offset pp = Ok (pp, offset).
Proof.
  destruct q as [|g rest]; [done|]. simpl.
  by destruct (allAcksAreTrue g).
Qed.

(** On a queue with no completed head, a pass changes nothing and makes
    no call. *)
Lemma markOffsetsForTopicIfPossible_fixed (pp : partitionProcessor) (topic : string) :
  completedPrefix (queue pp topic) = [] ->
  markOffsetsForTopicIfPossible pp topic = Ok pp.
Proof.
  intros Hcp. unfold markOffsetsForTopicIfPossible.
  by rewrite markLoop_fixed.
Qed.

Lemma markOffsetsForTopics_fixed (topics : list string) (pp : partitionProcessor) :
  (forall t, t ∈ topics -> completedPrefix (queue pp t) = []) ->
  markOffsetsForTopics topics pp = Ok pp.
Proof.
  induction topics as [|topic topics IH]; intros Hcp; [done|].
  simpl. rewrite markOffsetsForTopicIfPossible_fixed
    by apply Hcp, list_elem_of_here.
  simpl. apply IH. intros t Ht. by apply Hcp, list_elem_of_further.
Qed.

(** X1. A second run of [markOffsetsIfPossible], with no acknowledgement
    in between, returns the processor the first run left: no queue
    changes and no further [MarkOffset] call is made. *)
Theorem markOffsetsIfPossible_idempotent (pp pp' : partitionProcessor) :
  markOffsetsIfPossible pp = Ok pp' ->
  markOffsetsIfPossible pp' = Ok pp'.
Proof.
  unfold markOffsetsIfPossible. intros Hrun.
  destruct (markOffsetsForTopics_Ok _ _ _ Hrun) as (Htp & _ & Hin & _).
  rewrite Htp. apply markOffsetsForTopics_fixed. intros t Ht.
  destruct (Hin t Ht) as [-> _]. apply completedPrefix_after.
Qed.

Lemma markOffsetsIfPossible_idempotent_witness :
  exists pp',
    markOffsetsIfPossible (Sample.pp AutomaticCommit 4 Sample.q3) = Ok pp' /\
    markOffsetsIfPossible pp' = Ok pp' /\
    marksOf pp' "t" = [(12, "")].
Proof.
  destruct (markOffsetsIfPossible (Sample.pp AutomaticCommit 4 Sample.q3))
    as [pp'| |] eqn:Hrun; try discriminate.
  exists pp'. split; [reflexivity|].
  split; [exact (markOffsetsIfPossible_idempotent _ _ Hrun)|].
  vm_compute in Hrun. injection Hrun as <-. reflexivity.
Defined.

(** What the interior prune removes is part of the completed head. *)
Lemma completedPrefix_pruned (q : list inFlightMessageGroup) :
  exists gone : list inFlightMessageGroup,
    q = gone ++ pruned q /\
    completedPrefix q = gone ++ completedPrefix (pruned q).
Proof.
  induction q as [|h rest IH]; [by exists []|].
  destruct rest as [|n rest']; [by exists []|].
  change (pruned (h :: n :: rest')) with
    (if negb (allAcksAreTrue h) || negb (allAcksAreTrue n)
     then h :: n :: rest' else pruned (n :: rest')).
  destruct (negb (allAcksAreTrue h) || negb (allAcksAreTrue n)) eqn:Hb;
    [by exists []|].
  apply orb_false_elim in Hb as [Hh Hn]. apply negb_false_iff in Hh.
  destruct IH as (gone & Hq & Hcp). exists (h :: gone).
  split; [by rewrite <- app_comm_cons, <- Hq|].
  change (completedPrefix (h :: n :: rest')) with
    (if allAcksAreTrue h then h :: completedPrefix (n :: rest') else []).
  rewrite Hh. by rewrite <- app_comm_cons, <- Hcp.
Qed.

Lemma afterCompletedPrefix_pruned (q : list inFlightMessageGroup) :
  afterCompletedPrefix (pruned q) = afterCompletedPrefix q.
Proof.
  induction q as [|h rest IH]; [done|].
  destruct rest as [|n rest']; [done|].
  change (pruned (h :: n :: rest')) with
    (if negb (allAcksAreTrue h) || negb (allAcksAreTrue n)
     then h :: n :: rest' else pruned (n :: rest')).
  destruct (negb (allAcksAreTrue h) || negb (allAcksAreTrue n)) eqn:Hb; [done|].
  apply orb_false_elim in Hb as [Hh Hn]. apply negb_false_iff in Hh.
  rewrite IH.
  change (afterCompletedPrefix (h :: n :: rest')) with
    (if allAcksAreTrue h then afterCompletedPrefix (n :: rest') else h :: n :: rest').
  by rewrite Hh.
Qed.

Lemma last_completedPrefix_pruned (q : list inFlightMessageGroup) :
  last (completedPrefix (pruned q)) = last (completedPrefix q).
Proof.
  induction q as [|h rest IH]; [done|].
  destruct rest as [|n rest']; [done|].
  change (pruned (h :: n :: rest')) with
    (if negb (allAcksAreTrue h) || negb (allAcksAreTrue n)
     then h :: n :: rest' else pruned (n :: rest')).
  destruct (negb (allAcksAreTrue h) || negb (allAcksAreTrue n)) eqn:Hb; [done|].
  apply orb_false_elim in Hb as [Hh Hn]. apply negb_false_iff in Hh, Hn.
  rewrite IH.
  change (completedPrefix (h :: n :: rest')) with
    (if allAcksAreTrue h then h :: completedPrefix (n :: rest') else []).
  rewrite Hh. simpl. by rewrite Hn.
Qed.

(** The calls of one pass on a queue, set against those on the pruned
    queue. *)
Lemma topicMarks_pruned (config : TopicProcessorConfig)
    (q : list inFlightMessageGroup) :
  exists gone : list inFlightMessageGroup,
    q = gone ++ pruned q /\
    topicMarks config q =
      (if markOffsetsManually config
       then map markFor (List.filter committed gone) else [])
      ++ topicMarks config (pruned q).
Proof.
  destruct (completedPrefix_pruned q) as (gone & Hq & Hcp).
  exists gone. split; [exact Hq|].
  unfold topicMarks, markOffsetsManually.
  destruct (commitDiscipline config).
  - by rewrite Hcp, List.filter_app, map_app.
  - by rewrite last_completedPrefix_pruned.
Qed.

(** X2. Pruning before marking never changes the queues marking leaves.
    In automatic mode it does not change the [MarkOffset] calls either.
    In manual mode the calls for the committed groups the prune has
    removed are not made: they are missing from the front of the calls,
    and the others are made as without the prune. *)
Theorem prune_then_mark (pp p1 p2 : partitionProcessor) :
  markOffsetsIfPossible pp = Ok p1 ->
  markOffsetsIfPossible (onProcessCompleted pp) = Ok p2 ->
  (forall t, queue p2 t = queue p1 t) /\
  (markOffsetsAutomatically (config (topicProcessor pp)) = true ->
   forall t, marksOf p2 t = marksOf p1 t) /\
  (markOffsetsManually (config (topicProcessor pp)) = true ->
   forall t, t ∈ tp_inputTopics (topicProcessor pp) ->
     exists (gone : list inFlightMessageGroup) (new : list (Z * string)),
       queue pp t = gone ++ queue (onProcessCompleted pp) t /\
       marksOf p2 t = marksOf pp t ++ new /\
       marksOf p1 t = marksOf pp t ++ map markFor (List.filter committed gone) ++ new).
Proof.
  unfold markOffsetsIfPossible, onProcessCompleted, pruneInFlightMessageGroups.
  set (topics := tp_inputTopics (topicProcessor pp)).
  pose proof (prune_topics_sameButQueues topics pp) as Hsame.
  rewrite (sameButQueues_topicProcessor _ _ Hsame). fold topics.
  intros Hrun1 Hrun2.
  destruct (markOffsetsForTopics_Ok _ _ _ Hrun1) as (_ & _ & Hin1 & Hout1).
  destruct (markOffsetsForTopics_Ok _ _ _ Hrun2) as (_ & _ & Hin2 & Hout2).
  rewrite (sameButQueues_topicProcessor _ _ Hsame) in Hin2.
  assert (Hmarks0 : forall t,
            marksOf (fold_left pruneInFlightMessageGroupsForTopic topics pp) t
            = marksOf pp t).
  { intros t. unfold marksOf. by rewrite (sameButQueues_offsetManagers _ _ Hsame). }
  assert (Hq2 : forall t, t ∈ topics ->
            queue p2 t = afterCompletedPrefix (queue pp t) /\
            marksOf p2 t = marksOf pp t ++
              topicMarks (config (topicProcessor pp)) (pruned (queue pp t))).
  { intros t Ht. destruct (Hin2 t Ht) as [Hq Hm].
    rewrite prune_topics_queue, decide_True in Hq, Hm by exact Ht.
    rewrite afterCompletedPrefix_pruned in Hq. by rewrite Hmarks0 in Hm. }
  split; [|split].
  - intros t. destruct (decide (t ∈ topics)) as [Ht|Ht].
    + destruct (Hin1 t Ht) as [-> _]. by destruct (Hq2 t Ht) as [-> _].
    + destruct (Hout1 t Ht) as [-> _]. destruct (Hout2 t Ht) as [-> _].
      by rewrite prune_topics_queue, decide_False.
  - intros Hauto t. destruct (decide (t ∈ topics)) as [Ht|Ht].
    + destruct (Hin1 t Ht) as [_ ->]. destruct (Hq2 t Ht) as [_ ->].
      destruct (topicMarks_pruned (config (topicProcessor pp)) (queue pp t))
        as (gone & _ & ->).
      unfold markOffsetsAutomatically, markOffsetsManually in *.
      by destruct (commitDiscipline (config (topicProcessor pp))).
    + destruct (Hout1 t Ht) as [_ ->]. destruct (Hout2 t Ht) as [_ ->].
      apply Hmarks0.
  - intros Hmanual t Ht.
    destruct (topicMarks_pruned (config (topicProcessor pp)) (queue pp t))
      as (gone & Hgone & Hmarks).
    exists gone, (topicMarks (config (topicProcessor pp)) (pruned (queue pp t))).
    split; [by rewrite prune_topics_queue, decide_True|].
    destruct (Hq2 t Ht) as [_ ->]. split; [done|].
    destruct (Hin1 t Ht) as [_ ->]. by rewrite Hmarks, Hmanual.
Qed.

(** X2 on a queue of two completed groups, the first of them committed:
    in manual mode the prune removes the committed group and its offset
    is never marked. *)
Lemma prune_then_mark_witness :
  let pp := Sample.pp ManualCommit 4
              [Sample.group 1%positive 10 true true;
               Sample.group 2%positive 11 true false] in
  exists p1 p2,
    markOffsetsIfPossible pp = Ok p1 /\
    markOffsetsIfPossible (onProcessCompleted pp) = Ok p2 /\
    queue p2 "t" = queue p1 "t" /\
    marksOf p1 "t" = [(11, "")] /\ marksOf p2 "t" = [].
Proof.
  intros pp.
  destruct (markOffsetsIfPossible pp) as [p1| |] eqn:H1; try discriminate.
  destruct (markOffsetsIfPossible (onProcessCompleted pp)) as [p2| |] eqn:H2;
    try discriminate.
  exists p1, p2. split; [reflexivity|]. split; [reflexivity|].
  destruct (prune_then_mark pp p1 p2 H1 H2) as (Hq & _ & _).
  split; [apply Hq|].
  vm_compute in H1, H2. injection H1 as <-. injection H2 as <-.
  split; reflexivity.
Defined.

Lemma afterCompletedPrefix_length (q : list inFlightMessageGroup) :
  (length (afterCompletedPrefix q) <= length q)%nat.
Proof.
  induction q as [|g rest IH]; simpl; [lia|].
  destruct (allAcksAreTrue g); simpl; lia.
Qed.

(** X3. Neither prune lengthens a queue, so a topic that is ready for a
    message stays ready across [onProcessCompleted] and across
    [markOffsetsIfPossible]. *)
Theorem prunes_keep_ready (pp : partitionProcessor) (m : ConsumerMessage) :
  (forall t, (length (queue (onProcessCompleted pp) t) <= length (queue pp t))%nat) /\
  (forall pp', markOffsetsIfPossible pp = Ok pp' ->
     forall t, (length (queue pp' t) <= length (queue pp t))%nat) /\
  (isReadyForMessage pp m = true ->
     isReadyForMessage (onProcessCompleted pp) m = true /\
     forall pp', markOffsetsIfPossible pp = Ok pp' ->
       isReadyForMessage pp' m = true).
Proof.
  assert (Hprune : forall t,
            (length (queue (onProcessCompleted pp) t) <= length (queue pp t))%nat).
  { intros t. unfold onProcessCompleted, pruneInFlightMessageGroups.
    rewrite prune_topics_queue. case_decide; [apply pruned_length | lia]. }
  assert (Hmark : forall pp', markOffsetsIfPossible pp = Ok pp' ->
            forall t, (length (queue pp' t) <= length (queue pp t))%nat).
  { unfold markOffsetsIfPossible. intros pp' Hrun t.
    destruct (markOffsetsForTopics_Ok _ _ _ Hrun) as (_ & _ & Hin & Hout).
    destruct (decide (t ∈ tp_inputTopics (topicProcessor pp))) as [Ht|Ht].
    - destruct (Hin t Ht) as [-> _]. apply afterCompletedPrefix_length.
    - destruct (Hout t Ht) as [-> _]. lia. }
  split; [exact Hprune|]. split; [exact Hmark|].
  unfold isReadyForMessage. intros Hready%Z.leb_le. split.
  - pose proof (prune_topics_sameButQueues (tp_inputTopics (topicProcessor pp)) pp)
      as Hsame%sameButQueues_topicProcessor.
    unfold onProcessCompleted, pruneInFlightMessageGroups in *. rewrite Hsame.
    apply Z.leb_le. specialize (Hprune (cm_Topic m)). lia.
  - intros pp' Hrun. specialize (Hmark pp' Hrun (cm_Topic m)).
    unfold markOffsetsIfPossible in Hrun.
    destruct (markOffsetsForTopics_Ok _ _ _ Hrun) as (-> & _).
    apply Z.leb_le. lia.
Qed.

Lemma prunes_keep_ready_witness :
  let m := {| cm_Key := "k"; cm_Value := "v"; cm_Topic := "t"; cm_Partition := 0;
              cm_Offset := 13; cm_Timestamp := 0 |} in
  isReadyForMessage (Sample.pp AutomaticCommit 4 Sample.q3) m = true /\
  isReadyForMessage (onProcessCompleted (Sample.pp AutomaticCommit 4 Sample.q3)) m
    = true.
Proof.
  intros m. split; [reflexivity|].
  destruct (prunes_keep_ready (Sample.pp AutomaticCommit 4 Sample.q3) m)
    as (_ & _ & Hready).
  exact (proj1 (Hready eq_refl)).
Defined.

(* ===================================================================== *)
(** ** More on onProducerAck *)
(* ===================================================================== *)

Lemma forallb_ack_insert (ms : list inFlightMessage) (j : nat) (m : inFlightMessage) :
  forallb ack ms = true -> forallb ack (<[j := with_ack true m]> ms) = true.
Proof.
  revert j. induction ms as [|a rest IH]; intros j; [done|].
  simpl. intros [Ha Hrest]%andb_true_iff.
  destruct j as [|j]; simpl; [exact Hrest|]. by rewrite Ha, IH.
Qed.

Lemma sameGroupButAcks_refl (g : inFlightMessageGroup) : sameGroupButAcks g g.
Proof. by repeat split. Qed.

Lemma ackGroup_shape (origin : ptr IncomingMessage) (sentMessage : ptr ProducerMessage)
    (q q' : list inFlightMessageGroup) :
  ackGroup origin sentMessage q = Ok q' -> Forall2 sameGroupButAcks q q'.
Proof.
  intros (i & g & j & m & (Hi & _ & _) & (Hj & _ & _) & ->)%ackGroup_Ok.
  apply Forall2_same_length_lookup. split; [by rewrite length_insert|].
  intros k x y Hx Hy. destruct (decide (k = i)) as [->|Hne].
  - rewrite list_lookup_insert_eq in Hy by by eapply lookup_lt_Some.
    injection Hy as <-. rewrite Hi in Hx. injection Hx as <-.
    split; [done|]. split; [done|]. simpl. split.
    + rewrite list_fmap_insert. apply list_insert_id.
      by rewrite list_lookup_fmap, Hj.
    + apply forallb_ack_insert.
  - rewrite list_lookup_insert_ne in Hy by done.
    rewrite Hx in Hy. injection Hy as <-. apply sameGroupButAcks_refl.
Qed.

(** X4. An acknowledgement keeps every queue as long as it was and every
    group where it was, with its input record, its [committed] flag and
    its messages; a group that was complete stays complete; and the
    answer of [isReadyForMessage] is the same after it as before, for
    every message. *)
Theorem onProducerAck_keeps_groups (pp pp' : partitionProcessor)
    (sentMessage : ptr ProducerMessage) :
  onProducerAck pp sentMessage = Ok pp' ->
  (forall t, Forall2 sameGroupButAcks (queue pp t) (queue pp' t)) /\
  (forall m, isReadyForMessage pp' m = isReadyForMessage pp m) /\
  (forall t, marksOf pp' t = marksOf pp t).
Proof.
  unfold onProducerAck.
  destruct (Metadata (pointee sentMessage)) as [origin|]; [|done].
  destruct (ackGroup origin sentMessage (queue pp (Topic (pointee origin))))
    as [groups| |] eqn:Hack; [|done..].
  simpl. intros [= <-]. apply ackGroup_shape in Hack.
  assert (Hq : forall t,
            Forall2 sameGroupButAcks (queue pp t)
              (queue (set_queue (Topic (pointee origin)) groups pp) t)).
  { intros t. destruct (decide (Topic (pointee origin) = t)) as [<-|Hne].
    - by rewrite queue_set_queue_eq.
    - rewrite queue_set_queue_ne by done.
      apply Forall_Forall2_diag, Forall_forall. intros. apply sameGroupButAcks_refl. }
  split; [exact Hq|]. split; [|done].
  intros m. unfold isReadyForMessage. simpl.
  by rewrite <- (Forall2_length _ _ _ (Hq (cm_Topic m))).
Qed.

Lemma onProducerAck_keeps_groups_witness :
  exists pp',
    onProducerAck (Sample.pp ManualCommit 4 Sample.q3)
                  (Sample.produced 103%positive (Sample.incoming 3%positive 12))
      = Ok pp' /\
    length (queue pp' "t") = 3%nat.
Proof.
  destruct (onProducerAck (Sample.pp ManualCommit 4 Sample.q3)
              (Sample.produced 103%positive (Sample.incoming 3%positive 12)))
    as [pp'| |] eqn:Hack; try discriminate.
  exists pp'. split; [reflexivity|].
  destruct (onProducerAck_keeps_groups _ _ _ Hack) as (Hq & _).
  by rewrite <- (Forall2_length _ _ _ (Hq "t")).
Defined.

Lemma ackInFlightMessage_idem (sentMessage : ptr ProducerMessage)
    (ms ms' : list inFlightMessage) :
  ackInFlightMessage sentMessage ms = Some ms' ->
  ackInFlightMessage sentMessage ms' = Some ms'.
Proof.
  revert ms'. induction ms as [|a rest IH]; intros ms'; [done|]. simpl.
  destruct (ptr_eqb (msg a) sentMessage) eqn:Ha.
  - intros [= <-]. simpl. by rewrite Ha.
  - destruct (ackInFlightMessage sentMessage rest) as [rest'|]; [|done].
    simpl. intros [= <-]. simpl. by rewrite Ha, (IH rest').
Qed.

Lemma ackGroup_idem (origin : ptr IncomingMessage) (sentMessage : ptr ProducerMessage)
    (q q' : list inFlightMessageGroup) :
  ackGroup origin sentMessage q = Ok q' ->
  ackGroup origin sentMessage q' = Ok q'.
Proof.
  revert q'. induction q as [|g rest IH]; intros q'; [done|]. simpl.
  destruct (ptr_eqb (incomingMessage g) origin) eqn:Hg.
  - destruct (ackInFlightMessage sentMessage (inFlightMessages g)) as [ms|] eqn:Hms;
      [|done].
    intros [= <-]. simpl. rewrite Hg.
    by rewrite (ackInFlightMessage_idem _ _ _ Hms).
  - destruct (ackGroup origin sentMessage rest) as [rest'| |]; [|done..].
    simpl. intros [= <-]. simpl. by rewrite Hg, (IH rest').
Qed.

(** X5. The same acknowledgement a second time finds its message again
    and changes nothing. *)
Theorem onProducerAck_idempotent (pp pp' : partitionProcessor)
    (sentMessage : ptr ProducerMessage) :
  onProducerAck pp sentMessage = Ok pp' ->
  onProducerAck pp' sentMessage = Ok pp'.
Proof.
  unfold onProducerAck.
  destruct (Metadata (pointee sentMessage)) as [origin|]; [|done].
  destruct (ackGroup origin sentMessage (queue pp (Topic (pointee origin))))
    as [groups| |] eqn:Hack; [|done..].
  simpl. intros [= <-]. rewrite queue_set_queue_eq.
  rewrite (ackGroup_idem _ _ _ _ Hack). simpl.
  unfold set_queue, with_inFlightMessageGroups. simpl.
  by rewrite insert_insert_eq.
Qed.

Lemma onProducerAck_idempotent_witness :
  exists pp',
    onProducerAck (Sample.pp ManualCommit 4 Sample.q3)
                  (Sample.produced 103%positive (Sample.incoming 3%positive 12))
      = Ok pp' /\
    onProducerAck pp' (Sample.produced 103%positive (Sample.incoming 3%positive 12))
      = Ok pp'.
Proof.
  destruct (onProducerAck (Sample.pp ManualCommit 4 Sample.q3)
              (Sample.produced 103%positive (Sample.incoming 3%positive 12)))
    as [pp'| |] eqn:Hack; try discriminate.
  exists pp'. split; [reflexivity|].
  exact (onProducerAck_idempotent _ _ _ Hack).
Defined.

Lemma ackInFlightMessage_missing (sentMessage : ptr ProducerMessage)
    (ms : list inFlightMessage) :
  (forall m, m ∈ ms -> ptr_eqb (msg m) sentMessage = false) ->
  ackInFlightMessage sentMessage ms = None.
Proof.
  induction ms as [|a rest IH]; intros Hno; [done|]. simpl.
  rewrite (Hno a) by apply list_elem_of_here.
  rewrite IH; [done|]. intros m Hm. by apply Hno, list_elem_of_further.
Qed.

Lemma ackGroup_no_group (origin : ptr IncomingMessage)
    (sentMessage : ptr ProducerMessage) (q : list inFlightMessageGroup) :
  (forall g, g ∈ q -> ptr_eqb (incomingMessage g) origin = false) ->
  ackGroup origin sentMessage q
  = Fatal "Could not find group in inFlightMessageGroups".
Proof.
  induction q as [|g rest IH]; intros Hno; [done|]. simpl.
  rewrite (Hno g) by apply list_elem_of_here.
  rewrite IH; [done|]. intros g' Hg'. by apply Hno, list_elem_of_further.
Qed.

Lemma ackGroup_no_message (origin : ptr IncomingMessage)
    (sentMessage : ptr ProducerMessage) (q : list inFlightMessageGroup)
    (i : nat) (g : inFlightMessageGroup) :
  firstAt (fun g => ptr_eqb (incomingMessage g) origin) q i g ->
  (forall m, m ∈ inFlightMessages g -> ptr_eqb (msg m) sentMessage = false) ->
  ackGroup origin sentMessage q
  = Fatal "Could not find producer message in inFlightMessageGroups".
Proof.
  revert i. induction q as [|a rest IH]; intros i Hfirst Hno.
  { by destruct Hfirst as [Hi _]. }
  apply firstAt_cons_inv in Hfirst as [(-> & -> & Ha)|(i' & -> & Ha & Hfirst)].
  - simpl. rewrite Ha. by rewrite ackInFlightMessage_missing.
  - simpl. rewrite Ha. by rewrite (IH i' Hfirst Hno).
Qed.

(** X6. When [onProducerAck] does not return: it panics on a message
    whose metadata holds no input record; it is fatal when no group of
    the queue of the record's topic belongs to that record (as for a
    group already removed); and it is fatal when the first group that
    belongs to it does not hold the message, whatever later groups
    hold. *)
Theorem onProducerAck_failures (pp : partitionProcessor)
    (sentMessage : ptr ProducerMessage) :
  (Metadata (pointee sentMessage) = None ->
   exists msg : string, onProducerAck pp sentMessage = Panic msg) /\
  (forall origin : ptr IncomingMessage,
     Metadata (pointee sentMessage) = Some origin ->
     (forall g, g ∈ queue pp (Topic (pointee origin)) ->
        ptr_eqb (incomingMessage g) origin = false) ->
     onProducerAck pp sentMessage
     = Fatal "Could not find group in inFlightMessageGroups") /\
  (forall (origin : ptr IncomingMessage) (i : nat) (g : inFlightMessageGroup),
     Metadata (pointee sentMessage) = Some origin ->
     firstAt (fun g => ptr_eqb (incomingMessage g) origin)
             (queue pp (Topic (pointee origin))) i g ->
     (forall m, m ∈ inFlightMessages g -> ptr_eqb (msg m) sentMessage = false) ->
     onProducerAck pp sentMessage
     = Fatal "Could not find producer message in inFlightMessageGroups").
Proof.
  unfold onProducerAck. split; [intros ->; by eexists|]. split.
  - intros origin -> Hno. by rewrite ackGroup_no_group.
  - intros origin i g -> Hfirst Hno. by erewrite ackGroup_no_message.
Qed.

(** X6 on an acknowledgement that arrives after its group has been
    marked and removed. *)
Lemma onProducerAck_failures_witness :
  exists pp',
    markOffsetsIfPossible (Sample.pp AutomaticCommit 4 Sample.q3) = Ok pp' /\
    onProducerAck pp' (Sample.produced 101%positive (Sample.incoming 1%positive 10))
    = Fatal "Could not find group in inFlightMessageGroups".
Proof.
  destruct (markOffsetsIfPossible (Sample.pp AutomaticCommit 4 Sample.q3))
    as [pp'| |] eqn:Hrun; try discriminate.
  exists pp'. split; [reflexivity|].
  destruct (onProducerAck_failures pp'
              (Sample.produced 101%positive (Sample.incoming 1%positive 10)))
    as (_ & Hgroup & _).
  apply (Hgroup (Sample.incoming 1%positive 10) eq_refl).
  vm_compute in Hrun. injection Hrun as <-.
  intros g Hg. vm_compute in Hg.
  apply list_elem_of_singleton in Hg as ->. reflexivity.
Defined.

(* ===================================================================== *)
(** ** The states the processor goes through *)
(* ===================================================================== *)

(** What a [process] that returns has done, in full. *)
Lemma process_Ok_inv (pp pp' : partitionProcessor) (m : ConsumerMessage)
    (out : list (ptr ProducerMessage)) :
  process pp m = Ok (pp', out) ->
  exists topicSerde : TopicSerde,
    TopicSerdes (config (topicProcessor pp)) !! cm_Topic m = Some topicSerde /\
    let incoming := incomingOf topicSerde m in
    let origin := Ptr (nextAddress pp) incoming in
    let actions := messageProcessor pp incoming in
    out = submissions origin actions /\
    pp' = set_queue (cm_Topic m)
            (queue pp (cm_Topic m) ++
             [ {| incomingMessage := origin;
                  inFlightMessages := map (fun m => {| msg := m; ack := false |}) out;
                  committed := commitRequested actions |} ])
            (with_commitNextInFlightMessageGroup (commitRequested actions)
               (with_nextAddress (Pos.succ (nextAddress pp)) pp)).
Proof.
  unfold process.
  destruct (TopicSerdes (config (topicProcessor pp)) !! cm_Topic m)
    as [topicSerde|]; [|done].
  cbv zeta. rewrite Process_spec. intros [= <- <-]. by exists topicSerde.
Qed.

Lemma onProducerAck_Ok_inv (pp pp' : partitionProcessor)
    (sentMessage : ptr ProducerMessage) :
  onProducerAck pp sentMessage = Ok pp' ->
  exists (origin : ptr IncomingMessage) (groups : list inFlightMessageGroup),
    Metadata (pointee sentMessage) = Some origin /\
    ackGroup origin sentMessage (queue pp (Topic (pointee origin))) = Ok groups /\
    pp' = set_queue (Topic (pointee origin)) groups pp.
Proof.
  unfold onProducerAck.
  destruct (Metadata (pointee sentMessage)) as [origin|]; [|done].
  destruct (ackGroup origin sentMessage (queue pp (Topic (pointee origin))))
    as [groups| |] eqn:Hack; [|done..].
  simpl. intros [= <-]. by exists origin, groups.
Qed.

Lemma MarkOffset_nextAddress (topic : string) (offset : Z) (metadata : string)
    (pp pp' : partitionProcessor) :
  MarkOffset topic offset metadata pp = Ok pp' -> nextAddress pp' = nextAddress pp.
Proof.
  unfold MarkOffset. destruct (offsetManagers pp !! topic); [|done].
  by intros [= <-].
Qed.

Lemma markLoop_nextAddress (topic : string) (q : list inFlightMessageGroup) :
  forall (offset offset' : Z) (pp pp' : partitionProcessor),
    markLoop topic q offset pp = Ok (pp', offset') ->
    nextAddress pp' = nextAddress pp.
Proof.
  induction q as [|g rest IH]; intros offset offset' pp pp'; [by intros [= <- _]|].
  simpl. destruct (allAcksAreTrue g); simpl; [|by intros [= <- _]].
  destruct (committed g && markOffsetsManually (config (topicProcessor pp))).
  - destruct (MarkOffset topic _ "" pp) as [pp1| |] eqn:Hmark; [|done..].
    simpl. intros Hrun%IH. simpl in Hrun.
    by rewrite Hrun, (MarkOffset_nextAddress _ _ _ _ _ Hmark).
  - simpl. by intros Hrun%IH.
Qed.

Lemma markOffsetsForTopics_nextAddress (topics : list string) :
  forall pp pp' : partitionProcessor,
    markOffsetsForTopics topics pp = Ok pp' -> nextAddress pp' = nextAddress pp.
Proof.
  induction topics as [|topic topics IH]; intros pp pp'; [by intros [= <-]|].
  simpl. unfold markOffsetsForTopicIfPossible at 1.
  destruct (markLoop topic (queue pp topic) (-1) pp) as [[pp1 offset]| |] eqn:Hloop;
    [|done..].
  simpl. apply markLoop_nextAddress in Hloop.
  destruct (negb (offset =? -1) && _).
  - destruct (MarkOffset topic _ "" pp1) as [pp2| |] eqn:Hmark; [|done..].
    simpl. intros Hrun%IH.
    by rewrite Hrun, (MarkOffset_nextAddress _ _ _ _ _ Hmark).
  - simpl. intros Hrun%IH. congruence.
Qed.

Lemma pruned_suffix (q : list inFlightMessageGroup) :
  exists gone, q = gone ++ pruned q.
Proof. destruct (completedPrefix_pruned q) as (gone & Hq & _). by exists gone. Qed.

(** The two facts about origins that the operations keep, for a queue
    that has lost a prefix. *)
Lemma origins_suffix (bound : addr) (gone q : list inFlightMessageGroup) :
  (forall g, g ∈ gone ++ q -> (originAddress g < bound)%positive) ->
  NoDup (originAddress <$> gone ++ q) ->
  (forall g, g ∈ q -> (originAddress g < bound)%positive) /\
  NoDup (originAddress <$> q).
Proof.
  intros Hfresh Hnodup. split.
  - intros g Hg. apply Hfresh, elem_of_app. by right.
  - rewrite fmap_app in Hnodup. by apply NoDup_app in Hnodup as (_ & _ & ?).
Qed.

Lemma step_keeps_origins (pp pp' : partitionProcessor) :
  step pp pp' ->
  managed pp /\ freshOrigins pp /\ distinctOrigins pp ->
  managed pp' /\ freshOrigins pp' /\ distinctOrigins pp' /\
  topicProcessor pp' = topicProcessor pp.
Proof.
  intros Hstep (Hman & Hfresh & Hdist). destruct Hstep as
    [pp pp' m out Hproc | pp | pp pp' sent Hack | pp pp' Hmark].
  - destruct (process_Ok_inv _ _ _ _ Hproc) as (topicSerde & _ & _ & ->).
    split; [exact Hman|]. split; [|split; [|done]].
    + intros t g. destruct (decide (cm_Topic m = t)) as [<-|Hne].
      * rewrite queue_set_queue_eq. simpl.
        intros [Hg| ->%list_elem_of_singleton]%elem_of_app.
        -- specialize (Hfresh _ _ Hg). lia.
        -- unfold originAddress. simpl. lia.
      * rewrite queue_set_queue_ne by done. simpl.
        intros Hg. specialize (Hfresh t g Hg). lia.
    + intros t. destruct (decide (cm_Topic m = t)) as [<-|Hne].
      * rewrite queue_set_queue_eq, fmap_app. apply NoDup_app.
        split; [apply Hdist|]. split; [|apply NoDup_singleton].
        intros a (g & -> & Hg)%list_elem_of_fmap Ha.
        apply list_elem_of_singleton in Ha. unfold originAddress in Ha at 2.
        simpl in Ha. specialize (Hfresh _ _ Hg). lia.
      * rewrite queue_set_queue_ne by done. apply Hdist.
  - unfold onProcessCompleted, pruneInFlightMessageGroups.
    pose proof (prune_topics_sameButQueues (tp_inputTopics (topicProcessor pp)) pp)
      as Hsame.
    assert (Hsub : forall t, exists gone,
              queue pp t = gone ++
                queue (fold_left pruneInFlightMessageGroupsForTopic
                         (tp_inputTopics (topicProcessor pp)) pp) t).
    { intros t. rewrite prune_topics_queue.
      case_decide; [apply pruned_suffix | by exists []]. }
    split; [|split; [|split]].
    + intros t. rewrite (sameButQueues_topicProcessor _ _ Hsame),
        (sameButQueues_offsetManagers _ _ Hsame). apply Hman.
    + intros t g Hg. destruct (Hsub t) as [gone Hq].
      rewrite Hsame. simpl. apply (Hfresh t). rewrite Hq. apply elem_of_app. by right.
    + intros t. destruct (Hsub t) as [gone Hq]. specialize (Hdist t).
      rewrite Hq, fmap_app in Hdist. by apply NoDup_app in Hdist as (_ & _ & ?).
    + by apply sameButQueues_topicProcessor.
  - destruct (onProducerAck_Ok_inv _ _ _ Hack) as (origin & groups & _ & Hgroups & ->).
    apply ackGroup_shape in Hgroups.
    assert (Horigins : forall t,
              originAddress <$> queue (set_queue (Topic (pointee origin)) groups pp) t
              = originAddress <$> queue pp t).
    { intros t. destruct (decide (Topic (pointee origin) = t)) as [<-|Hne].
      - rewrite queue_set_queue_eq. symmetry.
        apply list_eq_same_length with (length groups).
        + by rewrite length_fmap.
        + by rewrite length_fmap, (Forall2_length _ _ _ Hgroups).
        + intros i x y _. rewrite !list_lookup_fmap.
          destruct (queue pp (Topic (pointee origin)) !! i) as [g|] eqn:Hg; [|done].
          destruct (groups !! i) as [g'|] eqn:Hg'; [|done].
          intros [= <-] [= <-].
          destruct (Forall2_lookup_lr _ _ _ _ _ _ Hgroups Hg Hg') as (Heq & _).
          unfold originAddress. by rewrite Heq.
      - by rewrite queue_set_queue_ne. }
    split; [exact Hman|]. split; [|split; [|done]].
    + intros t g Hg. simpl.
      assert (Ha : originAddress g ∈ originAddress <$> queue pp t).
      { rewrite <- Horigins. by apply list_elem_of_fmap_2. }
      apply list_elem_of_fmap in Ha as (g0 & -> & Hg0). by apply (Hfresh t).
    + intros t. rewrite Horigins. apply Hdist.
  - unfold markOffsetsIfPossible in Hmark.
    destruct (markOffsetsForTopics_Ok _ _ _ Hmark) as (Htp & Hp & Hin & Hout).
    assert (Hsub : forall t, exists gone, queue pp t = gone ++ queue pp' t).
    { intros t. destruct (decide (t ∈ tp_inputTopics (topicProcessor pp))) as [Ht|Ht].
      - destruct (Hin t Ht) as [-> _]. eexists. apply completedPrefix_app.
      - destruct (Hout t Ht) as [-> _]. by exists []. }
    split; [|split; [|split; [|exact Htp]]].
    + intros t Ht. rewrite Htp in Ht. by apply Hp, Hman.
    + intros t g Hg. destruct (Hsub t) as [gone Hq].
      rewrite (markOffsetsForTopics_nextAddress _ _ _ Hmark).
      apply (Hfresh t). rewrite Hq. apply elem_of_app. by right.
    + intros t. destruct (Hsub t) as [gone Hq]. specialize (Hdist t).
      rewrite Hq, fmap_app in Hdist. by apply NoDup_app in Hdist as (_ & _ & ?).
Qed.

(** X7. In every state the processor reaches from its constructor by
    calls of [process], [onProcessCompleted], [onProducerAck] and
    [markOffsetsIfPossible] that return: every input topic has its
    offset manager, so [markOffsetsIfPossible] returns; the queued
    groups belong to input records allocated before [nextAddress]; and
    no two groups of a queue belong to the same input record. *)
Theorem reachable_invariant (tp : TopicProcessor) (mp : MessageProcessor)
    (partition : Z) (pp : partitionProcessor) :
  reachable tp mp partition pp ->
  topicProcessor pp = tp /\
  managed pp /\ freshOrigins pp /\ distinctOrigins pp /\
  exists pp', markOffsetsIfPossible pp = Ok pp'.
Proof.
  intros Hreach.
  assert (Hinv : topicProcessor pp = tp /\
                 managed pp /\ freshOrigins pp /\ distinctOrigins pp).
  { induction Hreach as [pp Hnew | pp pp' _ IH Hstep].
    - split; [|split; [by eapply newPartitionProcessor_managed|]].
      + unfold newPartitionProcessor in Hnew.
        destruct (NewConsumerFromClient (client tp)); [|done]. simpl in Hnew.
        destruct (openTopics _ _ _ _ _ _ _) as [[pcs poms]| |]; [|done..].
        by injection Hnew as <-.
      + assert (Hq : forall t, queue pp t = []).
        { unfold newPartitionProcessor in Hnew.
          destruct (NewConsumerFromClient (client tp)); [|done]. simpl in Hnew.
          destruct (openTopics _ _ _ _ _ _ _) as [[pcs poms]| |]; [|done..].
          injection Hnew as <-. intros t. unfold queue. simpl.
          by rewrite lookup_empty. }
        split.
        * intros t g. rewrite Hq. by intros ?%elem_of_nil.
        * intros t. rewrite Hq. apply NoDup_nil_2.
    - destruct IH as (Htp & Hinv).
      destruct (step_keeps_origins _ _ Hstep Hinv) as (Hm & Hf & Hd & Htp').
      split; [congruence | done]. }
  destruct Hinv as (Htp & Hman & Hfresh & Hdist).
  split; [done|]. split; [done|]. split; [done|]. split; [done|].
  unfold markOffsetsIfPossible. by apply markOffsetsForTopics_returns.
Qed.

(** X7 on the sample broker: the constructor, then one input record. *)
Lemma reachable_invariant_witness :
  exists pp,
    reachable (Sample.tp ManualCommit 4 10) Sample.echo 0 pp /\
    length (queue pp "t") = 1%nat /\
    exists pp', markOffsetsIfPossible pp = Ok pp'.
Proof.
  destruct (newPartitionProcessor (Sample.tp ManualCommit 4 10) Sample.echo 0)
    as [pp0| |] eqn:Hnew; try discriminate.
  destruct (process pp0 {| cm_Key := "k"; cm_Value := "v"; cm_Topic := "t";
                           cm_Partition := 0; cm_Offset := 10; cm_Timestamp := 0 |})
    as [[pp1 out]| |] eqn:Hproc;
    [|vm_compute in Hnew; injection Hnew as <-; discriminate Hproc..].
  assert (Hreach : reachable (Sample.tp ManualCommit 4 10) Sample.echo 0 pp1).
  { eapply reachable_step; [by apply reachable_new|]. by eapply step_process. }
  exists pp1. split; [exact Hreach|]. split.
  - vm_compute in Hnew. injection Hnew as <-.
    vm_compute in Hproc. by injection Hproc as <- _.
  - by destruct (reachable_invariant _ _ _ _ Hreach) as (_ & _ & _ & _ & ?).
Defined.

(* ===================================================================== *)
(** ** From process to a completed group *)
(* ===================================================================== *)

Lemma submissions_Metadata (origin : ptr IncomingMessage) (actions : list UserAction)
    (m : ptr ProducerMessage) :
  m ∈ submissions origin actions -> Metadata (pointee m) = Some origin.
Proof.
  induction actions as [|[m0|] actions IH]; simpl.
  - by intros ?%elem_of_nil.
  - intros [->|Hm]%elem_of_cons; [done | by apply IH].
  - exact IH.
Qed.

Lemma ackInFlightMessage_hit (sentMessage : ptr ProducerMessage)
    (before after : list inFlightMessage) (x : inFlightMessage) :
  (forall a, a ∈ before -> ptr_eqb (msg a) sentMessage = false) ->
  ptr_eqb (msg x) sentMessage = true ->
  ackInFlightMessage sentMessage (before ++ x :: after)
  = Some (before ++ with_ack true x :: after).
Proof.
  induction before as [|a before IH]; intros Hno Hx; simpl.
  - by rewrite Hx.
  - rewrite (Hno a) by apply list_elem_of_here.
    rewrite IH; [done | | done]. intros b Hb. by apply Hno, list_elem_of_further.
Qed.

Lemma ackGroup_last (origin : ptr IncomingMessage) (sentMessage : ptr ProducerMessage)
    (q : list inFlightMessageGroup) (g : inFlightMessageGroup)
    (ms : list inFlightMessage) :
  (forall g', g' ∈ q -> ptr_eqb (incomingMessage g') origin = false) ->
  ptr_eqb (incomingMessage g) origin = true ->
  ackInFlightMessage sentMessage (inFlightMessages g) = Some ms ->
  ackGroup origin sentMessage (q ++ [g]) = Ok (q ++ [with_inFlightMessages ms g]).
Proof.
  intros Hno Hg Hms. induction q as [|a q IH]; simpl.
  - by rewrite Hg, Hms.
  - rewrite (Hno a) by apply list_elem_of_here.
    rewrite IH; [done|]. intros g' Hg'. by apply Hno, list_elem_of_further.
Qed.

Lemma acks_complete_last (topic : string) (origin : ptr IncomingMessage)
    (isCommitted : bool) (q : list inFlightMessageGroup)
    (waiting : list (ptr ProducerMessage)) :
  forall (acked : list (ptr ProducerMessage)) (pp : partitionProcessor),
    Topic (pointee origin) = topic ->
    queue pp topic = q ++ [groupOf origin isCommitted acked waiting] ->
    (forall g', g' ∈ q -> ptr_eqb (incomingMessage g') origin = false) ->
    NoDup (address <$> acked ++ waiting) ->
    (forall m, m ∈ waiting -> Metadata (pointee m) = Some origin) ->
    exists pp',
      onProducerAcks pp waiting = Ok pp' /\
      queue pp' topic = q ++ [groupOf origin isCommitted (acked ++ waiting) []] /\
      forall t, topic ≠ t -> queue pp' t = queue pp t.
Proof.
  induction waiting as [|m waiting IH]; intros acked pp Htopic Hq Hno Hnodup Hmd.
  { exists pp. split; [done|]. by rewrite app_nil_r. }
  simpl. unfold onProducerAck.
  rewrite (Hmd m) by apply list_elem_of_here. rewrite Htopic, Hq.
  assert (Hhit : ackInFlightMessage m
                   (inFlightMessages (groupOf origin isCommitted acked (m :: waiting)))
                 = Some (inFlightMessages
                           (groupOf origin isCommitted (acked ++ [m]) waiting))).
  { unfold groupOf. simpl. rewrite map_app. simpl. rewrite <- app_assoc. simpl.
    apply (ackInFlightMessage_hit m _ _ {| msg := m; ack := false |}).
    - intros a (x & <- & Hx%list_elem_of_In)%list_elem_of_In%in_map_iff.
      simpl. unfold ptr_eqb. apply Pos.eqb_neq. intros Heq.
      rewrite fmap_app in Hnodup. apply NoDup_app in Hnodup as (_ & Hdisj & _).
      apply (Hdisj (address x)); [by apply list_elem_of_fmap_2|].
      rewrite Heq. simpl. apply list_elem_of_here.
    - unfold ptr_eqb. simpl. apply Pos.eqb_refl. }
  assert (Hself : ptr_eqb
                    (incomingMessage (groupOf origin isCommitted acked (m :: waiting)))
                    origin = true) by apply Pos.eqb_refl.
  rewrite (ackGroup_last origin m q _ _ Hno Hself Hhit). simpl.
  destruct (IH (acked ++ [m])
              (set_queue topic
                 (q ++ [with_inFlightMessages
                          (inFlightMessages
                             (groupOf origin isCommitted (acked ++ [m]) waiting))
                          (groupOf origin isCommitted acked (m :: waiting))]) pp))
    as (pp' & Hrun & Hq' & Hother).
  - exact Htopic.
  - by rewrite queue_set_queue_eq.
  - exact Hno.
  - by rewrite <- app_assoc.
  - intros x Hx. by apply Hmd, list_elem_of_further.
  - exists pp'. split; [exact Hrun|]. split; [by rewrite Hq', <- app_assoc|].
    intros t Hne. rewrite Hother by done. by apply queue_set_queue_ne.
Qed.

(** X8. After a [process], on a processor whose queued groups belong to
    records allocated earlier, the acknowledgements of the producer
    messages it returned (pairwise distinct pointers), taken in order,
    all find their message, and they leave the group [process] appended
    complete at the end of its queue, with the other groups and the
    other queues as [process] left them. *)
Theorem process_then_acks (pp pp' : partitionProcessor) (m : ConsumerMessage)
    (out : list (ptr ProducerMessage)) :
  freshOrigins pp ->
  process pp m = Ok (pp', out) ->
  NoDup (address <$> out) ->
  exists (pp'' : partitionProcessor) (g : inFlightMessageGroup),
    onProducerAcks pp' out = Ok pp'' /\
    queue pp'' (cm_Topic m) = queue pp (cm_Topic m) ++ [g] /\
    allAcksAreTrue g = true /\
    msg <$> inFlightMessages g = out /\
    offsetOf g = cm_Offset m /\
    forall t, queue pp'' t = if decide (cm_Topic m = t)
                             then queue pp t ++ [g] else queue pp t.
Proof.
  intros Hfresh Hproc Hnodup.
  destruct (process_Ok_inv _ _ _ _ Hproc) as (topicSerde & _ & Hout & Hpp').
  cbv zeta in Hout, Hpp'.
  set (origin := Ptr (nextAddress pp) (incomingOf topicSerde m)) in *.
  set (b := commitRequested (messageProcessor pp (incomingOf topicSerde m))) in *.
  destruct (acks_complete_last (cm_Topic m) origin b (queue pp (cm_Topic m)) out
              [] pp') as (pp'' & Hrun & Hq & Hother).
  - reflexivity.
  - rewrite Hpp'. by rewrite queue_set_queue_eq.
  - intros g' Hg'. unfold ptr_eqb. apply Pos.eqb_neq.
    specialize (Hfresh _ _ Hg'). unfold originAddress in Hfresh. simpl. lia.
  - exact Hnodup.
  - intros x Hx. rewrite Hout in Hx. by eapply submissions_Metadata.
  - exists pp'', (groupOf origin b out []). split; [exact Hrun|].
    split; [exact Hq|]. split; [|split; [|split; [done|]]].
    + unfold allAcksAreTrue, groupOf. simpl. rewrite app_nil_r.
      clear. by induction out.
    + unfold groupOf. simpl. rewrite app_nil_r.
      clear. induction out as [|x out IH]; [done|]. simpl. by f_equal.
    + intros t. case_decide as Ht; [by subst|].
      rewrite Hother by done. rewrite Hpp'. by rewrite queue_set_queue_ne.
Qed.

Lemma Sample_q3_fresh (d : CommitDiscipline) (maxGroups : Z) :
  freshOrigins (Sample.pp d maxGroups Sample.q3).
Proof.
  intros t g Hg. destruct (decide (t = "t")) as [->|Hne].
  - vm_compute in Hg.
    repeat (apply elem_of_cons in Hg as [->|Hg]; [vm_compute; reflexivity|]).
    exfalso. by eapply not_elem_of_nil.
  - unfold queue in Hg. simpl in Hg. rewrite lookup_singleton_ne in Hg by done.
    exfalso. by eapply not_elem_of_nil.
Defined.

(** X8 on the sample processor, whose user code submits one record. *)
Lemma process_then_acks_witness :
  exists pp' out pp'' g,
    process (Sample.pp ManualCommit 4 Sample.q3)
            {| cm_Key := "k"; cm_Value := "v"; cm_Topic := "t"; cm_Partition := 0;
               cm_Offset := 13; cm_Timestamp := 0 |} = Ok (pp', out) /\
    onProducerAcks pp' out = Ok pp'' /\
    queue pp'' "t" = Sample.q3 ++ [g] /\ allAcksAreTrue g = true.
Proof.
  destruct (process (Sample.pp ManualCommit 4 Sample.q3)
              {| cm_Key := "k"; cm_Value := "v"; cm_Topic := "t"; cm_Partition := 0;
                 cm_Offset := 13; cm_Timestamp := 0 |})
    as [[pp' out]| |] eqn:Hproc; try discriminate.
  destruct (process_then_acks _ _ _ _ (Sample_q3_fresh _ _) Hproc)
    as (pp'' & g & Hrun & Hq & Hg & _).
  - vm_compute in Hproc. injection Hproc as _ <-. vm_compute.
    apply NoDup_singleton.
  - exists pp', out, pp'', g. split; [reflexivity|]. by repeat split.
Defined.

(** X9. An input record for which the user code submits nothing, taken
    on an empty queue of an input topic, is complete at once: the next
    [markOffsetsIfPossible] removes its group again, and it marks the
    record's offset + 1 in automatic mode, and in manual mode only if
    the user code asked for a commit. *)
Theorem silent_record_then_mark (pp pp1 : partitionProcessor) (m : ConsumerMessage) :
  managed pp ->
  cm_Topic m ∈ tp_inputTopics (topicProcessor pp) ->
  queue pp (cm_Topic m) = [] ->
  0 <= cm_Offset m < Int.max_int64 ->
  process pp m = Ok (pp1, []) ->
  exists pp2,
    markOffsetsIfPossible pp1 = Ok pp2 /\
    queue pp2 (cm_Topic m) = [] /\
    marksOf pp2 (cm_Topic m) =
      marksOf pp (cm_Topic m) ++
      (if markOffsetsAutomatically (config (topicProcessor pp))
          || commitNextInFlightMessageGroup pp1
       then [(cm_Offset m + 1, "")] else []).
Proof.
  intros Hman Htopic Hempty Hoff Hproc.
  destruct (process_Ok_inv _ _ _ _ Hproc) as (topicSerde & _ & _ & Hpp1).
  cbv zeta in Hpp1. rewrite Hempty in Hpp1. simpl in Hpp1.
  set (g := {| incomingMessage := Ptr (nextAddress pp) (incomingOf topicSerde m);
               inFlightMessages := [];
               committed := commitRequested
                              (messageProcessor pp (incomingOf topicSerde m)) |}) in *.
  assert (Htp : topicProcessor pp1 = topicProcessor pp) by by rewrite Hpp1.
  assert (Hom : offsetManagers pp1 = offsetManagers pp) by by rewrite Hpp1.
  assert (Hq1 : queue pp1 (cm_Topic m) = [g])
    by by rewrite Hpp1, queue_set_queue_eq.
  assert (Hman1 : managed pp1).
  { intros t Ht. rewrite Htp in Ht. rewrite Hom. by apply Hman. }
  unfold markOffsetsIfPossible. rewrite Htp.
  destruct (markOffsetsForTopics_returns (tp_inputTopics (topicProcessor pp)) pp1)
    as [pp2 Hrun].
  { intros t Ht. apply Hman1. by rewrite Htp. }
  exists pp2. split; [exact Hrun|].
  destruct (markOffsetsForTopics_Ok _ _ _ Hrun) as (_ & _ & Hin & _).
  destruct (Hin _ Htopic) as [Hq2 Hm2]. rewrite Hq1 in Hq2, Hm2.
  split; [exact Hq2|]. rewrite Hm2, Htp.
  assert (Hm1 : marksOf pp1 (cm_Topic m) = marksOf pp (cm_Topic m))
    by (unfold marksOf; by rewrite Hom).
  rewrite Hm1. f_equal.
  assert (Hmark : markFor g = (cm_Offset m + 1, "")).
  { apply markFor_logOffset. exact Hoff. }
  assert (Hflag : commitNextInFlightMessageGroup pp1 = committed g)
    by by rewrite Hpp1.
  unfold topicMarks, markOffsetsAutomatically. rewrite Hflag.
  destruct (commitDiscipline (config (topicProcessor pp))); simpl.
  - destruct (commitRequested _); simpl; by rewrite ?Hmark.
  - change (offsetOf g) with (cm_Offset m).
    destruct (cm_Offset m =? -1) eqn:Hneg; [apply Z.eqb_eq in Hneg; lia|].
    by rewrite Hmark.
Qed.

(** X9 with user code that stays silent, in manual mode: the group is
    removed and no offset is marked. *)
Lemma silent_record_then_mark_witness :
  let pp := with_inFlightMessageGroups ∅
              (Sample.pp ManualCommit 4 []) in
  let silent := {| topicProcessor := topicProcessor pp; consumer := consumer pp;
                   partitionConsumers := partitionConsumers pp;
                   offsetManagers := offsetManagers pp;
                   messageProcessor := fun _ => [];
                   inputTopics := inputTopics pp; partition := partition pp;
                   inFlightMessageGroups := inFlightMessageGroups pp;
                   commitNextInFlightMessageGroup := true;
                   nextAddress := nextAddress pp |} in
  let m := {| cm_Key := "k"; cm_Value := "v"; cm_Topic := "t"; cm_Partition := 0;
              cm_Offset := 10; cm_Timestamp := 0 |} in
  exists pp1 pp2,
    process silent m = Ok (pp1, []) /\
    markOffsetsIfPossible pp1 = Ok pp2 /\
    queue pp2 "t" = [] /\ marksOf pp2 "t" = [].
Proof.
  intros pp silent m.
  destruct (process silent m) as [[pp1 out]| |] eqn:Hproc; try discriminate.
  assert (Hout : out = []) by (vm_compute in Hproc; by injection Hproc as _ <-).
  subst out. exists pp1.
  destruct (silent_record_then_mark silent pp1 m) as (pp2 & Hrun & Hq & Hm).
  - intros t Ht. apply list_elem_of_singleton in Ht as ->. by eexists.
  - apply list_elem_of_here.
  - reflexivity.
  - vm_compute. split; congruence.
  - exact Hproc.
  - exists pp2. split; [reflexivity|]. split; [exact Hrun|]. split; [exact Hq|].
    unfold m in Hm. simpl cm_Topic in Hm. rewrite Hm.
    vm_compute in Hproc. injection Hproc as <-. reflexivity.
Defined.

(* ===================================================================== *)
(** ** More on newPartitionProcessor *)
(* ===================================================================== *)

Lemma openTopics_managers (tp : TopicProcessor) (consumer : Consumer) (partition : Z)
    (topics : list string) :
  forall (i : nat) (pcs pcs' : list (option PartitionConsumer))
         (poms poms' : gmap string PartitionOffsetManager),
    openTopics tp consumer partition i topics pcs poms = Ok (pcs', poms') ->
    forall t : string,
      poms' !! t =
      if decide (t ∈ topics)
      then match ManagePartition (offsetManager tp) t (Int.int32 partition) with
           | inl pom => Some pom
           | inr _ => None
           end
      else poms !! t.
Proof.
  induction topics as [|topic topics IH]; intros i pcs pcs' poms poms' Hopen t.
  { injection Hopen as _ <-. by rewrite decide_False by apply not_elem_of_nil. }
  simpl in Hopen.
  destruct (ManagePartition (offsetManager tp) topic (Int.int32 partition))
    as [pom|] eqn:Hpom; [|done]. simpl in Hopen.
  destruct (GetOffset (client tp) topic (Int.int32 partition) OffsetNewest)
    as [mo|]; [|done]. simpl in Hopen.
  destruct (ConsumePartition consumer topic (Int.int32 partition) _) as [c|];
    [|done]. simpl in Hopen.
  rewrite (IH _ _ _ _ _ Hopen t).
  destruct (decide (t ∈ topics)) as [Hin|Hnin].
  - by rewrite decide_True by by apply list_elem_of_further.
  - destruct (decide (topic = t)) as [->|Hne].
    + rewrite decide_True by apply list_elem_of_here.
      by rewrite lookup_insert_eq, Hpom.
    + rewrite lookup_insert_ne by done. rewrite decide_False; [done|].
      intros [Heq|Hin]%elem_of_cons; [by subst | done].
Qed.

(** X10. The processor the constructor returns: it holds the topic
    processor, the message processor, the input topics and the partition
    it was given; its commit flag is down and every queue is empty; its
    offset managers are those [ManagePartition] answered for the input
    topics, and no others; and it is ready for any message exactly when
    the configured bound is not negative. *)
Theorem newPartitionProcessor_initial_state (tp : TopicProcessor)
    (mp : MessageProcessor) (number : Z) (pp : partitionProcessor) :
  newPartitionProcessor tp mp number = Ok pp ->
  topicProcessor pp = tp /\
  messageProcessor pp = mp /\
  inputTopics pp = tp_inputTopics tp /\
  partition pp = number /\
  commitNextInFlightMessageGroup pp = false /\
  (forall t, queue pp t = []) /\
  (forall t, offsetManagers pp !! t =
             if decide (t ∈ tp_inputTopics tp)
             then match ManagePartition (offsetManager tp) t (Int.int32 number) with
                  | inl pom => Some pom
                  | inr _ => None
                  end
             else None) /\
  (forall m, isReadyForMessage pp m
             = (0 <=? MaxInFlightMessageGroups (Config_ (config tp)))).
Proof.
  unfold newPartitionProcessor.
  destruct (NewConsumerFromClient (client tp)) as [consumer|]; [|done]. simpl.
  destruct (openTopics tp consumer number 0 (tp_inputTopics tp) _ ∅)
    as [[pcs poms]| |] eqn:Hopen; [|done..].
  simpl. intros [= <-]. simpl.
  split; [done|]. split; [done|]. split; [done|]. split; [done|]. split; [done|].
  assert (Hq : forall t,
            queue {| topicProcessor := tp; consumer := consumer;
                     partitionConsumers := pcs; offsetManagers := poms;
                     messageProcessor := mp; inputTopics := tp_inputTopics tp;
                     partition := number; inFlightMessageGroups := ∅;
                     commitNextInFlightMessageGroup := false;
                     nextAddress := 1%positive |} t = []).
  { intros t. unfold queue. simpl. by rewrite lookup_empty. }
  split; [exact Hq|]. split.
  - intros t. rewrite (openTopics_managers _ _ _ _ _ _ _ _ _ Hopen t).
    case_decide; [done | apply lookup_empty].
  - intros m. unfold isReadyForMessage. by rewrite Hq.
Qed.

(** X10 on the sample broker. *)
Lemma newPartitionProcessor_initial_state_witness :
  exists pp,
    newPartitionProcessor (Sample.tp ManualCommit 4 10) Sample.echo 0 = Ok pp /\
    queue pp "t" = [] /\
    offsetManagers pp !! "t" = Some (Sample.pom 10) /\
    offsetManagers pp !! "u" = None.
Proof.
  destruct (newPartitionProcessor (Sample.tp ManualCommit 4 10) Sample.echo 0)
    as [pp| |] eqn:Hnew; try discriminate.
  exists pp. split; [reflexivity|].
  destruct (newPartitionProcessor_initial_state _ _ _ _ Hnew)
    as (_ & _ & _ & _ & _ & Hq & Hom & _).
  split; [apply Hq|]. by rewrite !Hom.
Defined.

Lemma openTopics_failure (tp : TopicProcessor) (consumer : Consumer) (partition : Z)
    (topics : list string) :
  forall (i : nat) (pcs : list (option PartitionConsumer))
         (poms : gmap string PartitionOffsetManager),
    (forall msg, openTopics tp consumer partition i topics pcs poms ≠ Panic msg) /\
    (forall e, openTopics tp consumer partition i topics pcs poms = Fatal e ->
       exists topic, topic ∈ topics /\
         (ManagePartition (offsetManager tp) topic (Int.int32 partition) = inr e \/
          GetOffset (client tp) topic (Int.int32 partition) OffsetNewest = inr e \/
          exists o, ConsumePartition_err consumer topic (Int.int32 partition) o
                    = Some e)).
Proof.
  induction topics as [|topic topics IH]; intros i pcs poms; [done|].
  simpl.
  destruct (ManagePartition (offsetManager tp) topic (Int.int32 partition))
    as [pom|e0] eqn:Hpom; simpl.
  2:{ split; [done|]. intros e [= <-]. exists topic.
      split; [apply list_elem_of_here | by left]. }
  destruct (GetOffset (client tp) topic (Int.int32 partition) OffsetNewest)
    as [mo|e0] eqn:Hmo; simpl.
  2:{ split; [done|]. intros e [= <-]. exists topic.
      split; [apply list_elem_of_here | by right; left]. }
  unfold ConsumePartition.
  destruct (ConsumePartition_err consumer topic (Int.int32 partition) _)
    as [e0|] eqn:Herr; simpl.
  { split; [done|]. intros e [= <-]. exists topic.
    split; [apply list_elem_of_here | right; right; by eexists]. }
  destruct (IH (S i) (<[i := Some {| pc_topic := topic;
                                    pc_partition := Int.int32 partition;
                                    pc_offset := if (NextOffset pom).1 >? mo
                                                 then OffsetNewest
                                                 else (NextOffset pom).1 |}]> pcs)
              (<[topic := pom]> poms)) as [Hpanic Hfatal].
  split; [exact Hpanic|]. intros e He.
  destruct (Hfatal e He) as (t & Ht & Hcall). exists t.
  split; [by apply list_elem_of_further | exact Hcall].
Qed.

(** X11. The constructor never panics.  It is fatal with the error of
    [NewConsumerFromClient] when that call fails; and whenever it is
    fatal, its message is the error of that call or of a call of
    [ManagePartition], [GetOffset] or [ConsumePartition] for one of the
    input topics. *)
Theorem newPartitionProcessor_failures (tp : TopicProcessor)
    (mp : MessageProcessor) (number : Z) :
  (forall msg, newPartitionProcessor tp mp number ≠ Panic msg) /\
  (forall e, NewConsumerFromClient (client tp) = inr e ->
     newPartitionProcessor tp mp number = Fatal e) /\
  (forall e, newPartitionProcessor tp mp number = Fatal e ->
     NewConsumerFromClient (client tp) = inr e \/
     exists (consumer : Consumer) (topic : string),
       NewConsumerFromClient (client tp) = inl consumer /\
       topic ∈ tp_inputTopics tp /\
       (ManagePartition (offsetManager tp) topic (Int.int32 number) = inr e \/
        GetOffset (client tp) topic (Int.int32 number) OffsetNewest = inr e \/
        exists o, ConsumePartition_err consumer topic (Int.int32 number) o = Some e)).
Proof.
  unfold newPartitionProcessor.
  destruct (NewConsumerFromClient (client tp)) as [consumer|e0]; simpl.
  2:{ split; [done|]. split; [by intros e [= <-]|]. intros e [= <-]. by left. }
  destruct (openTopics_failure tp consumer number (tp_inputTopics tp) 0
              (replicate (length (tp_inputTopics tp)) None) ∅) as [Hpanic Hfatal].
  destruct (openTopics tp consumer number 0 (tp_inputTopics tp) _ ∅)
    as [[pcs poms]|e0|msg0]; simpl.
  - split; [done|]. split; done.
  - split; [done|]. split; [done|]. intros e [= <-]. right.
    destruct (Hfatal e0 eq_refl) as (t & Ht & Hcall). by exists consumer, t.
  - by destruct (Hpanic msg0).
Qed.

Lemma newPartitionProcessor_failures_witness :
  let tp := {| config := Sample.theConfig ManualCommit 4;
               client := {| NewConsumerFromClient := inr "kafka: client closed";
                            GetOffset := fun _ _ _ => inl 42 |};
               offsetManager := {| ManagePartition := fun _ _ => inl (Sample.pom 10) |};
               tp_inputTopics := ["t"] |} in
  newPartitionProcessor tp Sample.echo 0 = Fatal "kafka: client closed".
Proof.
  intros tp.
  destruct (newPartitionProcessor_failures tp Sample.echo 0) as (_ & Hconsumer & _).
  exact (Hconsumer "kafka: client closed" eq_refl).
Defined.

(* ===================================================================== *)
(** ** The order of the marked offsets *)
(* ===================================================================== *)

Lemma sorted_marks (P : inFlightMessageGroup -> bool) (l : list inFlightMessageGroup) :
  StronglySorted Z.lt (offsetOf <$> l) ->
  StronglySorted Z.lt ((fun g => offsetOf g + 1) <$> List.filter P l).
Proof.
  induction l as [|g l IH]; [constructor|]. simpl.
  intros [Hl Hg]%StronglySorted_inv. destruct (P g); [|by apply IH].
  simpl. constructor; [by apply IH|].
  apply Forall_forall. intros o (x & -> & Hx)%list_elem_of_fmap.
  apply list_elem_of_In, filter_In in Hx as [Hx%list_elem_of_In _].
  rewrite Forall_forall in Hg.
  specialize (Hg (offsetOf x) (list_elem_of_fmap_2 _ _ _ Hx)). lia.
Qed.

Lemma sorted_app_lt (l1 l2 : list inFlightMessageGroup) (x y : inFlightMessageGroup) :
  StronglySorted Z.lt (offsetOf <$> l1 ++ l2) ->
  x ∈ l1 -> y ∈ l2 -> offsetOf x < offsetOf y.
Proof.
  induction l1 as [|a l1 IH]; [by intros _ ?%elem_of_nil|]. simpl.
  intros [Hl Ha]%StronglySorted_inv [->|Hx]%elem_of_cons Hy; [|by apply IH].
  rewrite Forall_forall in Ha. apply Ha, list_elem_of_fmap_2, elem_of_app. by right.
Qed.

Lemma sorted_app_l (l1 l2 : list inFlightMessageGroup) :
  StronglySorted Z.lt (offsetOf <$> l1 ++ l2) ->
  StronglySorted Z.lt (offsetOf <$> l1).
Proof.
  induction l1 as [|a l1 IH]; [constructor|]. simpl.
  intros [Hl Ha]%StronglySorted_inv. constructor; [by apply IH|].
  rewrite fmap_app in Ha. by apply Forall_app in Ha as [? _].
Qed.

(** X12. When the offsets of a queue increase strictly along it (and are
    offsets of log records), the offsets one run of
    [markOffsetsIfPossible] marks for that topic increase strictly too,
    and none of them exceeds the offset of a group the run leaves in the
    queue: what is still in flight is never marked as read. *)
Theorem marks_increase (pp pp' : partitionProcessor) (t : string) :
  markOffsetsIfPossible pp = Ok pp' ->
  t ∈ tp_inputTopics (topicProcessor pp) ->
  logOffsets (queue pp t) ->
  StronglySorted Z.lt (offsetOf <$> queue pp t) ->
  exists new : list (Z * string),
    marksOf pp' t = marksOf pp t ++ new /\
    StronglySorted Z.lt (new.*1) /\
    forall (o : Z) (g : inFlightMessageGroup),
      o ∈ new.*1 -> g ∈ queue pp' t -> o <= offsetOf g.
Proof.
  unfold markOffsetsIfPossible. intros Hrun Ht Hlog Hsorted.
  destruct (markOffsetsForTopics_Ok _ _ _ Hrun) as (_ & _ & Hin & _).
  destruct (Hin t Ht) as [Hq Hm].
  exists (topicMarks (config (topicProcessor pp)) (queue pp t)).
  split; [exact Hm|]. rewrite (topicMarks_logOffsets _ _ Hlog), Hq.
  pose proof (completedPrefix_app (queue pp t)) as Happ.
  rewrite Happ in Hsorted.
  assert (Hbelow : forall x g, x ∈ completedPrefix (queue pp t) ->
            g ∈ afterCompletedPrefix (queue pp t) -> offsetOf x + 1 <= offsetOf g).
  { intros x g Hx Hg. pose proof (sorted_app_lt _ _ x g Hsorted Hx Hg). lia. }
  destruct (commitDiscipline (config (topicProcessor pp))).
  - split.
    + rewrite <- list_fmap_compose.
      apply (sorted_marks committed), (sorted_app_l _ _ Hsorted).
    + intros o g (mk & -> & (x & -> & Hx)%list_elem_of_fmap)%list_elem_of_fmap Hg.
      simpl. apply Hbelow; [|done].
      by apply list_elem_of_In, filter_In in Hx as [Hx%list_elem_of_In _].
  - destruct (last (completedPrefix (queue pp t))) as [x|] eqn:Hlast.
    + split; [repeat constructor|].
      intros o g ->%list_elem_of_singleton Hg. simpl.
      apply Hbelow; [by eapply last_Some_elem_of | done].
    + split; [constructor|]. by intros o g ?%elem_of_nil.
Qed.

Lemma marks_increase_witness :
  exists pp' new,
    markOffsetsIfPossible (Sample.pp ManualCommit 4 Sample.q3) = Ok pp' /\
    marksOf pp' "t" = marksOf (Sample.pp ManualCommit 4 Sample.q3) "t" ++ new /\
    StronglySorted Z.lt (new.*1).
Proof.
  destruct (markOffsetsIfPossible (Sample.pp ManualCommit 4 Sample.q3))
    as [pp'| |] eqn:Hrun; try discriminate.
  destruct (marks_increase _ _ "t" Hrun) as (new & Hm & Hsorted & _).
  - apply list_elem_of_here.
  - intros g Hg. vm_compute in Hg.
    repeat (apply elem_of_cons in Hg as [->|Hg]; [vm_compute; split; congruence|]).
    exfalso. by eapply not_elem_of_nil.
  - vm_compute. repeat constructor.
  - by exists pp', new.
Defined.
(* ===================================================================== *)
(** ** Properties of the key-value store *)
(* ===================================================================== *)

Import kv.

Section StoreProperties.

Context {Server : Type}.

Implicit Type s : ElasticsearchKeyValueStore Server.

Lemma putMapping_frame (indexName indexType : string) s (u : unit) s' :
  putMapping indexName indexType s = Ok (u, s') ->
  witness s' = witness s /\ client s' = client s.
Proof.
  unfold putMapping, mbind, M_bind, bind, send.
  destruct (PutMapping _ _ _ _ _) as [[resp err] srv].
  destruct err as [e|]; [done|]. destruct resp as [resp|]; [|done].
  destruct (negb (Acknowledged resp)); [done|]. by intros [= _ <-].
Qed.

Lemma checkOrCreateIndex_frame (indexName indexType : string) s (u : unit) s' :
  checkOrCreateIndex indexName indexType s = Ok (u, s') ->
  witness s' = witness s /\ client s' = client s.
Proof.
  unfold checkOrCreateIndex, mbind, M_bind, bind, getExistingIndexes.
  destruct (existsb _ _); [by intros [= _ <-]|].
  unfold send. destruct (IndexExists _ _ _) as [[exists_ err] srv].
  destruct err as [e|]; [done|]. destruct exists_; simpl.
  - by intros [= _ <-].
  - destruct (CreateIndex _ _ _ _) as [err srv'].
    destruct err as [e|]; [done|].
    destruct (putMapping _ _ _) as [[u' s1]| |] eqn:Hput; [|done..].
    apply putMapping_frame in Hput as [Hw Hc]. simpl in Hw, Hc.
    intros [= _ <-]. by simpl.
Qed.

(** C9. For a key that does not split on '/' into exactly three
    parts, [Get] and [Delete] return the error
    "invalid key: '<key>'" and leave the store and the server as
    they found them, with no call made on the client; and so does
    [Put] for a value the witness assertion that opens it lets pass.
    For a value the assertion rejects [Put] panics with the witness's
    message: it does not get to the key. *)
Theorem invalid_key_is_rejected (key : string) s :
  length (Split key "/") ≠ 3%nat ->
  Get key s = Ok ((AnyNil, Some (invalidKey key)), s) /\
  Delete key s = Ok (Some (invalidKey key), s) /\
  (forall structPtr : any,
     Assert (witness s) structPtr = None ->
     Put key structPtr s = Ok (Some (invalidKey key), s)) /\
  (forall (structPtr : any) (msg : string),
     Assert (witness s) structPtr = Some msg ->
     Put key structPtr s = Panic msg) /\
  invalidKey key = String.append "invalid key: '" (String.append key "'").
Proof.
  intros Hlen. unfold Get, Delete, Put.
  destruct (Split key "/") as [|a [|b [|c [|d rest]]]] eqn:Hsplit;
    try done.
  all: split; [done|]; split; [done|]; split; [|split; [|done]].
  all: try (intros structPtr Hassert;
            unfold mbind, M_bind, bind, getWitness; by rewrite Hassert).
  all: intros structPtr msg Hassert;
    unfold mbind, M_bind, bind, getWitness; by rewrite Hassert.
Qed.

(** C10. For a key of three parts whose index check returns: if the
    client answers the lookup with an error that reads exactly
    "elastic: Error 404 (Not Found)", or with no error and a result
    that is not found, then [Get] returns the witness's nil value and
    a nil error.  Any other error of the client, the error of a 404
    response with details among them, [Get] returns as it is, with
    the nil value. *)
Theorem Get_absent_is_nil (key indexName indexType valueID : string) s s1
    (rawValue : option GetResult) (err : option error) (srv : Server) :
  Split key "/" = [indexName; indexType; valueID] ->
  checkOrCreateIndex indexName indexType s = Ok (tt, s1) ->
  GetDoc (client s1) indexName indexType valueID (server s1)
    = ((rawValue, err), srv) ->
  (err = Some "elastic: Error 404 (Not Found)" \/
   (err = None /\ exists r, rawValue = Some r /\ Found r = false) ->
   exists s2,
     Get key s = Ok ((Nil (witness s), None), s2) /\
     requests s2 = requests s1 ++ [GetRequest indexName indexType valueID] /\
     existingIndexes s2 = existingIndexes s1) /\
  (forall e : error,
     err = Some e -> e ≠ "elastic: Error 404 (Not Found)" ->
     exists s2,
       Get key s = Ok ((Nil (witness s), Some e), s2) /\
       requests s2 = requests s1 ++ [GetRequest indexName indexType valueID] /\
       existingIndexes s2 = existingIndexes s1).
Proof.
  intros Hsplit Hcheck Hget. unfold Get. rewrite Hsplit.
  destruct (checkOrCreateIndex_frame _ _ _ _ _ Hcheck) as [Hw Hc].
  unfold mbind, M_bind, bind. rewrite Hcheck. unfold send. rewrite Hget.
  unfold getWitness. simpl. rewrite Hw. split.
  - intros [->|(-> & r & -> & Hfound)].
    + simpl. by eexists.
    + simpl. rewrite Hfound. simpl. by eexists.
  - intros e -> Hother. simpl.
    destruct (String.eqb e "elastic: Error 404 (Not Found)") eqn:Heq.
    + by apply String.eqb_eq in Heq.
    + by eexists.
Qed.

End StoreProperties.

Lemma invalid_key_is_rejected_witness :
  length (Split "orders/42" "/") ≠ 3%nat /\
  Get "orders/42" emptyStore
    = Ok ((AnyNil, Some "invalid key: 'orders/42'"), emptyStore) /\
  Put "orders/42" (AnyValue "{}") emptyStore
    = Ok (Some "invalid key: 'orders/42'", emptyStore).
Proof.
  assert (Hlen : length (Split "orders/42" "/") ≠ 3%nat) by (vm_compute; lia).
  split; [exact Hlen|].
  destruct (invalid_key_is_rejected "orders/42" emptyStore Hlen)
    as (Hget & _ & Hput & _).
  split; [exact Hget | exact (Hput (AnyValue "{}") eq_refl)].
Defined.

(** C9 as the claim has it fails for [Put]: on a key of two parts and
    a value the witness rejects, [Put] panics and returns no error. *)
Lemma Put_rejected_value_panics :
  length (Split "orders/42" "/") ≠ 3%nat /\
  Assert (witness emptyStore) AnyNil ≠ None /\
  Put "orders/42" AnyNil emptyStore = Panic "Value must be a pointer type" /\
  Put "orders/42" AnyNil emptyStore
    ≠ Ok (Some (invalidKey "orders/42"), emptyStore).
Proof.
  split; [vm_compute; lia|]. split; [done|]. split; [reflexivity|].
  vm_compute. discriminate.
Qed.

Lemma Get_absent_is_nil_witness :
  exists s2,
    Get "shop/orders/42" emptyStore = Ok ((AnyValue "nil", None), s2) /\
    requests s2 = [IndexExistsRequest "shop"; GetRequest "shop" "orders" "42"].
Proof.
  destruct (Get_absent_is_nil "shop/orders/42" "shop" "orders" "42" emptyStore
              {| witness := witness emptyStore; client := emptyClient;
                 existingIndexes := [ {| indexName := "shop"; indexType := "orders" |} ];
                 server := tt; requests := [IndexExistsRequest "shop"] |}
              None (Some "elastic: Error 404 (Not Found)") tt
              eq_refl eq_refl eq_refl) as [Habsent _].
  destruct (Habsent (or_introl eq_refl)) as (s2 & Hget & Hreq & _).
  exists s2. split; [exact Hget | exact Hreq].
Defined.

(** C10 as the claim has it fails: the server answers 404 for a
    document of an index it has lost, the client's error for that
    response carries details, and [Get] returns it as an error. *)
Lemma Get_not_found_with_details_is_an_error :
  exists (e : error) s2,
    isNotFound e = true /\
    GetDoc (client staleStore) "shop" "orders" "42" (server staleStore)
      = ((None, Some e), tt) /\
    Get "shop/orders/42" staleStore = Ok ((Nil (witness staleStore), Some e), s2).
Proof.
  eexists _, _. split; [|split; [reflexivity|]].
  - reflexivity.
  - vm_compute. reflexivity.
Qed.

(* ===================================================================== *)
(** ** Keys *)
(* ===================================================================== *)

Lemma Split_nonempty (s : string) (sep : ascii) : Split s sep ≠ [].
Proof.
  destruct s as [|c rest]; [done|]. simpl.
  destruct (Ascii.eqb c sep); [done|]. by destruct (Split rest sep).
Qed.

Lemma Split_length (s : string) (sep : ascii) :
  length (Split s sep) = S (countByte sep s).
Proof.
  induction s as [|c rest IH]; [done|]. simpl.
  destruct (Ascii.eqb c sep); simpl; [by rewrite IH|].
  pose proof (Split_nonempty rest sep).
  by destruct (Split rest sep).
Qed.

Lemma Join_Split (s : string) (sep : ascii) : Join (Split s sep) sep = s.
Proof.
  induction s as [|c rest IH]; [done|]. simpl.
  pose proof (Split_nonempty rest sep) as Hne.
  destruct (Ascii.eqb c sep) eqn:Hc.
  - apply Ascii.eqb_eq in Hc as ->.
    change (Join (EmptyString :: Split rest sep) sep) with
      (match Split rest sep with
       | [] => EmptyString
       | _ :: _ => String.append EmptyString (String sep (Join (Split rest sep) sep))
       end).
    destruct (Split rest sep) as [|p ps]; [done|]. simpl in *. by rewrite IH.
  - destruct (Split rest sep) as [|p ps]; [done|].
    destruct ps as [|p' ps]; simpl in *; by rewrite <- IH.
Qed.

Lemma Split_clean (s : string) (sep : ascii) :
  Forall (fun part => countByte sep part = 0%nat) (Split s sep).
Proof.
  induction s as [|c rest IH]; [by repeat constructor|]. simpl.
  destruct (Ascii.eqb c sep) eqn:Hc; [by constructor|].
  destruct (Split rest sep) as [|p ps]; [repeat constructor; simpl; by rewrite Hc|].
  apply Forall_cons in IH as [Hp Hps]. constructor; [|done]. simpl. by rewrite Hc.
Qed.

Lemma Split_clean_part (part : string) (sep : ascii) :
  countByte sep part = 0%nat -> Split part sep = [part].
Proof.
  induction part as [|c rest IH]; [done|]. simpl.
  destruct (Ascii.eqb c sep); [done|]. intros Hrest. by rewrite IH.
Qed.

Lemma Split_append (part rest : string) (sep : ascii) :
  countByte sep part = 0%nat ->
  Split (String.append part (String sep rest)) sep = part :: Split rest sep.
Proof.
  induction part as [|c part IH]; simpl.
  - intros _. by rewrite Ascii.eqb_refl.
  - destruct (Ascii.eqb c sep); [done|]. intros Hpart. by rewrite IH.
Qed.

Lemma Split_Join (parts : list string) (sep : ascii) :
  parts ≠ [] ->
  Forall (fun part => countByte sep part = 0%nat) parts ->
  Split (Join parts sep) sep = parts.
Proof.
  induction parts as [|p parts IH]; [done|]. intros _ [Hp Hparts]%Forall_cons.
  destruct parts as [|p' parts]; [by apply Split_clean_part|].
  change (Join (p :: p' :: parts) sep)
    with (String.append p (String sep (Join (p' :: parts) sep))).
  rewrite Split_append by done. by rewrite IH.
Qed.

(** X13. The keys [Get], [Put] and [Delete] accept are those with
    exactly two '/'.  The index, the type and the id they address are
    the pieces between the slashes, any of which may be empty; joined by
    '/' they give the key back, and a key put together from three pieces
    without '/' is taken apart into these pieces. *)
Theorem key_parts (key : string) :
  (length (Split key "/") = 3%nat <-> countByte "/" key = 2%nat) /\
  (forall indexName indexType valueID : string,
     Split key "/" = [indexName; indexType; valueID] <->
     key = Join [indexName; indexType; valueID] "/" /\
     countByte "/" indexName = 0%nat /\
     countByte "/" indexType = 0%nat /\
     countByte "/" valueID = 0%nat).
Proof.
  split; [rewrite Split_length; lia|].
  intros i t id. split.
  - intros Hsplit. split; [by rewrite <- Hsplit, Join_Split|].
    pose proof (Split_clean key "/") as Hclean. rewrite Hsplit in Hclean.
    apply Forall_cons in Hclean as [Hi Hclean].
    apply Forall_cons in Hclean as [Ht Hclean].
    by apply Forall_cons in Hclean as [Hid _].
  - intros (-> & Hi & Ht & Hid). apply Split_Join; [done|].
    by repeat constructor.
Qed.

Lemma key_parts_witness :
  Split "//" "/" = [EmptyString; EmptyString; EmptyString] /\
  length (Split "shop/orders/2024/42" "/") ≠ 3%nat.
Proof.
  destruct (key_parts "//") as [_ Hparts].
  split; [by apply Hparts|].
  destruct (key_parts "shop/orders/2024/42") as [Hlen _].
  intros H%Hlen. vm_compute in H. lia.
Defined.

(* ===================================================================== *)
(** ** The index check *)
(* ===================================================================== *)

Section IndexCheck.

Context {Server : Type}.

Implicit Type s : ElasticsearchKeyValueStore Server.

Lemma knownIndex_elem_of (indexName indexType : string)
    (existing : list indexAndType) :
  knownIndex indexName indexType existing = true <->
  {| kv.indexName := indexName; kv.indexType := indexType |} ∈ existing.
Proof.
  unfold knownIndex. rewrite existsb_exists. split.
  - intros ([i t] & Hin%list_elem_of_In & [Hi Ht]%andb_true_iff).
    simpl in Hi, Ht. apply String.eqb_eq in Hi, Ht. by subst.
  - intros Hin. eexists. split; [by apply list_elem_of_In|].
    simpl. by rewrite !String.eqb_refl.
Qed.

Lemma putMapping_Ok (indexName indexType : string) s (u : unit) s' :
  putMapping indexName indexType s = Ok (u, s') ->
  existingIndexes s' = existingIndexes s /\
  requests s' = requests s ++ [PutMappingRequest indexName indexType indexMapping].
Proof.
  unfold putMapping, mbind, M_bind, bind, send.
  destruct (PutMapping _ _ _ _ _) as [[resp err] srv].
  destruct err as [e|]; [done|]. destruct resp as [resp|]; [|done].
  destruct (negb (Acknowledged resp)); [done|]. by intros [= _ <-].
Qed.

(** What an index check that returns has done. *)
Lemma checkOrCreateIndex_Ok (indexName indexType : string) s (u : unit) s' :
  checkOrCreateIndex indexName indexType s = Ok (u, s') ->
  (knownIndex indexName indexType (existingIndexes s) = true /\ s' = s) \/
  (knownIndex indexName indexType (existingIndexes s) = false /\
   existingIndexes s' =
     existingIndexes s ++ [ {| kv.indexName := indexName; kv.indexType := indexType |} ] /\
   exists (exists_ : bool) (srv : Server),
     IndexExists (client s) indexName (server s) = ((exists_, None), srv) /\
     requests s' = requests s ++ indexCheckRequests indexName indexType exists_ /\
     (exists_ = true -> server s' = srv)).
Proof.
  unfold checkOrCreateIndex, mbind, M_bind, bind, getExistingIndexes.
  fold (knownIndex indexName indexType (existingIndexes s)).
  destruct (knownIndex indexName indexType (existingIndexes s));
    [intros [= _ <-]; by left|].
  intros Hrun. right. split; [done|]. revert Hrun.
  unfold send.
  destruct (IndexExists (client s) indexName (server s))
    as [[exists_ err] srv] eqn:Hexists.
  destruct err as [e|]; [done|]. destruct exists_; simpl.
  - intros [= _ <-]. simpl. split; [done|]. by exists true, srv.
  - destruct (CreateIndex _ _ _ _) as [err srv'].
    destruct err as [e|]; [done|].
    destruct (putMapping _ _ _) as [[u' s1]| |] eqn:Hput; [|done..].
    apply putMapping_Ok in Hput as [Hex Hreq]. simpl in Hex, Hreq.
    intros [= _ <-]. simpl. rewrite Hex, Hreq. split; [done|].
    exists false, srv. split; [done|]. split; [|done].
    by rewrite <- !app_assoc.
Qed.

(** X14. An index check that returns has the pair in its list of known
    pairs, and a second check of the same pair returns at once: it
    makes no call and changes nothing, as does a check of a pair the
    store knew before.  For a pair the store did not know, the check
    asks the client whether the index exists, and the client answers
    without an error; when the answer is yes this is the only call,
    when it is no the check goes on to [CreateIndex] and [PutMapping],
    in this order; then it enters the pair at the end of the list.  It
    never enters a pair twice. *)
Theorem checkOrCreateIndex_caches (indexName indexType : string) s s1 :
  checkOrCreateIndex indexName indexType s = Ok (tt, s1) ->
  {| kv.indexName := indexName; kv.indexType := indexType |} ∈ existingIndexes s1 /\
  checkOrCreateIndex indexName indexType s1 = Ok (tt, s1) /\
  ({| kv.indexName := indexName; kv.indexType := indexType |} ∈ existingIndexes s ->
   s1 = s) /\
  ({| kv.indexName := indexName; kv.indexType := indexType |} ∉ existingIndexes s ->
   exists (exists_ : bool) (srv : Server),
     IndexExists (client s) indexName (server s) = ((exists_, None), srv) /\
     requests s1 = requests s ++ indexCheckRequests indexName indexType exists_ /\
     (exists_ = true -> server s1 = srv) /\
     existingIndexes s1 =
       existingIndexes s ++ [ {| kv.indexName := indexName; kv.indexType := indexType |} ]) /\
  (NoDup (existingIndexes s) -> NoDup (existingIndexes s1)).
Proof.
  intros Hrun.
  assert (Hin : {| kv.indexName := indexName; kv.indexType := indexType |}
                ∈ existingIndexes s1).
  { destruct (checkOrCreateIndex_Ok _ _ _ _ _ Hrun)
      as [[Hknown ->]|(_ & -> & _)].
    - by apply knownIndex_elem_of.
    - apply elem_of_app. right. apply list_elem_of_here. }
  split; [exact Hin|]. split.
  { unfold checkOrCreateIndex, mbind, M_bind, bind, getExistingIndexes.
    fold (knownIndex indexName indexType (existingIndexes s1)).
    by rewrite (proj2 (knownIndex_elem_of _ _ _) Hin). }
  destruct (checkOrCreateIndex_Ok _ _ _ _ _ Hrun)
    as [[Hknown ->]|(Hknown & Hex & exists_ & srv & Hexists & Hreq & Hsrv)].
  - split; [done|]. split; [|done].
    intros Hnew. by apply knownIndex_elem_of in Hknown.
  - split; [|split].
    + intros Hold%knownIndex_elem_of. congruence.
    + intros _. by exists exists_, srv.
    + intros Hnodup. rewrite Hex. apply NoDup_app. split; [done|].
      split; [|apply NoDup_singleton].
      intros x Hx ->%list_elem_of_singleton.
      apply knownIndex_elem_of in Hx. congruence.
Qed.

End IndexCheck.

(** X14 on a server that has the index, and on one that does not. *)
Lemma checkOrCreateIndex_caches_witness :
  (exists s1,
     checkOrCreateIndex "shop" "orders" emptyStore = Ok (tt, s1) /\
     requests s1 = [IndexExistsRequest "shop"] /\
     checkOrCreateIndex "shop" "orders" s1 = Ok (tt, s1)) /\
  (exists s1,
     checkOrCreateIndex "shop" "orders" missingIndexStore = Ok (tt, s1) /\
     requests s1 = [IndexExistsRequest "shop";
                    CreateIndexRequest "shop" indexSettings;
                    PutMappingRequest "shop" "orders" indexMapping]).
Proof.
  split.
  - destruct (checkOrCreateIndex "shop" "orders" emptyStore)
      as [[[] s1]| |] eqn:Hrun; try discriminate.
    exists s1. split; [reflexivity|].
    destruct (checkOrCreateIndex_caches _ _ _ _ Hrun) as (_ & Hagain & _).
    split; [|exact Hagain].
    vm_compute in Hrun. by injection Hrun as <-.
  - destruct (checkOrCreateIndex "shop" "orders" missingIndexStore)
      as [[[] s1]| |] eqn:Hrun; try discriminate.
    exists s1. split; [reflexivity|].
    destruct (checkOrCreateIndex_caches _ _ _ _ Hrun) as (_ & _ & _ & Hnew & _).
    destruct Hnew as (exists_ & srv & Hexists & Hreq & _);
      [apply not_elem_of_nil|].
    rewrite Hreq. vm_compute in Hexists. by injection Hexists as <- <-.
Defined.

(* ===================================================================== *)
(** ** Get, Put and Delete on a key of three parts *)
(* ===================================================================== *)

Section Documents.

Context {Server : Type}.

Implicit Type s : ElasticsearchKeyValueStore Server.

Lemma Get_Ok_inv (key indexName indexType valueID : string) s s2
    (v : any) (e : option error) :
  Split key "/" = [indexName; indexType; valueID] ->
  Get key s = Ok ((v, e), s2) ->
  exists s1 rawValue err srv,
    checkOrCreateIndex indexName indexType s = Ok (tt, s1) /\
    GetDoc (client s1) indexName indexType valueID (server s1)
      = ((rawValue, err), srv) /\
    s2 = afterRequest s1 srv (GetRequest indexName indexType valueID) /\
    ((err = Some "elastic: Error 404 (Not Found)" /\
      v = Nil (witness s) /\ e = None) \/
     (exists e', err = Some e' /\ v = Nil (witness s) /\ e = Some e') \/
     (exists r, err = None /\ rawValue = Some r /\ Found r = false /\
                v = Nil (witness s) /\ e = None) \/
     (exists r source p ue,
        err = None /\ rawValue = Some r /\ Found r = true /\
        Source r = Some source /\
        Unmarshal (client s) source (Allocate (witness s)) = (p, ue) /\
        ((ue = None /\ v = p /\ e = None) \/
         (exists e', ue = Some e' /\ v = Nil (witness s) /\ e = Some e')))).
Proof.
  intros Hsplit. unfold Get. rewrite Hsplit.
  unfold mbind, M_bind, bind.
  destruct (checkOrCreateIndex indexName indexType s) as [[[] s1]| |] eqn:Hcheck;
    [|done..].
  destruct (checkOrCreateIndex_frame _ _ _ _ _ Hcheck) as [Hw Hc].
  unfold send.
  destruct (GetDoc (client s1) indexName indexType valueID (server s1))
    as [[rawValue err] srv] eqn:Hget.
  unfold getWitness. simpl.
  intros Hrun. rewrite <- Hw, <- Hc. exists s1, rawValue, err, srv.
  split; [done|]. split; [done|].
  destruct (String.eqb (Sprintf_s err) "elastic: Error 404 (Not Found)") eqn:H404.
  { injection Hrun as <- <- <-. split; [done|]. left.
    apply String.eqb_eq in H404. destruct err as [e'|]; [|done].
    simpl in H404. by subst. }
  destruct err as [e'|].
  { injection Hrun as <- <- <-. split; [done|]. right; left. by exists e'. }
  destruct rawValue as [r|]; [|done].
  destruct (Found r) eqn:Hfound; simpl in Hrun.
  2:{ injection Hrun as <- <- <-. split; [done|]. right; right; left. by exists r. }
  destruct (Source r) as [source|] eqn:Hsource; [|done].
  unfold getClient in Hrun. simpl in Hrun.
  destruct (Unmarshal (client s1) source (Allocate (witness s1))) as [p ue] eqn:Hun.
  destruct ue as [e'|]; injection Hrun as <- <- <-; (split; [done|]);
    right; right; right; exists r, source, p; eexists;
    (split; [done|]); (split; [done|]); (split; [done|]); (split; [done|]);
    (split; [done|]).
  - right. by exists e'.
  - by left.
Qed.

Lemma Put_Ok_inv (key indexName indexType valueID : string) (structPtr : any)
    s s2 (e : option error) :
  Split key "/" = [indexName; indexType; valueID] ->
  Put key structPtr s = Ok (e, s2) ->
  Assert (witness s) structPtr = None /\
  exists s1 srv,
    checkOrCreateIndex indexName indexType s = Ok (tt, s1) /\
    IndexDoc (client s1) indexName indexType valueID structPtr (server s1)
      = (e, srv) /\
    s2 = afterRequest s1 srv (IndexRequest indexName indexType valueID structPtr).
Proof.
  intros Hsplit. unfold Put, mbind, M_bind, bind, getWitness.
  destruct (Assert (witness s) structPtr); [done|]. rewrite Hsplit.
  destruct (checkOrCreateIndex indexName indexType s) as [[[] s1]| |] eqn:Hcheck;
    [|done..].
  unfold send.
  destruct (IndexDoc (client s1) indexName indexType valueID structPtr (server s1))
    as [err srv] eqn:Hindex.
  simpl. intros [= <- <-]. split; [done|]. by exists s1, srv.
Qed.

Lemma Delete_Ok_inv (key indexName indexType valueID : string)
    s s2 (e : option error) :
  Split key "/" = [indexName; indexType; valueID] ->
  Delete key s = Ok (e, s2) ->
  exists s1 response err srv,
    checkOrCreateIndex indexName indexType s = Ok (tt, s1) /\
    DeleteDoc (client s1) indexName indexType valueID (server s1)
      = ((response, err), srv) /\
    s2 = afterRequest s1 srv (DeleteRequest indexName indexType valueID) /\
    e = match response with
        | Some response => if deleteFound response then err else None
        | None => err
        end.
Proof.
  intros Hsplit. unfold Delete. rewrite Hsplit. unfold mbind, M_bind, bind.
  destruct (checkOrCreateIndex indexName indexType s) as [[[] s1]| |] eqn:Hcheck;
    [|done..].
  unfold send.
  destruct (DeleteDoc (client s1) indexName indexType valueID (server s1))
    as [[response err] srv] eqn:Hdelete.
  intros Hrun. exists s1, response, err, srv.
  split; [done|]. split; [done|].
  destruct response as [response|]; simpl in Hrun.
  - destruct (deleteFound response); simpl in Hrun; by injection Hrun as <- <-.
  - by injection Hrun as <- <-.
Qed.

(** The calls of an operation on one document: those of the index
    check, then [r]. *)
Lemma document_request (indexName indexType : string) s s1 (srv : Server)
    (r : Request) :
  checkOrCreateIndex indexName indexType s = Ok (tt, s1) ->
  let s2 := afterRequest s1 srv r in
  requests s2 = requests s1 ++ [r] /\
  existingIndexes s2 = existingIndexes s1 /\
  ({| kv.indexName := indexName; kv.indexType := indexType |} ∈ existingIndexes s ->
   requests s2 = requests s ++ [r]) /\
  ({| kv.indexName := indexName; kv.indexType := indexType |} ∉ existingIndexes s ->
   exists (exists_ : bool) (srv' : Server),
     IndexExists (client s) indexName (server s) = ((exists_, None), srv') /\
     requests s2
       = requests s ++ indexCheckRequests indexName indexType exists_ ++ [r]).
Proof.
  intros Hcheck. simpl. split; [done|]. split; [done|].
  destruct (checkOrCreateIndex_Ok _ _ _ _ _ Hcheck)
    as [[Hknown ->]|(Hknown & Hex & exists_ & srv' & Hexists & Hreq & _)].
  - split; [done|]. intros Hnew. by apply knownIndex_elem_of in Hknown.
  - split.
    + intros Hold%knownIndex_elem_of. congruence.
    + intros _. exists exists_, srv'. split; [done|].
      by rewrite Hreq, <- app_assoc.
Qed.

(** X15. On a key of three parts, a [Get], [Put] or [Delete] that
    returns has run the index check and then made exactly one document
    call on the client, built from the three parts of the key, and no
    other call.  For a pair of index and type the store knew, that is
    its only call.  For a pair it did not know, it has first asked the
    client whether the index exists, and when the client answered no it
    has called [CreateIndex] and [PutMapping] before the document call:
    a [Get] or [Delete] of a document in an index the client reports
    missing creates that index first. *)
Theorem document_requests (key indexName indexType valueID : string) s :
  Split key "/" = [indexName; indexType; valueID] ->
  let after (s2 : ElasticsearchKeyValueStore Server) (r : Request) :=
    exists s1,
      checkOrCreateIndex indexName indexType s = Ok (tt, s1) /\
      requests s2 = requests s1 ++ [r] /\
      existingIndexes s2 = existingIndexes s1 /\
      ({| kv.indexName := indexName; kv.indexType := indexType |} ∈ existingIndexes s ->
       requests s2 = requests s ++ [r]) /\
      ({| kv.indexName := indexName; kv.indexType := indexType |} ∉ existingIndexes s ->
       exists (exists_ : bool) (srv : Server),
         IndexExists (client s) indexName (server s) = ((exists_, None), srv) /\
         requests s2
           = requests s ++ indexCheckRequests indexName indexType exists_ ++ [r]) in
  (forall v e s2, Get key s = Ok ((v, e), s2) ->
     after s2 (GetRequest indexName indexType valueID)) /\
  (forall structPtr e s2, Put key structPtr s = Ok (e, s2) ->
     after s2 (IndexRequest indexName indexType valueID structPtr)) /\
  (forall e s2, Delete key s = Ok (e, s2) ->
     after s2 (DeleteRequest indexName indexType valueID)).
Proof.
  intros Hsplit after. split; [|split].
  - intros v e s2 Hrun.
    destruct (Get_Ok_inv _ _ _ _ _ _ _ _ Hsplit Hrun)
      as (s1 & raw & err & srv & Hcheck & _ & -> & _).
    exists s1. split; [done|]. by apply document_request.
  - intros structPtr e s2 Hrun.
    destruct (Put_Ok_inv _ _ _ _ _ _ _ _ Hsplit Hrun)
      as (_ & s1 & srv & Hcheck & _ & ->).
    exists s1. split; [done|]. by apply document_request.
  - intros e s2 Hrun.
    destruct (Delete_Ok_inv _ _ _ _ _ _ _ Hsplit Hrun)
      as (s1 & resp & err & srv & Hcheck & _ & -> & _).
    exists s1. split; [done|]. by apply document_request.
Qed.

(** X16. Whatever a [Get] on a key of three parts returns: an error
    always comes with the witness's nil value, never with a struct; and
    a value other than that nil value is the struct unmarshalled, with no
    error, from the source of a document the client found. *)
Theorem Get_value_or_error (key indexName indexType valueID : string) s s2
    (v : any) (e : option error) :
  Split key "/" = [indexName; indexType; valueID] ->
  Get key s = Ok ((v, e), s2) ->
  (e ≠ None -> v = Nil (witness s)) /\
  (v ≠ Nil (witness s) ->
   e = None /\
   exists s1 r source srv,
     checkOrCreateIndex indexName indexType s = Ok (tt, s1) /\
     GetDoc (client s1) indexName indexType valueID (server s1)
       = ((Some r, None), srv) /\
     Found r = true /\ Source r = Some source /\
     Unmarshal (client s) source (Allocate (witness s)) = (v, None)).
Proof.
  intros Hsplit Hrun.
  destruct (Get_Ok_inv _ _ _ _ _ _ _ _ Hsplit Hrun)
    as (s1 & raw & err & srv & Hcheck & Hget & _ & Hcases).
  destruct Hcases as [(_ & -> & ->)|[(e' & _ & -> & ->)|
    [(r & _ & _ & _ & -> & ->)|(r & source & p & ue & -> & -> & Hfound & Hsource
                                  & Hun & Hcases)]]]; try done.
  destruct Hcases as [(-> & -> & ->)|(e' & -> & -> & ->)]; [|done].
  split; [done|]. intros _. split; [done|]. by exists s1, r, source, srv.
Qed.

(** X17. A [Delete] on a key of three parts whose index check returns
    does return; when the client's response says the document was not
    found it returns no error, even if the client reported one; in every
    other case it returns the client's error. *)
Theorem Delete_absent_is_not_an_error (key indexName indexType valueID : string)
    s s1 (response : option DeleteResponse) (err : option error) (srv : Server) :
  Split key "/" = [indexName; indexType; valueID] ->
  checkOrCreateIndex indexName indexType s = Ok (tt, s1) ->
  DeleteDoc (client s1) indexName indexType valueID (server s1)
    = ((response, err), srv) ->
  exists e,
    Delete key s
      = Ok (e, afterRequest s1 srv (DeleteRequest indexName indexType valueID)) /\
    (forall r, response = Some r -> deleteFound r = false -> e = None) /\
    ((response = None \/ exists r, response = Some r /\ deleteFound r = true) ->
     e = err).
Proof.
  intros Hsplit Hcheck Hdelete. unfold Delete. rewrite Hsplit.
  unfold mbind, M_bind, bind. rewrite Hcheck. unfold send. rewrite Hdelete.
  destruct response as [r|]; simpl.
  - destruct (deleteFound r) eqn:Hfound; simpl; eexists; (split; [reflexivity|]).
    + split; [by intros r' [= <-]; congruence|]. done.
    + split; [done|]. intros [?|(r' & [= <-] & ?)]; congruence.
  - eexists. split; [reflexivity|]. split; done.
Qed.

(** X18. [Put] asserts its value before it looks at the key: for a
    value the witness rejects it panics with the witness's message,
    whatever the key, also for a key [Get] and [Delete] reject with an
    error.  For a value the witness lets pass and a key of three parts
    whose index check returns, it makes the index call and returns
    exactly what the client answers, error or none. *)
Theorem Put_outcomes (key : string) (structPtr : any) s :
  (forall msg, Assert (witness s) structPtr = Some msg ->
     Put key structPtr s = Panic msg) /\
  (forall indexName indexType valueID s1 e srv,
     Assert (witness s) structPtr = None ->
     Split key "/" = [indexName; indexType; valueID] ->
     checkOrCreateIndex indexName indexType s = Ok (tt, s1) ->
     IndexDoc (client s1) indexName indexType valueID structPtr (server s1)
       = (e, srv) ->
     Put key structPtr s
       = Ok (e, afterRequest s1 srv
                  (IndexRequest indexName indexType valueID structPtr))).
Proof.
  unfold Put, mbind, M_bind, bind, getWitness. split.
  - by intros msg ->.
  - intros i t id s1 e srv -> -> Hcheck Hindex. rewrite Hcheck.
    unfold send. by rewrite Hindex.
Qed.

End Documents.

(** X15 on a [Delete] in an index the client reports missing. *)
Lemma document_requests_witness :
  exists e s2,
    Delete "shop/orders/42" missingIndexStore = Ok (e, s2) /\
    requests s2 = [IndexExistsRequest "shop";
                   CreateIndexRequest "shop" indexSettings;
                   PutMappingRequest "shop" "orders" indexMapping;
                   DeleteRequest "shop" "orders" "42"].
Proof.
  destruct (Delete "shop/orders/42" missingIndexStore) as [[e s2]| |] eqn:Hrun;
    try discriminate.
  destruct (document_requests "shop/orders/42" "shop" "orders" "42"
              missingIndexStore eq_refl) as (_ & _ & Hdelete).
  destruct (Hdelete e s2 Hrun) as (s1 & _ & _ & _ & _ & Hnew).
  destruct Hnew as (exists_ & srv & Hexists & Hreq); [apply not_elem_of_nil|].
  exists e, s2. split; [reflexivity|]. rewrite Hreq.
  vm_compute in Hexists. by injection Hexists as <- <-.
Defined.

Lemma Get_value_or_error_witness :
  exists s2,
    Get "shop/orders/42" oneDocumentStore = Ok ((AnyValue "{total: 7}", None), s2).
Proof.
  destruct (Get "shop/orders/42" oneDocumentStore) as [[[v e] s2]| |] eqn:Hrun;
    try discriminate.
  destruct (Get_value_or_error "shop/orders/42" "shop" "orders" "42" _ _ _ _
              eq_refl Hrun) as [Herr _].
  exists s2. vm_compute in Hrun. by injection Hrun as <- <- <-.
Defined.

(** X17 on a client that reports a 404 error next to its response. *)
Lemma Delete_absent_is_not_an_error_witness :
  exists s2, Delete "shop/orders/42" oneDocumentStore = Ok (None, s2).
Proof.
  destruct (Delete_absent_is_not_an_error "shop/orders/42" "shop" "orders" "42"
              oneDocumentStore
              {| witness := witness oneDocumentStore; client := oneDocumentClient;
                 existingIndexes := [ {| indexName := "shop"; indexType := "orders" |} ];
                 server := tt; requests := [IndexExistsRequest "shop"] |}
              (Some {| deleteFound := false |})
              (Some "elastic: Error 404 (Not Found)") tt eq_refl eq_refl eq_refl)
    as (e & Hrun & Habsent & _).
  eexists. rewrite Hrun. by rewrite (Habsent _ eq_refl eq_refl).
Defined.

Lemma Put_outcomes_witness :
  Put "not a key" AnyNil emptyStore = Panic "Value must be a pointer type" /\
  exists s2, Put "shop/orders/42" (AnyValue "{}") emptyStore = Ok (None, s2).
Proof.
  destruct (Put_outcomes "not a key" AnyNil emptyStore) as [Hpanic _].
  split; [exact (Hpanic _ eq_refl)|].
  destruct (Put_outcomes "shop/orders/42" (AnyValue "{}") emptyStore) as [_ Hput].
  eexists. exact (Hput "shop" "orders" "42" _ None tt eq_refl eq_refl eq_refl eq_refl).
Defined.

(* ===================================================================== *)
(** ** GetAll and PutAll *)
(* ===================================================================== *)

Import kvAll.

Section ManyDocuments.

Context {Server : Type}.

Implicit Type st : Store Server.

Lemma indexChecked_refl st : indexChecked st st.
Proof. by repeat split. Qed.

Lemma indexChecked_trans st1 st2 st3 :
  indexChecked st1 st2 -> indexChecked st2 st3 -> indexChecked st1 st3.
Proof.
  intros (Hc1 & Hr1 & Hw1 & Hk1 & Hp1) (Hc2 & Hr2 & Hw2 & Hk2 & Hp2).
  repeat split; try congruence. by etrans.
Qed.

Lemma knownIndex_prefix (indexName indexType : string)
    (existing existing' : list indexAndType) :
  existing `prefix_of` existing' ->
  knownIndex indexName indexType existing = true ->
  knownIndex indexName indexType existing' = true.
Proof.
  intros [rest ->]. rewrite !knownIndex_elem_of. intros Hin.
  apply elem_of_app. by left.
Qed.

Lemma knownKey_checked st st' (key : string) :
  indexChecked st st' -> knownKey (single st) key -> knownKey (single st') key.
Proof.
  intros (_ & _ & _ & _ & Hp) (i & t & id & Hsplit & Hknown).
  exists i, t, id. split; [done|]. by eapply knownIndex_prefix.
Qed.

Lemma validKey_parts (key : string) :
  validKey key ->
  exists indexName indexType valueID : string,
    Split key "/" = [indexName; indexType; valueID].
Proof.
  unfold validKey. destruct (Split key "/") as [|a [|b [|c [|d l]]]]; try done.
  intros _. by exists a, b, c.
Qed.

Lemma knownKey_valid (s : ElasticsearchKeyValueStore Server) (key : string) :
  knownKey s key -> validKey key.
Proof. intros (i & t & id & Hsplit & _). unfold validKey. by rewrite Hsplit. Qed.

(** An index check run on the store. *)
Lemma lift_checkOrCreateIndex_Ok (indexName indexType : string) st (u : unit) st' :
  lift (checkOrCreateIndex indexName indexType) st = Ok (u, st') ->
  indexChecked st st' /\
  knownIndex indexName indexType (existingIndexes (single st')) = true.
Proof.
  unfold lift.
  destruct (checkOrCreateIndex indexName indexType (single st))
    as [[[] s]| |] eqn:Hcheck; [|done..].
  intros [= _ <-]. simpl.
  destruct (checkOrCreateIndex_frame _ _ _ _ _ Hcheck) as [Hw Hc].
  destruct (checkOrCreateIndex_Ok _ _ _ _ _ Hcheck)
    as [[Hknown ->]|(_ & Hex & _)].
  - split; [|done]. by repeat split.
  - split.
    + repeat split; simpl; try done. rewrite Hex. by apply prefix_app_r.
    + rewrite Hex. apply knownIndex_elem_of, elem_of_app. right.
      apply list_elem_of_here.
Qed.

Lemma lift_checkOrCreateIndex_known (indexName indexType : string) st :
  knownIndex indexName indexType (existingIndexes (single st)) = true ->
  lift (checkOrCreateIndex indexName indexType) st = Ok (tt, st).
Proof.
  intros Hknown.
  unfold lift, checkOrCreateIndex, mbind, kv.M_bind, kv.bind, getExistingIndexes.
  fold (knownIndex indexName indexType (existingIndexes (single st))).
  rewrite Hknown. simpl. by destruct st.
Qed.

(* --------------------------------------------------------------------- *)
(** *** The loops of GetAll *)

Lemma addGetItems_Ok (keys : list string) :
  forall (items all : list getItem) st st',
    addGetItems keys items st = Ok (inl all, st') ->
    indexChecked st st' /\
    Forall (knownKey (single st')) keys /\
    exists new, all = items ++ new /\ Forall2 getItemOf keys new.
Proof.
  induction keys as [|key keys IH]; intros items all st st'; simpl.
  - intros [= <- <-]. split; [apply indexChecked_refl|]. split; [done|].
    exists []. by rewrite app_nil_r.
  - destruct (Split key "/") as [|a [|b [|c [|d l]]]] eqn:Hsplit; try done.
    unfold mbind, M_bind, bind.
    destruct (lift (checkOrCreateIndex a b) st) as [[u st1]| |] eqn:Hlift;
      [|done..].
    apply lift_checkOrCreateIndex_Ok in Hlift as [Hchecked Hknown].
    intros (Hrest & Hkeys & new & -> & Hitems)%IH.
    split; [by eapply indexChecked_trans|]. split.
    + constructor; [|done]. exists a, b, c. split; [done|].
      destruct Hrest as (_ & _ & _ & _ & Hp). by eapply knownIndex_prefix.
    + exists ((a, b, c) :: new). split; [by rewrite <- app_assoc|].
      by constructor.
Qed.

Lemma addGetItems_invalid (pre post : list string) (bad : string) :
  Forall validKey pre -> ~ validKey bad ->
  forall (items : list getItem) st r st',
    addGetItems (pre ++ bad :: post) items st = Ok (r, st') ->
    r = inr (invalidKey bad) /\
    indexChecked st st' /\
    Forall (knownKey (single st')) pre.
Proof.
  intros Hpre Hbad. induction Hpre as [|key pre Hkey Hpre IH];
    intros items st r st'; simpl.
  - unfold validKey in Hbad.
    destruct (Split bad "/") as [|a [|b [|c [|d l]]]]; try done;
      intros [= <- <-]; (split; [done|]); (split; [apply indexChecked_refl|done]).
  - destruct (validKey_parts _ Hkey) as (a & b & c & Hsplit). rewrite Hsplit.
    unfold mbind, M_bind, bind.
    destruct (lift (checkOrCreateIndex a b) st) as [[u st1]| |] eqn:Hlift;
      [|done..].
    apply lift_checkOrCreateIndex_Ok in Hlift as [Hchecked Hknown].
    intros (-> & Hrest & Hknownpre)%IH. split; [done|].
    split; [by eapply indexChecked_trans|]. constructor; [|done].
    exists a, b, c. split; [done|].
    destruct Hrest as (_ & _ & _ & _ & Hp). by eapply knownIndex_prefix.
Qed.

Lemma addGetItems_known_invalid (pre post : list string) (bad : string) st :
  Forall (knownKey (single st)) pre -> ~ validKey bad ->
  forall items : list getItem,
    addGetItems (pre ++ bad :: post) items st = Ok (inr (invalidKey bad), st).
Proof.
  intros Hpre Hbad. induction Hpre as [|key pre Hkey Hpre IH]; intros items; simpl.
  - unfold validKey in Hbad.
    by destruct (Split bad "/") as [|a [|b [|c [|d l]]]].
  - destruct Hkey as (a & b & c & Hsplit & Hknown). rewrite Hsplit.
    unfold mbind, M_bind, bind.
    rewrite (lift_checkOrCreateIndex_known _ _ _ Hknown). apply IH.
Qed.

Lemma fillEntries_Ok (w : StructPtrWitness) (c : ElasticClient Server)
    (keys : list string) (docs : list (option GetResult)) :
  forall (i : nat) (entries out : list (option Entry)) (e : option error),
    fillEntries w c keys i docs entries = Ok (Some out, e) ->
    length entries = length keys -> (i <= length keys)%nat ->
    e = None /\
    length out = length keys /\
    (i + length docs <= length keys)%nat /\
    (forall j, (j < i \/ i + length docs <= j)%nat -> out !! j = entries !! j) /\
    (forall j doc,
       docs !! j = Some doc ->
       exists key d value,
         keys !! (i + j)%nat = Some key /\ doc = Some d /\
         decode w c d = Ok (inl value) /\
         out !! (i + j)%nat = Some (Some {| Key := key; Value := value |})).
Proof.
  induction docs as [|doc docs IH]; intros i entries out e; simpl.
  - intros [= <- <-] Hlen Hi. repeat split; try done. lia.
  - destruct doc as [d|]; [|done]. unfold mbind, result_bind.
    destruct (decode w c d) as [[value|err]| |] eqn:Hdecode; [|done..].
    destruct (keys !! i) as [key|] eqn:Hkey; [|done].
    intros Hrun Hlen Hi. pose proof (lookup_lt_Some _ _ _ Hkey) as Hlt.
    apply IH in Hrun as (-> & Hout & Hbound & Hother & Hdocs);
      [|by rewrite length_insert|lia].
    split; [done|]. split; [done|]. split; [lia|]. split.
    + intros j Hj. rewrite Hother by lia. apply list_lookup_insert_ne. lia.
    + intros [|j] doc Hdoc; simpl in Hdoc.
      * injection Hdoc as <-. exists key, d, value. rewrite Nat.add_0_r.
        repeat split; try done. rewrite Hother by lia.
        apply list_lookup_insert_eq. lia.
      * destruct (Hdocs j doc Hdoc) as (key' & d' & value' & H1 & H2 & H3 & H4).
        exists key', d', value'. replace (i + S j)%nat with (S i + j)%nat by lia.
        done.
Qed.

(** X19. When [GetAll] returns entries it returns no error, and one
    entry per key: every key has three parts, one multi-get request was
    sent, with one item per key in the order of the keys; the entry at
    the place of a document of the response holds the key of that place
    and the decoded document, and the places the response has no
    document for, when it is shorter than the keys, are left nil. *)
Theorem GetAll_entries (keys : list string) st
    (entries : list (option Entry)) (e : option error) st' :
  GetAll keys st = Ok ((Some entries, e), st') ->
  e = None /\
  length entries = length keys /\
  Forall validKey keys /\
  exists (items : list getItem) (docs : list (option GetResult)) (srv : Server),
    Forall2 getItemOf keys items /\
    manyRequests st' = manyRequests st ++ [MultiGetRequest items] /\
    MultiGet (manyClient st) items srv = ((Some docs, None), server (single st')) /\
    (length docs <= length keys)%nat /\
    (forall i key doc,
       keys !! i = Some key -> docs !! i = Some doc ->
       exists entry, entries !! i = Some entry /\ entryOf st' key doc entry) /\
    (forall i, (length docs <= i < length keys)%nat -> entries !! i = Some None).
Proof.
  unfold GetAll, mbind, M_bind, bind.
  destruct (addGetItems keys [] st) as [[[items|err] st1]| |] eqn:Hadd;
    [|done..].
  apply addGetItems_Ok in Hadd
    as ((Hclient & Hrequests & Hw & Hc & _) & _ & new & -> & Hitems).
  change ([] ++ new) with new. unfold sendMany. rewrite Hclient.
  destruct (MultiGet (manyClient st) new (server (single st1)))
    as [[response err] srv] eqn:Hget.
  destruct err as [err|]; [by unfold ret|].
  destruct response as [docs|]; [|by unfold panic].
  simpl. unfold mbind, result_bind.
  destruct (fillEntries _ _ keys 0 docs _) as [[out e']| |] eqn:Hfill; [|done..].
  intros [= -> -> <-]. simpl.
  apply fillEntries_Ok in Hfill as (-> & Hout & Hbound & Hother & Hdocs);
    [|by rewrite length_replicate|lia].
  split; [done|]. split; [done|]. split.
  { clear -Hitems. induction Hitems as [|key item keys items Hitem _ IH];
      constructor; [|done].
    unfold validKey. by rewrite Hitem. }
  exists new, docs, (server (single st1)). split; [done|].
  split; [by rewrite Hrequests|]. split; [done|]. split; [lia|]. split.
  - intros i key doc Hkey Hdoc.
    destruct (Hdocs i doc Hdoc) as (key' & d & value & Hkey' & -> & Hdecode & Hentry).
    simpl in Hkey', Hentry. rewrite Hkey in Hkey'. injection Hkey' as <-.
    eexists. split; [exact Hentry|]. by exists d, value.
  - intros i Hi. rewrite Hother by (simpl; lia).
    apply lookup_replicate_2. lia.
Qed.

(** X20. [GetAll] stops at the first key that does not have three
    parts: it returns no entries and the error for that key, and sends
    no multi-get request; the keys before it have had their index
    checked by then.  When the store knows the indexes of those keys
    already, [GetAll] returns this with the store unchanged. *)
Theorem GetAll_first_invalid_key (pre post : list string) (bad : string) st :
  Forall validKey pre -> ~ validKey bad ->
  (forall r st',
     GetAll (pre ++ bad :: post) st = Ok (r, st') ->
     r = (None, Some (invalidKey bad)) /\
     indexChecked st st' /\
     Forall (knownKey (single st')) pre) /\
  (Forall (knownKey (single st)) pre ->
   GetAll (pre ++ bad :: post) st = Ok ((None, Some (invalidKey bad)), st)).
Proof.
  intros Hpre Hbad. unfold GetAll, mbind, M_bind, bind. split.
  - intros r st'.
    destruct (addGetItems (pre ++ bad :: post) [] st) as [[items st1]| |] eqn:Hadd;
      [|done..].
    apply (addGetItems_invalid _ _ _ Hpre Hbad) in Hadd as (-> & Hchecked & Hknown).
    by intros [= <- <-].
  - intros Hknown. by rewrite (addGetItems_known_invalid _ _ _ _ Hknown Hbad).
Qed.

(* --------------------------------------------------------------------- *)
(** *** The loop of PutAll *)

Lemma PutAll_nonempty (entries : list (option Entry)) st :
  entries <> [] ->
  PutAll entries st =
    bind (addBulkItems entries [])
         (fun items =>
            match items with
            | inr e => ret (Some e)
            | inl items =>
                bind (sendMany (BulkRequest items) (fun c => Bulk c items))
                     (fun err => ret err)
            end) st.
Proof. by destruct entries. Qed.

Lemma addBulkItems_Ok (entries : list (option Entry)) :
  forall (items : list bulkItem) st r st',
    addBulkItems entries items st = Ok (r, st') ->
    indexChecked st st' /\
    match r with
    | inl all =>
        exists new,
          all = items ++ new /\
          Forall2 bulkItemOf entries new /\
          Forall (fun item => Assert (witness (single st)) item.2 = None) new
    | inr e =>
        exists bad : Entry,
          Some bad ∈ entries /\ ~ validKey (Key bad) /\ e = invalidKey (Key bad)
    end.
Proof.
  induction entries as [|entry entries IH]; intros items st r st'; simpl.
  - intros [= <- <-]. split; [apply indexChecked_refl|].
    exists []. by rewrite app_nil_r.
  - destruct entry as [entry|]; [|done].
    assert (Hinvalid : length (Split (Key entry) "/") ≠ 3%nat ->
              ret (inr (invalidKey (Key entry))) st = Ok (r, st') ->
              indexChecked st st' /\
              match r with
              | inl all =>
                  exists new,
                    all = items ++ new /\
                    Forall2 bulkItemOf (Some entry :: entries) new /\
                    Forall (fun item => Assert (witness (single st)) item.2 = None) new
              | inr e =>
                  exists bad : Entry,
                    Some bad ∈ Some entry :: entries /\
                    ~ validKey (Key bad) /\ e = invalidKey (Key bad)
              end).
    { intros Hlen [= <- <-]. split; [apply indexChecked_refl|].
      exists entry. split; [apply list_elem_of_here|]. by split. }
    destruct (Split (Key entry) "/") as [|a [|b [|c [|d l]]]] eqn:Hsplit;
      try (apply Hinvalid; simpl; lia).
    clear Hinvalid.
    destruct (Assert (witness (single st)) (Value entry)) as [msg|] eqn:Hassert;
      [done|].
    unfold mbind, M_bind, bind.
    destruct (lift (checkOrCreateIndex a b) st) as [[u st1]| |] eqn:Hlift;
      [|done..].
    apply lift_checkOrCreateIndex_Ok in Hlift as [Hchecked Hknown].
    intros [Hrest Hr]%IH. split; [by eapply indexChecked_trans|].
    destruct r as [all|e].
    + destruct Hr as (new & -> & Hitems & Hasserted).
      exists ((a, b, c, Value entry) :: new). split; [by rewrite <- app_assoc|].
      split.
      * constructor; [|done]. by exists entry.
      * constructor; [done|].
        destruct Hchecked as (_ & _ & Hw & _). by rewrite <- Hw.
    + destruct Hr as (bad & Hin & Hbad & ->). exists bad.
      split; [by apply list_elem_of_further|]. by split.
Qed.

Lemma addBulkItems_invalid (pre post : list (option Entry)) (bad : Entry) :
  Forall validEntry pre -> ~ validKey (Key bad) ->
  forall (items : list bulkItem) st r st',
    addBulkItems (pre ++ Some bad :: post) items st = Ok (r, st') ->
    r = inr (invalidKey (Key bad)) /\ indexChecked st st'.
Proof.
  intros Hpre Hbad. induction Hpre as [|entry pre Hentry Hpre IH];
    intros items st r st'; simpl.
  - unfold validKey in Hbad.
    destruct (Split (Key bad) "/") as [|a [|b [|c [|d l]]]]; try done;
      intros [= <- <-]; (split; [done|apply indexChecked_refl]).
  - destruct Hentry as (e & -> & Hkey).
    destruct (validKey_parts _ Hkey) as (a & b & c & Hsplit). rewrite Hsplit.
    destruct (Assert (witness (single st)) (Value e)) as [msg|]; [done|].
    unfold mbind, M_bind, bind.
    destruct (lift (checkOrCreateIndex a b) st) as [[u st1]| |] eqn:Hlift;
      [|done..].
    apply lift_checkOrCreateIndex_Ok in Hlift as [Hchecked Hknown].
    intros (-> & Hrest)%IH. split; [done|]. by eapply indexChecked_trans.
Qed.

(** The loop passes ready entries without a request and goes on with
    the rest. *)
Lemma addBulkItems_ready (pre rest : list (option Entry)) st :
  Forall (readyEntry st) pre ->
  forall items : list bulkItem,
    exists new,
      addBulkItems (pre ++ rest) items st = addBulkItems rest (items ++ new) st.
Proof.
  intros Hpre. induction Hpre as [|entry pre Hentry Hpre IH]; intros items; simpl.
  - exists []. by rewrite app_nil_r.
  - destruct Hentry as (e & -> & (a & b & c & Hsplit & Hknown) & Hassert).
    rewrite Hsplit, Hassert. unfold mbind, M_bind, bind.
    rewrite (lift_checkOrCreateIndex_known _ _ _ Hknown).
    destruct (IH (items ++ [(a, b, c, Value e)])) as [new Hnew].
    exists ((a, b, c, Value e) :: new). rewrite Hnew. by rewrite <- app_assoc.
Qed.

(** X21. What [PutAll] has done when it returns: for no entries,
    nothing, and it returns no error; or it met an entry whose key does
    not have three parts and returns the error for that key without a
    bulk request; or it sent one bulk request, holding one item per
    entry in the order of the entries, each with the parts of the
    entry's key and the entry's value, which the witness let pass, and
    returns the client's answer to it. *)
Theorem PutAll_requests (entries : list (option Entry)) st
    (e : option error) st' :
  PutAll entries st = Ok (e, st') ->
  (entries = [] /\ e = None /\ st' = st) \/
  (exists bad : Entry,
     Some bad ∈ entries /\ ~ validKey (Key bad) /\
     e = Some (invalidKey (Key bad)) /\ indexChecked st st') \/
  (exists (items : list bulkItem) (srv : Server),
     entries <> [] /\
     Forall2 bulkItemOf entries items /\
     Forall (fun item => Assert (witness (single st)) item.2 = None) items /\
     manyRequests st' = manyRequests st ++ [BulkRequest items] /\
     Bulk (manyClient st) items srv = (e, server (single st'))).
Proof.
  destruct entries as [|entry entries].
  { intros [= <- <-]. by left. }
  rewrite PutAll_nonempty by done. unfold bind.
  destruct (addBulkItems (entry :: entries) [] st) as [[[items|err] st1]| |] eqn:Hadd;
    [| |done..].
  - apply addBulkItems_Ok in Hadd
      as ((Hclient & Hrequests & _) & new & -> & Hitems & Hasserted).
    simpl in *. unfold sendMany. rewrite Hclient.
    destruct (Bulk (manyClient st) new (server (single st1))) as [err srv] eqn:Hbulk.
    intros [= <- <-]. right. right. exists new, (server (single st1)).
    simpl. rewrite Hrequests. by repeat split.
  - apply addBulkItems_Ok in Hadd as (Hchecked & bad & Hin & Hbad & ->).
    intros [= <- <-]. right. left. by exists bad.
Qed.

(** X22. [PutAll] stops at the first entry whose key does not have
    three parts: it returns the error for that key and sends no bulk
    request.  It returns this with the store unchanged when the entries
    before are ready, whatever the value of the entry: [PutAll] looks
    at the key before it asserts the value, where [Put] asserts the
    value first and panics on a value the witness rejects. *)
Theorem PutAll_first_invalid_key (pre post : list (option Entry)) (bad : Entry) st :
  Forall validEntry pre -> ~ validKey (Key bad) ->
  (forall e st',
     PutAll (pre ++ Some bad :: post) st = Ok (e, st') ->
     e = Some (invalidKey (Key bad)) /\ indexChecked st st') /\
  (Forall (readyEntry st) pre ->
   PutAll (pre ++ Some bad :: post) st = Ok (Some (invalidKey (Key bad)), st)) /\
  (forall msg : string,
     Assert (witness (single st)) (Value bad) = Some msg ->
     Put (Key bad) (Value bad) (single st) = Panic msg).
Proof.
  intros Hpre Hbad.
  assert (Hne : pre ++ Some bad :: post <> []) by by destruct pre.
  split; [|split].
  - intros e st'. rewrite PutAll_nonempty by done. unfold bind.
    destruct (addBulkItems (pre ++ Some bad :: post) [] st)
      as [[items st1]| |] eqn:Hadd; [|done..].
    apply (addBulkItems_invalid _ _ _ Hpre Hbad) in Hadd as (-> & Hchecked).
    by intros [= <- <-].
  - intros Hready. rewrite PutAll_nonempty by done. unfold bind.
    destruct (addBulkItems_ready pre (Some bad :: post) st Hready []) as [new ->].
    simpl. unfold validKey in Hbad.
    by destruct (Split (Key bad) "/") as [|a [|b [|c [|d l]]]].
  - intros msg Hassert.
    unfold Put, mbind, kv.M_bind, kv.bind, getWitness. by rewrite Hassert.
Qed.

(** X23. After entries that are ready, [PutAll] panics on a nil
    entry, with the text of a nil pointer dereference, and on an entry
    with a key of three parts whose value the witness rejects, with
    the witness's message. *)
Theorem PutAll_panics (pre post : list (option Entry)) st :
  Forall (readyEntry st) pre ->
  PutAll (pre ++ None :: post) st
    = Panic "runtime error: invalid memory address or nil pointer dereference" /\
  (forall (entry : Entry) (msg : string),
     validKey (Key entry) ->
     Assert (witness (single st)) (Value entry) = Some msg ->
     PutAll (pre ++ Some entry :: post) st = Panic msg).
Proof.
  intros Hready. split.
  - rewrite PutAll_nonempty by by destruct pre. unfold bind.
    by destruct (addBulkItems_ready pre (None :: post) st Hready []) as [new ->].
  - intros entry msg Hkey Hassert.
    rewrite PutAll_nonempty by by destruct pre. unfold bind.
    destruct (addBulkItems_ready pre (Some entry :: post) st Hready []) as [new ->].
    simpl. destruct (validKey_parts _ Hkey) as (a & b & c & ->).
    by rewrite Hassert.
Qed.

End ManyDocuments.

Lemma GetAll_entries_witness :
  exists entries st',
    GetAll ["shop/orders/42"; "shop/users/7"] sampleStore
      = Ok ((Some entries, None), st') /\
    length entries = 2%nat /\
    manyRequests st'
      = [MultiGetRequest [("shop", "orders", "42"); ("shop", "users", "7")]].
Proof.
  destruct (GetAll ["shop/orders/42"; "shop/users/7"] sampleStore)
    as [[[[entries|] e] st']| |] eqn:Hrun; try (vm_compute in Hrun; discriminate).
  destruct (GetAll_entries _ _ _ _ _ Hrun) as (-> & Hlen & _).
  exists entries, st'. split; [reflexivity|]. split; [exact Hlen|].
  vm_compute in Hrun. by injection Hrun as <- <-.
Defined.

Lemma GetAll_first_invalid_key_witness :
  GetAll ["shop/orders/42"; "orders"; "shop/users/7"] checkedStore
    = Ok ((None, Some "invalid key: 'orders'"), checkedStore).
Proof.
  refine (proj2 (GetAll_first_invalid_key ["shop/orders/42"] ["shop/users/7"]
                   "orders" checkedStore _ _) _).
  - by repeat constructor.
  - unfold validKey. vm_compute. lia.
  - repeat constructor. by exists "shop", "orders", "42".
Defined.

Lemma PutAll_requests_witness :
  exists st',
    PutAll [Some {| Key := "shop/orders/42"; Value := AnyValue "{}" |}] sampleStore
      = Ok (None, st') /\
    manyRequests st' = [BulkRequest [("shop", "orders", "42", AnyValue "{}")]].
Proof.
  destruct (PutAll [Some {| Key := "shop/orders/42"; Value := AnyValue "{}" |}]
              sampleStore) as [[e st']| |] eqn:Hrun;
    try (vm_compute in Hrun; discriminate).
  destruct (PutAll_requests _ _ _ _ Hrun)
    as [(Hnil & _)|[(bad & _ & _ & He & _)|(items & srv & _ & _ & _ & Hreq & _)]].
  - discriminate.
  - vm_compute in Hrun. injection Hrun as <- _. discriminate.
  - exists st'. vm_compute in Hrun. by injection Hrun as <- <-.
Defined.

Lemma PutAll_first_invalid_key_witness :
  PutAll [Some {| Key := "shop/orders/42"; Value := AnyValue "{}" |};
          Some {| Key := "orders"; Value := AnyNil |}] checkedStore
    = Ok (Some "invalid key: 'orders'", checkedStore) /\
  Put "orders" AnyNil (single checkedStore) = Panic "Value must be a pointer type".
Proof.
  destruct (PutAll_first_invalid_key
              [Some {| Key := "shop/orders/42"; Value := AnyValue "{}" |}] []
              {| Key := "orders"; Value := AnyNil |} checkedStore)
    as (_ & Hready & Hput).
  - repeat constructor. eexists. split; [reflexivity|]. by vm_compute.
  - unfold validKey. vm_compute. lia.
  - split; [|exact (Hput _ eq_refl)]. apply Hready.
    repeat constructor. eexists. split; [reflexivity|]. split; [|reflexivity].
    by exists "shop", "orders", "42".
Defined.

Lemma PutAll_panics_witness :
  PutAll [Some {| Key := "shop/orders/42"; Value := AnyValue "{}" |}; None]
         checkedStore
    = Panic "runtime error: invalid memory address or nil pointer dereference" /\
  PutAll [Some {| Key := "shop/orders/42"; Value := AnyValue "{}" |};
          Some {| Key := "shop/orders/43"; Value := AnyNil |}] checkedStore
    = Panic "Value must be a pointer type".
Proof.
  assert (Hready : Forall (readyEntry checkedStore)
                     [Some {| Key := "shop/orders/42"; Value := AnyValue "{}" |}]).
  { repeat constructor. eexists. split; [reflexivity|]. split; [|reflexivity].
    by exists "shop", "orders", "42". }
  split.
  - exact (proj1 (PutAll_panics _ [] checkedStore Hready)).
  - exact (proj2 (PutAll_panics _ [] checkedStore Hready)
             {| Key := "shop/orders/43"; Value := AnyNil |} _ eq_refl eq_refl).
Defined.
